(** * events-app: data-access actions, URL-query helpers and the pagination control

    A shallow embedding of the server actions of the event-ticketing
    application (user, category, event and order actions), of the helpers of
    [lib/utils.ts] and of the [Pagination] component, together with the
    properties stated about them.

    The document database, the payment API, the regular-expression engine,
    [JSON.stringify] and the conversions between numbers and strings are
    collaborators outside the repository.  The database is modelled as four
    collections kept in their natural (insertion) order; the remaining
    collaborators are the fields of the class [Runtime].  The numbers of the
    client code are the binary64 floating-point numbers of the language. *)

From Stdlib Require Import PrimFloat.
From Stdlib Require FloatOps.
From Stdlib Require Import List String Ascii Bool ZArith QArith Qround Lia.
From Stdlib Require Import DecimalString Sorted Permutation.
Import ListNotations.

Set Warnings "-register-all".

Local Open Scope string_scope.
Local Open Scope list_scope.
Local Open Scope Z_scope.

(* ------------------------------------------------------------------------- *)
(** ** JavaScript values that are thrown or written to the console *)

Inductive JsValue : Type :=
| JUndefined
| JNull
| JBool (b : bool)
| JNumber (n : Z)
| JString (s : string)
| JError (name message : string)
| JObject (fields : list (string * JsValue)).

(** [new Error(message)]; [message] may be [undefined], which leaves the
    message empty. *)
Definition new_Error (message : option string) : JsValue :=
  JError "Error" (match message with Some m => m | None => "" end).

(** A JavaScript number: a binary64 floating-point number, with its
    infinities and [NaN].  Sums, differences and products are rounded to the
    nearest number, and a comparison with [NaN] is false. *)
Definition JsNum : Type := float.

Definition js_add (a b : JsNum) : JsNum := PrimFloat.add a b.
Definition js_sub (a b : JsNum) : JsNum := PrimFloat.sub a b.
Definition js_mul (a b : JsNum) : JsNum := PrimFloat.mul a b.

(** [a <= b] and [a >= b]. *)
Definition js_leb (a b : JsNum) : bool := PrimFloat.leb a b.
Definition js_geb (a b : JsNum) : bool := PrimFloat.leb b a.

(** What lies outside the repository: [JSON.stringify] (which answers
    [undefined] on some values), the case-insensitive regular-expression
    engine ([None] on a pattern that does not compile), the identifier that
    the BSON library reads in the argument of [new ObjectId(..)] ([None] when
    it refuses the argument; a hexadecimal text is read whatever the case of
    its letters, and the identifier is given in the canonical form in which
    the store keeps identifiers), the identifiers the driver generates for
    new documents, the conversions [Number(s)] of a string to a number and
    [n.toString()] of a number to a string, and the address of the checkout
    session the payment API opens for a product name and a unit amount. *)
Class Runtime : Type := {
  JSON_stringify : JsValue -> option string;
  regex_i : string -> option (string -> bool);
  ObjectId_hex : string -> option string;
  ObjectId_generate : nat -> string;
  Number_of_string : string -> JsNum;
  Number_toString : JsNum -> string;
  Stripe_session_url : string -> JsNum -> string
}.

(** [new ObjectId(s)] accepts [s]. *)
Definition ObjectId_isValid {RT : Runtime} (s : string) : bool :=
  match ObjectId_hex s with Some _ => true | None => false end.

(* ------------------------------------------------------------------------- *)
(** ** Data model *)

(** Identifiers are kept in their canonical hexadecimal form. *)
Definition ObjectId : Type := string.

(** Modelled from the spec: the [User] schema is not part of the sources.
    "User (identity, name fields, back-references to events/orders)". *)
Record User : Type := {
  u_id : ObjectId;
  clerkId : string;
  email : string;
  username : string;
  firstName : string;
  lastName : string;
  photo : string;
  u_events : list ObjectId;
  u_orders : list ObjectId
}.

(** Modelled from the spec: the [Category] schema is not part of the sources.
    "Category (name)". *)
Record Category : Type := {
  c_id : ObjectId;
  name : string
}.

(** Modelled from the spec: the [Event] schema is not part of the sources.
    "Event (title, price, dates, foreign keys to organizer and category)".
    A foreign key that is not set is [None]. *)
Record Event : Type := {
  e_id : ObjectId;
  title : string;
  price : string;
  isFree : bool;
  createdAt : Z;
  startDateTime : Z;
  endDateTime : Z;
  category : option ObjectId;
  organizer : option ObjectId
}.

(** Modelled from the spec: the [Order] schema is not part of the sources.
    "Order (foreign keys to event and buyer, amount, timestamp)". *)
Record Order : Type := {
  o_id : ObjectId;
  o_createdAt : Z;
  stripeId : string;
  totalAmount : string;
  o_event : option ObjectId;
  buyer : option ObjectId
}.

Record Database : Type := {
  users : list User;
  events : list Event;
  categories : list Category;
  orders : list Order
}.

Definition set_users (d : Database) (l : list User) : Database :=
  {| users := l; events := events d; categories := categories d; orders := orders d |}.
Definition set_events (d : Database) (l : list Event) : Database :=
  {| users := users d; events := l; categories := categories d; orders := orders d |}.
Definition set_categories (d : Database) (l : list Category) : Database :=
  {| users := users d; events := events d; categories := l; orders := orders d |}.
Definition set_orders (d : Database) (l : list Order) : Database :=
  {| users := users d; events := events d; categories := categories d; orders := l |}.

(** The parameter types of [@/types], reduced to the fields of the model. *)
Record CreateUserParams : Type := {
  cu_clerkId : string;
  cu_email : string;
  cu_username : string;
  cu_firstName : string;
  cu_lastName : string;
  cu_photo : string
}.

Record UpdateUserParams : Type := {
  uu_firstName : string;
  uu_lastName : string;
  uu_username : string;
  uu_photo : string
}.

Record EventFields : Type := {
  ef_id : string;
  ef_title : string;
  ef_price : string;
  ef_isFree : bool;
  ef_startDateTime : Z;
  ef_endDateTime : Z;
  ef_categoryId : string
}.

Record CreateEventParams : Type := {
  ce_userId : string;
  ce_event : EventFields;
  ce_path : string
}.

Record UpdateEventParams : Type := {
  ue_userId : string;
  ue_event : EventFields;
  ue_path : string
}.

Record DeleteEventParams : Type := {
  de_eventId : string;
  de_path : string
}.

Record GetAllEventsParams : Type := {
  ga_query : string;
  ga_limit : option Z;
  ga_page : Z;
  ga_category : string
}.

Record GetRelatedEventsByCategoryParams : Type := {
  gr_categoryId : string;
  gr_eventId : string;
  gr_limit : option Z;
  gr_page : option Z
}.

Record GetEventsByUserParams : Type := {
  gu_userId : string;
  gu_limit : option Z;
  gu_page : Z
}.

Record CheckoutOrderParams : Type := {
  co_eventTitle : string;
  co_eventId : string;
  co_price : string;
  co_isFree : bool;
  co_buyerId : string
}.

Record CreateOrderParams : Type := {
  cr_stripeId : string;
  cr_eventId : string;
  cr_buyerId : string;
  cr_totalAmount : string;
  cr_createdAt : Z
}.

Record GetOrdersByEventParams : Type := {
  goe_eventId : string;
  goe_searchString : string
}.

Record GetOrdersByUserParams : Type := {
  gou_userId : string;
  gou_limit : option Z;
  gou_page : Z
}.

(** A default parameter value ([limit = 6]) applies when the argument is
    [undefined]. *)
Definition default_to {A : Type} (d : A) (o : option A) : A :=
  match o with Some a => a | None => d end.

(** A string is falsy exactly when it is empty. *)
Definition truthy (s : string) : bool := negb (s =? "")%string.

(* ------------------------------------------------------------------------- *)
(** ** What the actions return *)

(** The projection [select: '_id firstName lastName'] of a populated user. *)
Record UserRef : Type := {
  ref_id : ObjectId;
  ref_firstName : string;
  ref_lastName : string
}.

Record PopulatedEvent : Type := {
  pe_event : Event;
  pe_organizer : option UserRef;
  pe_category : option Category
}.

(** An order whose [event] path is populated with the whole event, the
    [organizer] path of that event being populated in turn. *)
Record PopulatedOrder : Type := {
  po_order : Order;
  po_event : option Event;
  po_organizer : option UserRef
}.

(** The documents produced by the [$project] stage of [getOrdersByEvent]. *)
Record OrderItem : Type := {
  item_id : ObjectId;
  item_totalAmount : string;
  item_createdAt : Z;
  eventTitle : string;
  eventId : ObjectId;
  item_buyer : string
}.

Inductive Ret : Type :=
| RUndefined
| RNull
| RUser (u : User)
| RCategory (c : Category)
| RCategories (l : list Category)
| REvent (e : Event)
| RPopulatedEvent (e : PopulatedEvent)
| ROrder (o : Order)
| ROrderItems (l : list OrderItem)
| REventsPage (data : list PopulatedEvent) (totalPages : Z)
| ROrdersPage (data : list PopulatedOrder) (totalPages : Z).

(** The [totalPages] field of a returned object, when it has one. *)
Definition totalPages_of (r : Ret) : option Z :=
  match r with
  | REventsPage _ t | ROrdersPage _ t => Some t
  | _ => None
  end.

(** Documents are modelled by their serialisable content, on which
    [JSON.parse(JSON.stringify(doc))] is the identity. *)
Definition JSON_roundtrip {A : Type} (doc : A) : A := doc.

(* ------------------------------------------------------------------------- *)
(** ** The world an action runs in *)

Inductive Op : Type :=
| OpConnect
| OpQuery (what : string)
| OpStripe.


Inductive Status : Type :=
| Ok
| Failed (v : JsValue).

Inductive ConsoleEntry : Type :=
| console_log (v : JsValue)
| console_error (v : JsValue).

(** [faults] is the oracle of the collaborators: each external operation
    consumes its head, and [Some v] makes the operation throw [v] (a lost
    connection, a rejected query, a declined payment).  [trace] records the
    external operations performed so far, in order: one entry for each
    awaited call, so that a query of a model counts once together with the
    [populate] joins chained to it, as an aggregation counts once with its
    pipeline.  The reads that the mapper issues on its own to resolve a
    [populate] belong to the call that asked for them. *)
Record World : Type := {
  db : Database;
  console : list ConsoleEntry;
  revalidated : list string;
  faults : list (option JsValue);
  trace : list (Op * Status);
  now : Z
}.

Definition set_db (w : World) (d : Database) : World :=
  {| db := d; console := console w; revalidated := revalidated w;
     faults := faults w; trace := trace w; now := now w |}.
Definition write_console (w : World) (e : ConsoleEntry) : World :=
  {| db := db w; console := console w ++ [e]; revalidated := revalidated w;
     faults := faults w; trace := trace w; now := now w |}.
Definition add_revalidated (w : World) (p : string) : World :=
  {| db := db w; console := console w; revalidated := revalidated w ++ [p];
     faults := faults w; trace := trace w; now := now w |}.
Definition performed (w : World) (o : Op) (s : Status) (d : Database) : World :=
  {| db := d; console := console w; revalidated := revalidated w;
     faults := tl (faults w); trace := trace w ++ [(o, s)]; now := now w |}.

(** The operations an action performed between two worlds. *)
Definition new_ops (w w' : World) : list (Op * Status) :=
  skipn (List.length (trace w)) (trace w').

Fixpoint first_failure (l : list (Op * Status)) : option JsValue :=
  match l with
  | [] => None
  | (_, Failed v) :: _ => Some v
  | (_, Ok) :: l' => first_failure l'
  end.


(* ------------------------------------------------------------------------- *)
(** ** A state-and-exception monad for [async] functions *)

Inductive Outcome (A : Type) : Type :=
| Return (a : A)
| Throw (v : JsValue).
Arguments Return {A} a.
Arguments Throw {A} v.

Definition M (A : Type) : Type := World -> Outcome A * World.

Definition ret {A : Type} (a : A) : M A := fun w => (Return a, w).

Definition throw {A : Type} (v : JsValue) : M A := fun w => (Throw v, w).

Definition bind {A B : Type} (m : M A) (k : A -> M B) : M B :=
  fun w =>
    match m w with
    | (Return a, w') => k a w'
    | (Throw v, w') => (Throw v, w')
    end.

Definition try_catch {A : Type} (m : M A) (h : JsValue -> M A) : M A :=
  fun w =>
    match m w with
    | (Return a, w') => (Return a, w')
    | (Throw v, w') => h v w'
    end.

Notation "x <- m ;; k" := (bind m (fun x => k))
  (at level 61, m at next level, right associativity).
Notation "m ;; k" := (bind m (fun _ => k))
  (at level 61, right associativity).
Notation "'try' m 'catch' h" := (try_catch m h)
  (at level 62, m at level 61, h at level 9).

(** An operation of a collaborator.  The oracle may make it throw; otherwise
    [run] gives its answer on the current world and the database it leaves,
    or the value with which the collaborator itself rejects the operation. *)
Definition external {A : Type} (o : Op)
    (run : World -> JsValue + (A * Database)) : M A :=
  fun w =>
    match faults w with
    | Some v :: _ => (Throw v, performed w o (Failed v) (db w))
    | _ =>
        match run w with
        | inl v => (Throw v, performed w o (Failed v) (db w))
        | inr (a, d) => (Return a, performed w o Ok d)
        end
    end.

(** A read-only query. *)
Definition reading {A : Type} (f : Database -> A) : World -> JsValue + (A * Database) :=
  fun w => inr (f (db w), db w).

(** [Promise.all([p1, p2])]: both operations are started, in the order of
    the array; the result is rejected with the first rejection. *)
Definition Promise_all2 {A B : Type} (m1 : M A) (m2 : M B) : M (A * B) :=
  fun w =>
    let (r1, w1) := m1 w in
    let (r2, w2) := m2 w1 in
    match r1, r2 with
    | Throw v, _ => (Throw v, w2)
    | Return _, Throw v => (Throw v, w2)
    | Return a, Return b => (Return (a, b), w2)
    end.

Definition console_write (e : ConsoleEntry) : M unit :=
  fun w => (Return tt, write_console w e).

Definition revalidatePath (path : string) : M unit :=
  fun w => (Return tt, add_revalidated w path).

Definition connectToDatabase : M unit :=
  external OpConnect (reading (fun _ => tt)).

(* ------------------------------------------------------------------------- *)
(** ** The document store *)

Definition ref_is (r : option ObjectId) (i : ObjectId) : bool :=
  match r with
  | Some a => (a =? i)%string
  | None => false
  end.

Definition is_some {A : Type} (o : option A) : bool :=
  match o with Some _ => true | None => false end.

Definition id_in (i : ObjectId) (l : list ObjectId) : bool :=
  existsb (fun j => (j =? i)%string) l.

(** [sort({ createdAt: 'desc' })], as a stable insertion sort. *)
Fixpoint insert_desc {A : Type} (key : A -> Z) (x : A) (l : list A) : list A :=
  match l with
  | [] => [x]
  | y :: l' => if key y <=? key x then x :: l else y :: insert_desc key x l'
  end.

Definition sort_desc {A : Type} (key : A -> Z) (l : list A) : list A :=
  fold_right (insert_desc key) [] l.

(** [limit(n)]: zero means no limit, and the sign of [n] is ignored. *)
Definition apply_limit {A : Type} (limit : Z) (l : list A) : list A :=
  if limit =? 0 then l else firstn (Z.to_nat (Z.abs limit)) l.

(** [skip(s).limit(n)] on the sorted matches; the store rejects a negative
    skip. *)
Definition cursor {A : Type} (skip limit : Z) (l : list A) : JsValue + list A :=
  if skip <? 0
  then inl (JError "MongoServerError" "Skip value must be non-negative")
  else inr (apply_limit limit (skipn (Z.to_nat skip) l)).

(** Replace the first document that satisfies [p]. *)
Fixpoint update_first {A : Type} (p : A -> bool) (f : A -> A) (l : list A) : list A :=
  match l with
  | [] => []
  | x :: l' => if p x then f x :: l' else x :: update_first p f l'
  end.

(** Remove the first document that satisfies [p]. *)
Fixpoint remove_first {A : Type} (p : A -> bool) (l : list A) : list A :=
  match l with
  | [] => []
  | x :: l' => if p x then l' else x :: remove_first p l'
  end.

(** [Math.ceil] and the division of two integral numbers. *)
Definition Math_ceil (q : Q) : Z := Qceiling q.
Definition js_div (a b : Z) : Q := (inject_Z a / inject_Z b)%Q.

(** The conditions the event queries are built from. *)
Inductive EventCond : Type :=
| cond_all
| cond_and (c1 c2 : EventCond)
| cond_title_regex (pattern : string)
| cond_category (id : ObjectId)
| cond_organizer (id : ObjectId)
| cond_id_ne (id : ObjectId).

Section Store.
Context {RT : Runtime}.

(** The predicate a condition denotes; [None] when a regular expression in
    it does not compile. *)
Fixpoint eval_cond (c : EventCond) : option (Event -> bool) :=
  match c with
  | cond_all => Some (fun _ => true)
  | cond_and c1 c2 =>
      match eval_cond c1, eval_cond c2 with
      | Some f1, Some f2 => Some (fun e => f1 e && f2 e)
      | _, _ => None
      end
  | cond_title_regex pattern =>
      match regex_i pattern with
      | Some m => Some (fun e => m (title e))
      | None => None
      end
  | cond_category id => Some (fun e => ref_is (category e) id)
  | cond_organizer id => Some (fun e => ref_is (organizer e) id)
  | cond_id_ne id => Some (fun e => negb (e_id e =? id)%string)
  end.

Definition invalid_regex : JsValue :=
  JError "MongoServerError" "Regular expression is invalid".

Definition User_findById (id : ObjectId) : M (option User) :=
  external (OpQuery "User.findById")
    (reading (fun d => find (fun u => (u_id u =? id)%string) (users d))).

Definition User_findOne (clerk : string) : M (option User) :=
  external (OpQuery "User.findOne")
    (reading (fun d => find (fun u => (clerkId u =? clerk)%string) (users d))).

Definition User_create (user : CreateUserParams) : M User :=
  external (OpQuery "User.create")
    (fun w =>
       let u := {| u_id := ObjectId_generate (List.length (trace w));
                   clerkId := cu_clerkId user; email := cu_email user;
                   username := cu_username user; firstName := cu_firstName user;
                   lastName := cu_lastName user; photo := cu_photo user;
                   u_events := []; u_orders := [] |} in
       inr (u, set_users (db w) (users (db w) ++ [u]))).

Definition apply_user_update (user : UpdateUserParams) (u : User) : User :=
  {| u_id := u_id u; clerkId := clerkId u; email := email u;
     username := uu_username user; firstName := uu_firstName user;
     lastName := uu_lastName user; photo := uu_photo user;
     u_events := u_events u; u_orders := u_orders u |}.

(** [findOneAndUpdate({ clerkId }, user, { new: true })]. *)
Definition User_findOneAndUpdate (clerk : string) (user : UpdateUserParams)
  : M (option User) :=
  external (OpQuery "User.findOneAndUpdate")
    (fun w =>
       let p := fun u => (clerkId u =? clerk)%string in
       inr (option_map (apply_user_update user) (find p (users (db w))),
            set_users (db w) (update_first p (apply_user_update user) (users (db w))))).

Definition User_findByIdAndDelete (id : ObjectId) : M (option User) :=
  external (OpQuery "User.findByIdAndDelete")
    (fun w =>
       let p := fun u => (u_id u =? id)%string in
       inr (find p (users (db w)),
            set_users (db w) (remove_first p (users (db w))))).

Definition Category_create (categoryName : string) : M Category :=
  external (OpQuery "Category.create")
    (fun w =>
       let c := {| c_id := ObjectId_generate (List.length (trace w));
                   name := categoryName |} in
       inr (c, set_categories (db w) (categories (db w) ++ [c]))).

Definition Category_find : M (list Category) :=
  external (OpQuery "Category.find") (reading categories).

(** [Category.findOne({ name: { $regex: name, $options: 'i' } })]. *)
Definition Category_findOne_regex (pattern : string) (d : Database)
  : JsValue + option Category :=
  match regex_i pattern with
  | Some m => inr (find (fun c => m (name c)) (categories d))
  | None => inl invalid_regex
  end.

Definition Event_findById (id : ObjectId) : M (option Event) :=
  external (OpQuery "Event.findById")
    (reading (fun d => find (fun e => (e_id e =? id)%string) (events d))).

(** [Event.create({ ...event, category: event.categoryId, organizer: userId })];
    the parameters of a creation carry no [_id]. *)
Definition Event_create (event : EventFields) (userId : string) : M Event :=
  external (OpQuery "Event.create")
    (fun w =>
       let e := {| e_id := ObjectId_generate (List.length (trace w));
                   title := ef_title event; price := ef_price event;
                   isFree := ef_isFree event; createdAt := now w;
                   startDateTime := ef_startDateTime event;
                   endDateTime := ef_endDateTime event;
                   category := Some (ef_categoryId event);
                   organizer := Some userId |} in
       inr (e, set_events (db w) (events (db w) ++ [e]))).

Definition apply_event_update (event : EventFields) (e : Event) : Event :=
  {| e_id := e_id e; title := ef_title event; price := ef_price event;
     isFree := ef_isFree event; createdAt := createdAt e;
     startDateTime := ef_startDateTime event;
     endDateTime := ef_endDateTime event;
     category := Some (ef_categoryId event);
     organizer := organizer e |}.

(** [findByIdAndUpdate(event._id, { ...event, category: event.categoryId },
    { new: true })]. *)
Definition Event_findByIdAndUpdate (id : ObjectId) (event : EventFields)
  : M (option Event) :=
  external (OpQuery "Event.findByIdAndUpdate")
    (fun w =>
       let p := fun e => (e_id e =? id)%string in
       inr (option_map (apply_event_update event) (find p (events (db w))),
            set_events (db w) (update_first p (apply_event_update event) (events (db w))))).

Definition Event_findByIdAndDelete (id : ObjectId) : M (option Event) :=
  external (OpQuery "Event.findByIdAndDelete")
    (fun w =>
       let p := fun e => (e_id e =? id)%string in
       inr (find p (events (db w)),
            set_events (db w) (remove_first p (events (db w))))).

(** [Event.find(conditions).sort({ createdAt: 'desc' }).skip(s).limit(n)]. *)
Definition find_events (conditions : EventCond) (skip limit : Z) (d : Database)
  : JsValue + list Event :=
  match eval_cond conditions with
  | Some f => cursor skip limit (sort_desc createdAt (filter f (events d)))
  | None => inl invalid_regex
  end.

(** [Event.countDocuments(conditions)]. *)
Definition count_events (conditions : EventCond) (d : Database) : JsValue + Z :=
  match eval_cond conditions with
  | Some f => inr (Z.of_nat (List.length (filter f (events d))))
  | None => inl invalid_regex
  end.

Definition lift_read {A : Type} (r : Database -> JsValue + A)
  : World -> JsValue + (A * Database) :=
  fun w =>
    match r (db w) with
    | inl v => inl v
    | inr a => inr (a, db w)
    end.

Definition user_ref (u : User) : UserRef :=
  {| ref_id := u_id u; ref_firstName := firstName u; ref_lastName := lastName u |}.

Definition populate_user (d : Database) (r : option ObjectId) : option UserRef :=
  match r with
  | Some i => option_map user_ref (find (fun u => (u_id u =? i)%string) (users d))
  | None => None
  end.

Definition populate_category (d : Database) (r : option ObjectId) : option Category :=
  match r with
  | Some i => find (fun c => (c_id c =? i)%string) (categories d)
  | None => None
  end.

(** The two [populate] calls of [populateEvent], on one document. *)
Definition populateEvent (d : Database) (e : Event) : PopulatedEvent :=
  {| pe_event := e;
     pe_organizer := populate_user d (organizer e);
     pe_category := populate_category d (category e) |}.

(** [Event.updateMany({ _id: { $in: ids } }, { $pull: { organizer: uid } })].
    [$pull] removes elements from an array; [organizer] holds a single
    reference, and the store rejects [$pull] on a field that is present and
    is not an array.  Matched documents without the field are left as they
    are. *)
Definition Event_updateMany_pull_organizer (ids : list ObjectId) (uid : ObjectId)
  : M unit :=
  external (OpQuery "Event.updateMany")
    (fun w =>
       if existsb (fun e => id_in (e_id e) ids && is_some (organizer e)) (events (db w))
       then inl (JError "MongoServerError" "Cannot apply $pull to a non-array value")
       else inr (tt, db w)).

Definition unset_buyer (o : Order) : Order :=
  {| o_id := o_id o; o_createdAt := o_createdAt o; stripeId := stripeId o;
     totalAmount := totalAmount o; o_event := o_event o; buyer := None |}.

(** [Order.updateMany({ _id: { $in: ids } }, { $unset: { buyer: 1 } })]. *)
Definition Order_updateMany_unset_buyer (ids : list ObjectId) : M unit :=
  external (OpQuery "Order.updateMany")
    (fun w =>
       inr (tt, set_orders (db w)
                  (map (fun o => if id_in (o_id o) ids then unset_buyer o else o)
                       (orders (db w))))).

(** [Order.create({ ...order, event: order.eventId, buyer: order.buyerId })]. *)
Definition Order_create (order : CreateOrderParams) : M Order :=
  external (OpQuery "Order.create")
    (fun w =>
       let o := {| o_id := ObjectId_generate (List.length (trace w));
                   o_createdAt := cr_createdAt order; stripeId := cr_stripeId order;
                   totalAmount := cr_totalAmount order;
                   o_event := Some (cr_eventId order);
                   buyer := Some (cr_buyerId order) |} in
       inr (o, set_orders (db w) (orders (db w) ++ [o]))).

(** The stages of the aggregation pipeline of [getOrdersByEvent]. *)
Definition lookup_buyer (d : Database) (o : Order) : Order * list User :=
  (o, filter (fun u => ref_is (buyer o) (u_id u)) (users d)).

Definition lookup_event (d : Database) (ou : Order * User)
  : (Order * User) * list Event :=
  (ou, filter (fun e => ref_is (o_event (fst ou)) (e_id e)) (events d)).

Definition unwind {A B : Type} (l : list (A * list B)) : list (A * B) :=
  flat_map (fun ab => map (pair (fst ab)) (snd ab)) l.

Definition fullName (u : User) : string :=
  firstName u ++ " " ++ lastName u.

Definition project (oue : (Order * User) * Event) : OrderItem :=
  let '((o, u), e) := oue in
  {| item_id := o_id o; item_totalAmount := totalAmount o;
     item_createdAt := o_createdAt o;
     eventTitle := title e; eventId := e_id e;
     item_buyer := fullName u |}.

Definition pipeline (eventObjectId : ObjectId) (re : string -> bool) (d : Database)
  : list OrderItem :=
  let s1 := map (lookup_buyer d) (orders d) in
  let s2 := unwind s1 in
  let s3 := map (lookup_event d) s2 in
  let s4 := unwind s3 in
  let s5 := map project s4 in
  filter (fun i => (eventId i =? eventObjectId)%string && re (item_buyer i)) s5.

Definition populate_order (d : Database) (o : Order) : PopulatedOrder :=
  let ev := match o_event o with
            | Some i => find (fun e => (e_id e =? i)%string) (events d)
            | None => None
            end in
  {| po_order := o;
     po_event := ev;
     po_organizer := match ev with
                     | Some e => populate_user d (organizer e)
                     | None => None
                     end |}.

End Store.

(* ------------------------------------------------------------------------- *)
(** ** lib/utils.ts: [handleError] *)

Section Actions.
Context {RT : Runtime}.

(** The message [handleError] gives the error it throws:
    [typeof error === 'string' ? error : JSON.stringify(error)]. *)
Definition handleError_message (error : JsValue) : option string :=
  match error with
  | JString s => Some s
  | _ => JSON_stringify error
  end.

Definition handleError {A : Type} (error : JsValue) : M A :=
  console_write (console_error error) ;;
  throw (new_Error (handleError_message error)).

(** [if (c) throw v]. *)
Definition throw_if (c : bool) (v : JsValue) : M unit :=
  if c then throw v else ret tt.

(** [new ObjectId(s)] is the identifier read in [s], and throws when [s]
    does not have the form of an identifier. *)
Definition new_ObjectId (s : string) : M ObjectId :=
  match ObjectId_hex s with
  | Some i => ret i
  | None => throw (JError "BSONError" "input must be a 24 character hex string")
  end.

(** [RegExp(s, 'i')] throws on a pattern that does not compile. *)
Definition RegExp_i (s : string) : M (string -> bool) :=
  match regex_i s with
  | Some m => ret m
  | None => throw (JError "SyntaxError" "Invalid regular expression")
  end.

(** [organizer.toHexString()]; the call on a reference that is not set is a
    [TypeError]. *)
Definition toHexString (r : option ObjectId) : M string :=
  match r with
  | Some i => ret i
  | None => throw (JError "TypeError" "Cannot read properties of undefined")
  end.

(* ------------------------------------------------------------------------- *)
(** ** lib/actions/user.actions.ts *)

Definition createUser (user : CreateUserParams) : M Ret :=
  try (connectToDatabase ;;
       newUser <- User_create user ;;
       ret (RUser (JSON_roundtrip newUser)))
  catch handleError.

Definition getUserById (userId : string) : M Ret :=
  try (connectToDatabase ;;
       user <- User_findById userId ;;
       match user with
       | None => throw (new_Error (Some "User not found"))
       | Some u => ret (RUser (JSON_roundtrip u))
       end)
  catch handleError.

Definition updateUser (clerk : string) (user : UpdateUserParams) : M Ret :=
  try (connectToDatabase ;;
       updatedUser <- User_findOneAndUpdate clerk user ;;
       match updatedUser with
       | None => throw (new_Error (Some "User update failed"))
       | Some u => ret (RUser (JSON_roundtrip u))
       end)
  catch handleError.

Definition deleteUser (clerk : string) : M Ret :=
  try (connectToDatabase ;;
       userToDelete <- User_findOne clerk ;;
       match userToDelete with
       | None => throw (new_Error (Some "User not found"))
       | Some u =>
           Promise_all2
             (Event_updateMany_pull_organizer (u_events u) (u_id u))
             (Order_updateMany_unset_buyer (u_orders u)) ;;
           deletedUser <- User_findByIdAndDelete (u_id u) ;;
           revalidatePath "/" ;;
           ret (match deletedUser with
                | Some du => RUser (JSON_roundtrip du)
                | None => RNull
                end)
       end)
  catch handleError.

(* ------------------------------------------------------------------------- *)
(** ** lib/actions/category.actions.ts *)

Definition createCategory (categoryName : string) : M Ret :=
  try (connectToDatabase ;;
       newCategory <- Category_create categoryName ;;
       ret (RCategory (JSON_roundtrip newCategory)))
  catch handleError.

Definition getAllCategories : M Ret :=
  try (connectToDatabase ;;
       categories <- Category_find ;;
       ret (RCategories (JSON_roundtrip categories)))
  catch handleError.

(* ------------------------------------------------------------------------- *)
(** ** lib/actions/event.actions.ts *)

Definition getCategoryByName (name : string) : M (option Category) :=
  external (OpQuery "Category.findOne") (lift_read (Category_findOne_regex name)).

(** The query [populateEvent(Event.find(conditions).sort(..).skip(..).limit(..))]. *)
Definition Event_find (conditions : EventCond) (skip limit : Z)
  : M (list PopulatedEvent) :=
  external (OpQuery "Event.find")
    (fun w =>
       match find_events conditions skip limit (db w) with
       | inl v => inl v
       | inr l => inr (map (populateEvent (db w)) l, db w)
       end).

Definition Event_countDocuments (conditions : EventCond) : M Z :=
  external (OpQuery "Event.countDocuments") (lift_read (count_events conditions)).

Definition createEvent (p : CreateEventParams) : M Ret :=
  let userId := ce_userId p in
  let event := ce_event p in
  let path := ce_path p in
  try (connectToDatabase ;;
       console_write
         (console_log (JObject [("category", JString (ef_categoryId event))])) ;;
       organizer <- User_findById userId ;;
       throw_if (negb (is_some organizer)) (new_Error (Some "Organizer not found")) ;;
       newEvent <- Event_create event userId ;;
       revalidatePath path ;;
       ret (REvent (JSON_roundtrip newEvent)))
  catch handleError.

Definition getEventById (eventId : string) : M Ret :=
  try (connectToDatabase ;;
       event <- external (OpQuery "Event.findById")
                  (reading (fun d =>
                     option_map (populateEvent d)
                       (find (fun e => (e_id e =? eventId)%string) (events d)))) ;;
       match event with
       | None => throw (new_Error (Some "Event not found"))
       | Some e => ret (RPopulatedEvent (JSON_roundtrip e))
       end)
  catch handleError.

(** The conditions of [getAllEvents], from the search text and the category
    the name was resolved to. *)
Definition getAllEvents_conditions (query : string)
    (categoryCondition : option Category) : EventCond :=
  let titleCondition :=
    if truthy query then cond_title_regex query else cond_all in
  cond_and titleCondition
    (match categoryCondition with
     | Some c => cond_category (c_id c)
     | None => cond_all
     end).

Definition getAllEvents (p : GetAllEventsParams) : M Ret :=
  let query := ga_query p in
  let limit := default_to 6 (ga_limit p) in
  let page := ga_page p in
  let category := ga_category p in
  try (connectToDatabase ;;
       categoryCondition <-
         (if truthy category then getCategoryByName category else ret None) ;;
       let conditions := getAllEvents_conditions query categoryCondition in
       let skipAmount := (page - 1) * limit in
       events <- Event_find conditions skipAmount limit ;;
       eventsCount <- Event_countDocuments conditions ;;
       ret (REventsPage (JSON_roundtrip events)
                        (Math_ceil (js_div eventsCount limit))))
  catch handleError.

Definition deleteEvent (p : DeleteEventParams) : M Ret :=
  let eventId := de_eventId p in
  let path := de_path p in
  try (connectToDatabase ;;
       deletedEvent <- Event_findByIdAndDelete eventId ;;
       (if is_some deletedEvent then revalidatePath path else ret tt) ;;
       ret RUndefined)
  catch handleError.

Definition updateEvent (p : UpdateEventParams) : M Ret :=
  let userId := ue_userId p in
  let event := ue_event p in
  let path := ue_path p in
  try (connectToDatabase ;;
       eventToUpdate <- Event_findById (ef_id event) ;;
       refused <- match eventToUpdate with
                  | None => ret true
                  | Some e =>
                      hex <- toHexString (organizer e) ;;
                      ret (negb (hex =? userId)%string)
                  end ;;
       throw_if refused (new_Error (Some "Unauthorized or event not found")) ;;
       updatedEvent <- Event_findByIdAndUpdate (ef_id event) event ;;
       revalidatePath path ;;
       ret (match updatedEvent with
            | Some e => REvent (JSON_roundtrip e)
            | None => RNull
            end))
  catch handleError.

Definition getRelatedEventsByCategory (p : GetRelatedEventsByCategoryParams) : M Ret :=
  let categoryId := gr_categoryId p in
  let eventId := gr_eventId p in
  let limit := default_to 3 (gr_limit p) in
  let page := default_to 1 (gr_page p) in
  try (connectToDatabase ;;
       let skipAmount := (page - 1) * limit in
       let conditions := cond_and (cond_category categoryId) (cond_id_ne eventId) in
       events <- Event_find conditions skipAmount limit ;;
       eventsCount <- Event_countDocuments conditions ;;
       ret (REventsPage (JSON_roundtrip events)
                        (Math_ceil (js_div eventsCount limit))))
  catch handleError.

Definition getEventsByUser (p : GetEventsByUserParams) : M Ret :=
  let userId := gu_userId p in
  let limit := default_to 6 (gu_limit p) in
  let page := gu_page p in
  try (connectToDatabase ;;
       let conditions := cond_organizer userId in
       let skipAmount := (page - 1) * limit in
       events <- Event_find conditions skipAmount limit ;;
       eventsCount <- Event_countDocuments conditions ;;
       ret (REventsPage (JSON_roundtrip events)
                        (Math_ceil (js_div eventsCount limit))))
  catch handleError.

(* ------------------------------------------------------------------------- *)
(** ** lib/actions/order.actions.ts *)

(** [redirect(url)] leaves the action by throwing. *)
Definition redirect {A : Type} (url : string) : M A :=
  throw (JError "NEXT_REDIRECT" url).

(** [order.isFree ? 0 : Number(order.price) * 100]: the product is the one
    of the floating-point numbers. *)
Definition checkout_price (order : CheckoutOrderParams) : JsNum :=
  if co_isFree order then 0%float
  else js_mul (Number_of_string (co_price order)) 100%float.

Definition checkoutOrder (order : CheckoutOrderParams) : M Ret :=
  try (let price := checkout_price order in
       session_url <- external OpStripe
                        (reading (fun _ => Stripe_session_url (co_eventTitle order) price)) ;;
       redirect session_url)
  catch (fun error => throw error).

Definition createOrder (order : CreateOrderParams) : M Ret :=
  try (connectToDatabase ;;
       newOrder <- Order_create order ;;
       ret (ROrder (JSON_roundtrip newOrder)))
  catch handleError.

Definition Order_aggregate (eventObjectId : ObjectId) (re : string -> bool)
  : M (list OrderItem) :=
  external (OpQuery "Order.aggregate") (reading (pipeline eventObjectId re)).

Definition getOrdersByEvent (p : GetOrdersByEventParams) : M Ret :=
  let searchString := goe_searchString p in
  let eventId := goe_eventId p in
  try (connectToDatabase ;;
       throw_if (negb (truthy eventId)) (new_Error (Some "Event ID is required")) ;;
       eventObjectId <- new_ObjectId eventId ;;
       re <- RegExp_i searchString ;;
       orders <- Order_aggregate eventObjectId re ;;
       ret (ROrderItems (JSON_roundtrip orders)))
  catch handleError.

(** [Order.distinct('event._id').find(conditions).sort(..).skip(..).limit(..)
    .populate(..)]: the later [find] replaces the operation of the query. *)
Definition Order_find (userId : string) (skip limit : Z) : M (list PopulatedOrder) :=
  external (OpQuery "Order.find")
    (fun w =>
       match cursor skip limit
               (sort_desc o_createdAt
                  (filter (fun o => ref_is (buyer o) userId) (orders (db w)))) with
       | inl v => inl v
       | inr l => inr (map (populate_order (db w)) l, db w)
       end).

Definition Order_countDocuments (userId : string) : M Z :=
  external (OpQuery "Order.countDocuments")
    (reading (fun d =>
       Z.of_nat (List.length (filter (fun o => ref_is (buyer o) userId) (orders d))))).

Definition getOrdersByUser (p : GetOrdersByUserParams) : M Ret :=
  let userId := gou_userId p in
  let limit := default_to 3 (gou_limit p) in
  let page := gou_page p in
  try (connectToDatabase ;;
       let skipAmount := (page - 1) * limit in
       orders <- Order_find userId skipAmount limit ;;
       ordersCount <- Order_countDocuments userId ;;
       ret (ROrdersPage (JSON_roundtrip orders)
                        (Math_ceil (js_div ordersCount limit))))
  catch handleError.

(** The earlier version of [getAllEvents] kept in the sources: empty
    conditions and no skipping. *)
Definition getAllEvents_draft (p : GetAllEventsParams) : M Ret :=
  let limit := default_to 6 (ga_limit p) in
  try (connectToDatabase ;;
       let conditions := cond_all in
       events <- Event_find conditions 0 limit ;;
       eventsCount <- Event_countDocuments conditions ;;
       ret (REventsPage (JSON_roundtrip events)
                        (Math_ceil (js_div eventsCount limit))))
  catch handleError.

(** The data-access functions, as calls. *)
Inductive Action : Type :=
| call_createUser (user : CreateUserParams)
| call_getUserById (userId : string)
| call_updateUser (clerk : string) (user : UpdateUserParams)
| call_deleteUser (clerk : string)
| call_createCategory (categoryName : string)
| call_getAllCategories
| call_createEvent (p : CreateEventParams)
| call_getEventById (eventId : string)
| call_getAllEvents (p : GetAllEventsParams)
| call_getAllEvents_draft (p : GetAllEventsParams)
| call_deleteEvent (p : DeleteEventParams)
| call_updateEvent (p : UpdateEventParams)
| call_getRelatedEventsByCategory (p : GetRelatedEventsByCategoryParams)
| call_getEventsByUser (p : GetEventsByUserParams)
| call_createOrder (p : CreateOrderParams)
| call_getOrdersByEvent (p : GetOrdersByEventParams)
| call_getOrdersByUser (p : GetOrdersByUserParams).

Definition run_action (a : Action) : M Ret :=
  match a with
  | call_createUser user => createUser user
  | call_getUserById userId => getUserById userId
  | call_updateUser clerk user => updateUser clerk user
  | call_deleteUser clerk => deleteUser clerk
  | call_createCategory categoryName => createCategory categoryName
  | call_getAllCategories => getAllCategories
  | call_createEvent p => createEvent p
  | call_getEventById eventId => getEventById eventId
  | call_getAllEvents p => getAllEvents p
  | call_getAllEvents_draft p => getAllEvents_draft p
  | call_deleteEvent p => deleteEvent p
  | call_updateEvent p => updateEvent p
  | call_getRelatedEventsByCategory p => getRelatedEventsByCategory p
  | call_getEventsByUser p => getEventsByUser p
  | call_createOrder p => createOrder p
  | call_getOrdersByEvent p => getOrdersByEvent p
  | call_getOrdersByUser p => getOrdersByUser p
  end.

End Actions.

(* ------------------------------------------------------------------------- *)
(** ** The query-string library, on decoded parameters

    A query string is modelled by the sequence of its parameters after
    splitting at [&] and [=] and decoding: [a=1&b] is
    [[("a", Some "1"); ("b", None)]].  Encoding and decoding belong to the
    library and are inverse to each other. *)

Definition Param : Type := (string * option string)%type.

(** A value of a parsed query: [null], a string, or an array of both. *)
Inductive QValue : Type :=
| QNull
| QString (s : string)
| QArray (l : list (option string)).

(** A parsed query, as a JavaScript object: its keys in insertion order. *)
Definition QueryObject : Type := list (string * QValue).

Record Url : Type := {
  pathname : string;
  query : list Param
}.

Definition keys (q : QueryObject) : list string := map fst q.

Fixpoint q_lookup (k : string) (q : QueryObject) : option QValue :=
  match q with
  | [] => None
  | (k', v) :: q' => if (k' =? k)%string then Some v else q_lookup k q'
  end.

(** [q[k] = v]. *)
Fixpoint q_set (k : string) (v : QValue) (q : QueryObject) : QueryObject :=
  match q with
  | [] => [(k, v)]
  | (k', v') :: q' =>
      if (k' =? k)%string then (k, v) :: q' else (k', v') :: q_set k v q'
  end.

(** [delete q[k]]. *)
Definition q_delete (k : string) (q : QueryObject) : QueryObject :=
  filter (fun kv => negb (fst kv =? k)%string) q.

Definition to_qvalue (v : option string) : QValue :=
  match v with
  | Some s => QString s
  | None => QNull
  end.

(** [[].concat(old)]. *)
Definition flat (old : QValue) : list (option string) :=
  match old with
  | QNull => [None]
  | QString s => [Some s]
  | QArray l => l
  end.

(** The default formatter of [parse]: a key seen again collects its values
    in an array. *)
Definition accumulate (acc : QueryObject) (param : Param) : QueryObject :=
  match q_lookup (fst param) acc with
  | None => q_set (fst param) (to_qvalue (snd param)) acc
  | Some old => q_set (fst param) (QArray (flat old ++ [snd param])) acc
  end.

(** The order of [Array.prototype.sort] on strings: by code units. *)
Fixpoint key_leb (a b : string) : bool :=
  match a, b with
  | EmptyString, _ => true
  | String _ _, EmptyString => false
  | String x a', String y b' =>
      if (nat_of_ascii x <? nat_of_ascii y)%nat then true
      else if (nat_of_ascii x =? nat_of_ascii y)%nat then key_leb a' b'
      else false
  end.

Fixpoint insert_key (x : string * QValue) (q : QueryObject) : QueryObject :=
  match q with
  | [] => [x]
  | y :: q' => if key_leb (fst x) (fst y) then x :: q else y :: insert_key x q'
  end.

Definition sort_keys (q : QueryObject) : QueryObject :=
  fold_right insert_key [] q.

(** [qs.parse(params)]; the result has its keys sorted. *)
Definition qs_parse (params : list Param) : QueryObject :=
  sort_keys (fold_left accumulate params []).

Definition is_null (v : QValue) : bool :=
  match v with QNull => true | _ => false end.

(** The parameters one key contributes to [stringify] under [skipNull]. *)
Definition emit1 (kv : string * QValue) : list Param :=
  match snd kv with
  | QNull => [(fst kv, None)]
  | QString s => [(fst kv, Some s)]
  | QArray l =>
      flat_map (fun x => match x with
                         | Some s => [(fst kv, Some s)]
                         | None => []
                         end) l
  end.

Definition emit (q : QueryObject) : list Param := flat_map emit1 q.

(** [qs.stringify(query, { skipNull: true })]. *)
Definition qs_stringify (q : QueryObject) : list Param :=
  emit (sort_keys (filter (fun kv => negb (is_null (snd kv))) q)).

(** [qs.stringifyUrl({ url, query }, { skipNull: true })], for a [url] that
    carries neither a query nor a fragment. *)
Definition qs_stringifyUrl (url : string) (q : QueryObject) : Url :=
  {| pathname := url; query := qs_stringify q |}.

(* ------------------------------------------------------------------------- *)
(** ** lib/utils.ts: [formUrlQuery] and [removeKeysFromQuery]

    [window_location_pathname] stands for [window.location.pathname]. *)

Definition formUrlQuery (window_location_pathname : string)
    (params : list Param) (key : string) (value : option string) : Url :=
  let currentUrl := qs_parse params in
  let currentUrl := q_set key (to_qvalue value) currentUrl in
  qs_stringifyUrl window_location_pathname currentUrl.

Definition removeKeysFromQuery (window_location_pathname : string)
    (params : list Param) (keysToRemove : list string) : Url :=
  let currentUrl := qs_parse params in
  let currentUrl := fold_left (fun q key => q_delete key q) keysToRemove currentUrl in
  qs_stringifyUrl window_location_pathname currentUrl.

(* ------------------------------------------------------------------------- *)
(** ** components/shared/Pagination.tsx *)

(** The [page] property: [number | string]. *)
Inductive PageProp : Type :=
| page_number (n : JsNum)
| page_string (s : string).

Record PaginationProps : Type := {
  page : PageProp;
  totalPages : JsNum;
  urlParamName : option string
}.

(** A rendered button: whether it is disabled, and where a click on it
    navigates ([router.push]). *)
Record Button : Type := {
  label : string;
  disabled : bool;
  click : Url
}.

Section Pagination.
Context {RT : Runtime}.
(** [window.location.pathname] and [useSearchParams().toString()]. *)
Variable window_location_pathname : string.
Variable searchParams : list Param.

Definition Number_ (p : PageProp) : JsNum :=
  match p with
  | page_number n => n
  | page_string s => Number_of_string s
  end.

(** [urlParamName || 'page']. *)
Definition param_name (props : PaginationProps) : string :=
  match urlParamName props with
  | Some s => if truthy s then s else "page"
  | None => "page"
  end.

Definition onClick (props : PaginationProps) (btnType : string) : Url :=
  let pageValue :=
    if (btnType =? "next")%string
    then js_add (Number_ (page props)) 1%float
    else js_sub (Number_ (page props)) 1%float in
  let newUrl := formUrlQuery window_location_pathname searchParams
                  (param_name props) (Some (Number_toString pageValue)) in
  newUrl.

Definition Pagination (props : PaginationProps) : Button * Button :=
  ({| label := "Previous";
      disabled := js_leb (Number_ (page props)) 1%float;
      click := onClick props "prev" |},
   {| label := "Next";
      disabled := js_geb (Number_ (page props)) (totalPages props);
      click := onClick props "next" |}).

End Pagination.

(* ------------------------------------------------------------------------- *)
(** ** Notions the statements use *)

(** [t] is the ceiling of [count / limit], for a positive [limit]. *)
Definition is_ceiling (count limit t : Z) : Prop :=
  limit * (t - 1) < count <= limit * t.

(** No collaborator fails in this world. *)
Definition calm (w : World) : bool :=
  forallb (fun f => negb (is_some f)) (faults w).

Section Notions.
Context {RT : Runtime}.

(** The number of events that satisfy the conditions. *)
Definition matching_events (c : EventCond) (d : Database) : Z :=
  match eval_cond c with
  | Some f => Z.of_nat (List.length (filter f (events d)))
  | None => 0
  end.

Definition matching_orders (userId : string) (d : Database) : Z :=
  Z.of_nat (List.length (filter (fun o => ref_is (buyer o) userId) (orders d))).

(** The category a name resolves to in [getAllEvents]: none for an empty
    name. *)
Definition resolved_category (category : string) (d : Database) : option Category :=
  if truthy category
  then match Category_findOne_regex category d with
       | inr c => c
       | inl _ => None
       end
  else None.


End Notions.

(* ------------------------------------------------------------------------- *)
(** ** A small runtime and a small database for the examples *)

Definition lower (c : ascii) : ascii :=
  let n := nat_of_ascii c in
  if ((65 <=? n) && (n <=? 90))%nat then ascii_of_nat (n + 32) else c.

Fixpoint lowercase (s : string) : string :=
  match s with
  | EmptyString => EmptyString
  | String c s' => String (lower c) (lowercase s')
  end.

Definition is_hex (c : ascii) : bool :=
  let n := nat_of_ascii c in
  ((48 <=? n) && (n <=? 57) || (97 <=? n) && (n <=? 102)
   || (65 <=? n) && (n <=? 70))%nat.

Definition is_meta (c : ascii) : bool :=
  existsb (Ascii.eqb c) (list_ascii_of_string "\^$.|?*+()[]{}").

Fixpoint string_forallb (p : ascii -> bool) (s : string) : bool :=
  match s with
  | EmptyString => true
  | String c s' => p c && string_forallb p s'
  end.

Definition quote (s : string) : string :=
  String (ascii_of_nat 34) (s ++ String (ascii_of_nat 34) EmptyString)%string.

(** [JSON.stringify] on values whose texts need no escaping. *)
Fixpoint sample_stringify (v : JsValue) : option string :=
  match v with
  | JUndefined => None
  | JNull => Some "null"
  | JBool b => Some (if b then "true" else "false")
  | JNumber n => Some (NilZero.string_of_int (Z.to_int n))
  | JString s => Some (quote s)
  | JError _ _ => Some "{}"
  | JObject fields =>
      Some ("{" ++
            String.concat ","
              ((fix members (l : list (string * JsValue)) : list string :=
                  match l with
                  | [] => []
                  | (k, x) :: l' =>
                      match sample_stringify x with
                      | Some s => (quote k ++ ":" ++ s)%string :: members l'
                      | None => members l'
                      end
                  end) fields)
            ++ "}")%string
  end.

(** An engine that knows literal patterns only: a text without
    metacharacters matches the strings that contain it, whatever the case. *)
Definition sample_regex (pattern : string) : option (string -> bool) :=
  if string_forallb (fun c => negb (is_meta c)) pattern
  then Some (fun s => is_some (String.index 0 (lowercase pattern) (lowercase s)))
  else None.

(** [new ObjectId] on the texts of 24 hexadecimal digits: the identifier
    in its canonical form, with lower-case letters. *)
Definition sample_hex (s : string) : option string :=
  if (String.length s =? 24)%nat && string_forallb is_hex s
  then Some (lowercase s)
  else None.

Definition is_digit (c : ascii) : bool :=
  let n := nat_of_ascii c in ((48 <=? n) && (n <=? 57))%nat.

(** The number of an integer that is exactly a floating-point number (those
    below [2^53] are). *)
Definition float_of_Z (z : Z) : JsNum :=
  match z with
  | Z0 => 0%float
  | Zpos m => FloatOps.SF2Prim (SpecFloat.S754_finite false m 0)
  | Zneg m => FloatOps.SF2Prim (SpecFloat.S754_finite true m 0)
  end.

(** [Number(s)] for the examples, on the unsigned decimal literals [digits]
    and [digits.digits] whose digits make an integer up to [2^53]: the
    quotient of two integers that are exactly numbers is rounded once, as
    the value of the literal is.  The empty string is [0].  The other
    strings are not used in the examples and are sent to [NaN] here, as the
    language does with the strings that are not numeric literals; the
    literals with a sign, an exponent or surrounding spaces are among
    them. *)
Definition sample_Number (s : string) : JsNum :=
  if (s =? "")%string then 0%float
  else
    let (whole, frac) :=
      match String.index 0 "." s with
      | Some i => (substring 0 i s, substring (S i) (String.length s - S i) s)
      | None => (s, "")
      end in
    let digits := (whole ++ frac)%string in
    if string_forallb is_digit digits
       && negb (digits =? "")%string
       && (String.length frac <=? 15)%nat
    then match NilZero.uint_of_string digits with
         | Some n =>
             if (Z.of_uint n <=? 2 ^ 53)%Z
             then PrimFloat.div (float_of_Z (Z.of_uint n))
                                (float_of_Z (10 ^ Z.of_nat (String.length frac)))
             else nan
         | None => nan
         end
    else nan.

(** [n.toString()] for the examples: the exact decimal writing of the value
    of [n], which is what the language prints for the integers up to [2^53]
    and for the other numbers between [10^-6] and [10^21] whose exact
    writing has at most fifteen significant digits; the examples use such
    numbers only. *)
Definition sample_toString (n : JsNum) : string :=
  match FloatOps.Prim2SF n with
  | SpecFloat.S754_nan => "NaN"
  | SpecFloat.S754_infinity s => if s then "-Infinity" else "Infinity"
  | SpecFloat.S754_zero _ => "0"
  | SpecFloat.S754_finite s m e =>
      let sign := if s then "-" else "" in
      let k := Z.to_nat (- e) in
      let scaled := if (0 <=? e)%Z then Z.pos m * 2 ^ e
                    else Z.pos m * 5 ^ Z.of_nat k in
      let whole := scaled / 10 ^ Z.of_nat k in
      let frac := scaled mod 10 ^ Z.of_nat k in
      let fix strip (fuel : nat) (f : Z) (width : nat) : Z * nat :=
        match fuel with
        | O => (f, width)
        | S fuel' =>
            if (f mod 10 =? 0)%Z && (0 <? width)%nat
            then strip fuel' (f / 10) (width - 1)%nat
            else (f, width)
        end in
      let (f, width) := strip k frac k in
      let fdigits := NilZero.string_of_uint (N.to_uint (Z.to_N f)) in
      (sign ++ NilZero.string_of_uint (N.to_uint (Z.to_N whole))
       ++ (if (width =? 0)%nat then ""
           else "." ++ String.concat "" (repeat "0" (width - String.length fdigits))
                ++ fdigits))%string
  end.

Definition sample_generate (n : nat) : string :=
  let digits := NilZero.string_of_uint (Nat.to_uint n) in
  (String.concat "" (repeat "0" (24 - String.length digits)) ++ digits)%string.

Definition sample_runtime : Runtime :=
  {| JSON_stringify := sample_stringify;
     regex_i := sample_regex;
     ObjectId_hex := sample_hex;
     ObjectId_generate := sample_generate;
     Number_of_string := sample_Number;
     Number_toString := sample_toString;
     Stripe_session_url := fun product _ => ("https://checkout.example/" ++ product)%string |}.

Definition id_alice : ObjectId := "65a000000000000000000001".
Definition id_bob : ObjectId := "65a000000000000000000002".
Definition id_tech : ObjectId := "65c000000000000000000001".
Definition id_music : ObjectId := "65c000000000000000000002".
Definition id_meetup : ObjectId := "65e000000000000000000001".
Definition id_concert : ObjectId := "65e000000000000000000002".
Definition id_order1 : ObjectId := "65f000000000000000000001".
Definition id_order2 : ObjectId := "65f000000000000000000002".

Definition alice : User :=
  {| u_id := id_alice; clerkId := "clerk_alice"; email := "alice@example.org";
     username := "alice"; firstName := "Alice"; lastName := "Martin"; photo := "";
     u_events := [id_meetup]; u_orders := [id_order2] |}.

Definition bob : User :=
  {| u_id := id_bob; clerkId := "clerk_bob"; email := "bob@example.org";
     username := "bob"; firstName := "Bob"; lastName := "Stone"; photo := "";
     u_events := []; u_orders := [] |}.

Definition tech : Category := {| c_id := id_tech; name := "Tech" |}.
Definition music : Category := {| c_id := id_music; name := "Music" |}.

Definition meetup : Event :=
  {| e_id := id_meetup; title := "Proof Meetup"; price := "10"; isFree := false;
     createdAt := 100; startDateTime := 500; endDateTime := 600;
     category := Some id_tech; organizer := Some id_alice |}.

Definition concert : Event :=
  {| e_id := id_concert; title := "Jazz Night"; price := "25"; isFree := false;
     createdAt := 200; startDateTime := 700; endDateTime := 800;
     category := Some id_music; organizer := Some id_bob |}.

Definition order1 : Order :=
  {| o_id := id_order1; o_createdAt := 300; stripeId := "cs_1"; totalAmount := "10";
     o_event := Some id_meetup; buyer := Some id_bob |}.

Definition order2 : Order :=
  {| o_id := id_order2; o_createdAt := 400; stripeId := "cs_2"; totalAmount := "25";
     o_event := Some id_concert; buyer := Some id_alice |}.

Definition sample_db : Database :=
  {| users := [alice; bob]; events := [meetup; concert];
     categories := [tech; music]; orders := [order1; order2] |}.

Definition sample_world : World :=
  {| db := sample_db; console := []; revalidated := []; faults := [];
     trace := []; now := 1000 |}.

(** The same world, with a store that fails at its first query with the
    text ["timeout"]. *)
Definition failing_world : World :=
  {| db := sample_db; console := []; revalidated := [];
     faults := [None; Some (JString "timeout")];
     trace := []; now := 1000 |}.

(* ------------------------------------------------------------------------- *)
(** ** Invariants of the actions *)

(** The operations of [m] extend the trace and the console, and a failure
    among them is what [m] throws: nothing swallows a failed operation. *)
Definition propagates {A : Type} (m : M A) : Prop :=
  forall w r w', m w = (r, w') ->
    exists ops logs,
      trace w' = trace w ++ ops /\
      console w' = console w ++ logs /\
      forall v, first_failure ops = Some v -> r = Throw v.


Definition sample_search : GetAllEventsParams :=
  {| ga_query := "jazz"; ga_limit := None; ga_page := 1; ga_category := "mus" |}.

Definition sample_second_page : GetAllEventsParams :=
  {| ga_query := ""; ga_limit := Some 1; ga_page := 2; ga_category := "" |}.

Definition sample_by_user : GetEventsByUserParams :=
  {| gu_userId := id_alice; gu_limit := Some 2; gu_page := 1 |}.

Definition sample_related : GetRelatedEventsByCategoryParams :=
  {| gr_categoryId := id_tech; gr_eventId := id_concert;
     gr_limit := None; gr_page := None |}.

Definition sample_orders_of : GetOrdersByUserParams :=
  {| gou_userId := id_bob; gou_limit := None; gou_page := 1 |}.

Definition sample_checkout : CheckoutOrderParams :=
  {| co_eventTitle := "Jazz Night"; co_eventId := id_concert; co_price := "25";
     co_isFree := false; co_buyerId := id_alice |}.

(** A world in which the payment API declines the session. *)
Definition declined_world : World :=
  {| db := sample_db; console := []; revalidated := [];
     faults := [Some (JError "StripeCardError" "declined")];
     trace := []; now := 1000 |}.

Definition sample_edit : EventFields :=
  {| ef_id := id_meetup; ef_title := "Proof Meetup, second edition";
     ef_price := "12"; ef_isFree := false; ef_startDateTime := 900;
     ef_endDateTime := 950; ef_categoryId := id_tech |}.

Definition edit_by_bob : UpdateEventParams :=
  {| ue_userId := id_bob; ue_event := sample_edit; ue_path := "/events" |}.

Definition edit_by_alice : UpdateEventParams :=
  {| ue_userId := id_alice; ue_event := sample_edit; ue_path := "/events" |}.

(** The event [updateEvent] looks up. *)
Definition event_to_update (p : UpdateEventParams) (w : World) : option Event :=
  find (fun e => (e_id e =? ef_id (ue_event p))%string) (events (db w)).

(** What [getOrdersByEvent] is to return for an event and a compiled search
    pattern: an order of that event, joined with its buyer and its event and
    projected to its six fields, whenever the full name of the buyer matches. *)
Definition order_of_event (d : Database) (event : ObjectId) (re : string -> bool)
    (i : OrderItem) : Prop :=
  exists o u e,
    In o (orders d) /\ In u (users d) /\ In e (events d) /\
    buyer o = Some (u_id u) /\
    o_event o = Some (e_id e) /\ e_id e = event /\
    re (firstName u ++ " " ++ lastName u)%string = true /\
    i = {| item_id := o_id o; item_totalAmount := totalAmount o;
           item_createdAt := o_createdAt o; eventTitle := title e;
           eventId := e_id e;
           item_buyer := (firstName u ++ " " ++ lastName u)%string |}.

Definition orders_of_meetup : GetOrdersByEventParams :=
  {| goe_eventId := id_meetup; goe_searchString := "bob" |}.

Definition orders_of_nothing : GetOrdersByEventParams :=
  {| goe_eventId := ""; goe_searchString := "bob" |}.

(** The identifier of the meetup, written with an upper-case letter. *)
Definition orders_of_meetup_upper : GetOrdersByEventParams :=
  {| goe_eventId := "65E000000000000000000001"; goe_searchString := "bob" |}.

(** A text that is not an identifier. *)
Definition orders_of_malformed : GetOrdersByEventParams :=
  {| goe_eventId := "meetup"; goe_searchString := "bob" |}.


Definition sample_first_page : GetAllEventsParams :=
  {| ga_query := ""; ga_limit := Some 1; ga_page := 1; ga_category := "" |}.

(* ------------------------------------------------------------------------- *)
(** ** What a stringified query parses back to *)

(** The strings of an array. *)
Definition somes (l : list (option string)) : list string :=
  flat_map (fun x => match x with Some s => [s] | None => [] end) l.

(** The value [parse] builds for a key that occurs with the values [l]. *)
Definition pack (l : list string) : option QValue :=
  match l with
  | [] => None
  | [s] => Some (QString s)
  | _ => Some (QArray (map Some l))
  end.

Definition reparse1 (kv : string * QValue) : QueryObject :=
  match snd kv with
  | QArray l =>
      match pack (somes l) with
      | Some v => [(fst kv, v)]
      | None => []
      end
  | v => [(fst kv, v)]
  end.

Definition reparse (q : QueryObject) : QueryObject := flat_map reparse1 q.

(** The entries [stringify] writes under [skipNull], in its order. *)
Definition norm (q : QueryObject) : QueryObject :=
  sort_keys (filter (fun kv => negb (is_null (snd kv))) q).

Definition sorted (l : list string) : Prop :=
  StronglySorted (fun a b => key_leb a b = true) l.

Definition sample_props : PaginationProps :=
  {| page := page_string "2"; totalPages := 5%float; urlParamName := None |}.

Definition sample_params : list Param :=
  [("query", Some "jazz"); ("page", Some "2")].

(* ------------------------------------------------------------------------- *)
(** ** Notions for the remaining properties *)

(** The data-access functions that only query the store. *)
Definition reads_only (a : Action) : bool :=
  match a with
  | call_getUserById _ | call_getAllCategories | call_getEventById _
  | call_getAllEvents _ | call_getAllEvents_draft _
  | call_getRelatedEventsByCategory _ | call_getEventsByUser _
  | call_getOrdersByEvent _ | call_getOrdersByUser _ => true
  | _ => false
  end.

(** [m] leaves the database as it found it, whatever its outcome. *)
Definition keeps_db {A : Type} (m : M A) : Prop :=
  forall w r w', m w = (r, w') -> db w' = db w.

(** [m] revalidates no path. *)
Definition revalidates_nothing {A : Type} (m : M A) : Prop :=
  forall w r w', m w = (r, w') -> revalidated w' = revalidated w.

(** A run of [m] that throws has revalidated no path. *)
Definition quiet_on_throw {A : Type} (m : M A) : Prop :=
  forall w v w', m w = (Throw v, w') -> revalidated w' = revalidated w.

(** A list of timestamps, the latest first. *)
Definition descending (l : list Z) : Prop :=
  StronglySorted (fun a b => b <= a) l.

(** What [handleError] throws for an error the function raised itself with
    [new Error(message)]: a new error whose message is the JSON
    serialization of that error object. *)
Definition rewrapped {RT : Runtime} (message : string) : JsValue :=
  new_Error (JSON_stringify (new_Error (Some message))).

(** The identifier the driver gives the document that an action creates
    right after it has connected. *)
Definition created_id {RT : Runtime} (w : World) : ObjectId :=
  ObjectId_generate (S (List.length (trace w))).

Definition sample_new_user : CreateUserParams :=
  {| cu_clerkId := "clerk_carol"; cu_email := "carol@example.org";
     cu_username := "carol"; cu_firstName := "Carol"; cu_lastName := "Reed";
     cu_photo := "" |}.

Definition sample_rename : UpdateUserParams :=
  {| uu_firstName := "Robert"; uu_lastName := "Stone"; uu_username := "rob";
     uu_photo := "" |}.

Definition sample_new_event : CreateEventParams :=
  {| ce_userId := id_bob;
     ce_event := {| ef_id := ""; ef_title := "Blues Evening"; ef_price := "15";
                    ef_isFree := false; ef_startDateTime := 1100;
                    ef_endDateTime := 1200; ef_categoryId := id_music |};
     ce_path := "/profile" |}.

Definition sample_delete_meetup : DeleteEventParams :=
  {| de_eventId := id_meetup; de_path := "/" |}.

(** The page [page] (from 1) of a list, [limit] documents to the page. *)
Definition page_of {A : Type} (limit page : Z) (l : list A) : list A :=
  apply_limit limit (skipn (Z.to_nat ((page - 1) * limit)) l).

(** The events of an organizer, the latest first, as the page query of
    [getEventsByUser] orders them. *)
Definition events_by_user (userId : string) (d : Database) : list Event :=
  sort_desc createdAt (filter (fun e => ref_is (organizer e) userId) (events d)).

Definition sample_by_user_page (page : Z) : GetEventsByUserParams :=
  {| gu_userId := id_alice; gu_limit := Some 1; gu_page := page |}.

Definition sample_in_sports : GetAllEventsParams :=
  {| ga_query := ""; ga_limit := None; ga_page := 1; ga_category := "sports" |}.

(** The parameters of [getAllEvents] without the category name. *)
Definition without_category (p : GetAllEventsParams) : GetAllEventsParams :=
  {| ga_query := ga_query p; ga_limit := ga_limit p; ga_page := ga_page p;
     ga_category := "" |}.

Definition sample_new_order : CreateOrderParams :=
  {| cr_stripeId := "cs_3"; cr_eventId := id_concert; cr_buyerId := id_bob;
     cr_totalAmount := "25"; cr_createdAt := 500 |}.

(** The outcome of [getAllEvents] on a database when no category condition
    applies and the store answers. *)
Definition unfiltered_outcome {RT : Runtime} (p : GetAllEventsParams) (d : Database)
  : Outcome Ret :=
  let c := getAllEvents_conditions (ga_query p) None in
  let limit := default_to 6 (ga_limit p) in
  match
    match find_events c ((ga_page p - 1) * limit) limit d, count_events c d with
    | inl v, _ => Throw v
    | inr _, inl v => Throw v
    | inr evs, inr n =>
        Return (REventsPage (map (populateEvent d) evs) (Math_ceil (js_div n limit)))
    end
  with
  | Return a => Return a
  | Throw v => Throw (new_Error (handleError_message v))
  end.

(** The query [stringify] writes for what [parse] read, nothing set and
    nothing removed. *)
Definition rewritten (params : list Param) : list Param :=
  qs_stringify (qs_parse params).

(** A parameter with a value, as opposed to a bare key. *)
Definition has_value (pr : Param) : bool := is_some (snd pr).

(** The identifier the driver gives the event that [createEvent] stores,
    after the connection and the lookup of the organizer. *)
Definition created_event_id {RT : Runtime} (w : World) : ObjectId :=
  ObjectId_generate (S (S (List.length (trace w)))).



(* ------------------------------------------------------------------------- *)
(** ** Pagination arithmetic *)

Lemma Math_ceil_div (count limit : Z) :
  0 < limit -> Math_ceil (js_div count limit) = - ((- count) / limit).
Proof.
  intros Hl. destruct limit as [|p|p]; try lia.
  unfold Math_ceil, js_div, Qceiling, Qfloor, Qdiv, Qinv, Qmult, Qopp, inject_Z.
  simpl. rewrite Z.mul_1_r. reflexivity.
Qed.

Lemma Math_ceil_is_ceiling (count limit : Z) :
  0 < limit -> is_ceiling count limit (Math_ceil (js_div count limit)).
Proof.
  intros Hl. rewrite Math_ceil_div by assumption. unfold is_ceiling.
  pose proof (Z.div_mod (- count) limit ltac:(lia)) as Hdm.
  pose proof (Z.mod_pos_bound (- count) limit Hl) as Hb.
  nia.
Qed.

Lemma is_ceiling_unique (count limit t t' : Z) :
  0 < limit -> is_ceiling count limit t -> is_ceiling count limit t' -> t = t'.
Proof. unfold is_ceiling. intros. nia. Qed.

(* ------------------------------------------------------------------------- *)
(** ** Running an action to a returned value *)

Lemma bind_Return {A B : Type} (m : M A) (k : A -> M B) w b w' :
  bind m k w = (Return b, w') ->
  exists a w1, m w = (Return a, w1) /\ k a w1 = (Return b, w').
Proof.
  unfold bind. destruct (m w) as [[a|v] w1]; intros E.
  - exists a, w1. auto.
  - discriminate.
Qed.

Lemma external_Return {A : Type} (o : Op) run w (a : A) w' :
  external o run w = (Return a, w') ->
  exists d, run w = inr (a, d) /\ w' = performed w o Ok d.
Proof.
  unfold external. intros E.
  destruct (faults w) as [|[v|] fs]; destruct (run w) as [v'|[a' d]];
    inversion E; subst; eauto.
Qed.

Lemma ret_Return {A : Type} (a b : A) w w' :
  ret a w = (Return b, w') -> a = b /\ w = w'.
Proof. unfold ret. intros E. inversion E. auto. Qed.

Section Returned.
Context {RT : Runtime}.

Lemma try_handleError_Return {A : Type} (m : M A) w r w' :
  (try m catch handleError) w = (Return r, w') -> m w = (Return r, w').
Proof.
  unfold try_catch. destruct (m w) as [[a|v] w1]; intros E.
  - assumption.
  - discriminate.
Qed.

Lemma connect_Return w u w' :
  connectToDatabase w = (Return u, w') -> db w' = db w.
Proof.
  intros E. apply external_Return in E. destruct E as (d & Hr & ->).
  unfold reading in Hr. inversion Hr. reflexivity.
Qed.

Lemma Event_find_Return c s l w evs w' :
  Event_find c s l w = (Return evs, w') -> db w' = db w.
Proof.
  intros E. apply external_Return in E. destruct E as (d & Hr & ->).
  destruct (find_events c s l (db w)); inversion Hr. reflexivity.
Qed.

Lemma Event_countDocuments_Return c w n w' :
  Event_countDocuments c w = (Return n, w') ->
  n = matching_events c (db w) /\ db w' = db w.
Proof.
  intros E. apply external_Return in E. destruct E as (d & Hr & ->).
  unfold lift_read, count_events, matching_events in *.
  destruct (eval_cond c); inversion Hr. auto.
Qed.

Lemma getCategoryByName_Return n w c w' :
  getCategoryByName n w = (Return c, w') ->
  Category_findOne_regex n (db w) = inr c /\ db w' = db w.
Proof.
  intros E. apply external_Return in E. destruct E as (d & Hr & ->).
  unfold lift_read in Hr.
  destruct (Category_findOne_regex n (db w)); inversion Hr. auto.
Qed.

Lemma Order_find_Return u s l w os w' :
  Order_find u s l w = (Return os, w') -> db w' = db w.
Proof.
  intros E. apply external_Return in E. destruct E as (d & Hr & ->).
  destruct (cursor s l _); inversion Hr. reflexivity.
Qed.

Lemma Order_countDocuments_Return u w n w' :
  Order_countDocuments u w = (Return n, w') ->
  n = matching_orders u (db w) /\ db w' = db w.
Proof.
  intros E. apply external_Return in E. destruct E as (d & Hr & ->).
  unfold reading in Hr. inversion Hr. auto.
Qed.

(** The events query and the count that follows it, as every paginated
    event function runs them. *)
Lemma events_page_Return c s l w r w' :
  (events <- Event_find c s l ;;
   eventsCount <- Event_countDocuments c ;;
   ret (REventsPage (JSON_roundtrip events) (Math_ceil (js_div eventsCount l)))) w
  = (Return r, w') ->
  exists data,
    r = REventsPage data (Math_ceil (js_div (matching_events c (db w)) l)).
Proof.
  intros E.
  apply bind_Return in E. destruct E as (evs & w1 & E1 & E).
  apply bind_Return in E. destruct E as (n & w2 & E2 & E).
  apply ret_Return in E. destruct E as [<- _].
  apply Event_find_Return in E1.
  apply Event_countDocuments_Return in E2. destruct E2 as [-> _].
  rewrite E1. eauto.
Qed.

Lemma getAllEvents_Return p w r w' :
  getAllEvents p w = (Return r, w') ->
  exists data,
    r = REventsPage data
          (Math_ceil
             (js_div
                (matching_events
                   (getAllEvents_conditions (ga_query p)
                      (resolved_category (ga_category p) (db w)))
                   (db w))
                (default_to 6 (ga_limit p)))).
Proof.
  unfold getAllEvents. intros E.
  apply try_handleError_Return in E.
  apply bind_Return in E. destruct E as (u & w1 & E1 & E).
  apply connect_Return in E1.
  apply bind_Return in E. destruct E as (c & w2 & E2 & E).
  apply events_page_Return in E. destruct E as (data & ->).
  exists data. unfold resolved_category.
  destruct (truthy (ga_category p)).
  - apply getCategoryByName_Return in E2. destruct E2 as [Hc Hd].
    rewrite Hd, E1 in *. rewrite Hc. reflexivity.
  - apply ret_Return in E2. destruct E2 as [<- <-]. rewrite E1. reflexivity.
Qed.

Lemma getRelatedEventsByCategory_Return p w r w' :
  getRelatedEventsByCategory p w = (Return r, w') ->
  exists data,
    r = REventsPage data
          (Math_ceil
             (js_div
                (matching_events
                   (cond_and (cond_category (gr_categoryId p))
                             (cond_id_ne (gr_eventId p)))
                   (db w))
                (default_to 3 (gr_limit p)))).
Proof.
  unfold getRelatedEventsByCategory. intros E.
  apply try_handleError_Return in E.
  apply bind_Return in E. destruct E as (u & w1 & E1 & E).
  apply connect_Return in E1.
  apply events_page_Return in E. destruct E as (data & ->).
  rewrite E1. eauto.
Qed.

Lemma getEventsByUser_Return p w r w' :
  getEventsByUser p w = (Return r, w') ->
  exists data,
    r = REventsPage data
          (Math_ceil
             (js_div (matching_events (cond_organizer (gu_userId p)) (db w))
                     (default_to 6 (gu_limit p)))).
Proof.
  unfold getEventsByUser. intros E.
  apply try_handleError_Return in E.
  apply bind_Return in E. destruct E as (u & w1 & E1 & E).
  apply connect_Return in E1.
  apply events_page_Return in E. destruct E as (data & ->).
  rewrite E1. eauto.
Qed.

Lemma getOrdersByUser_Return p w r w' :
  getOrdersByUser p w = (Return r, w') ->
  exists data,
    r = ROrdersPage data
          (Math_ceil
             (js_div (matching_orders (gou_userId p) (db w))
                     (default_to 3 (gou_limit p)))).
Proof.
  unfold getOrdersByUser. intros E.
  apply try_handleError_Return in E.
  apply bind_Return in E. destruct E as (u & w1 & E1 & E).
  apply connect_Return in E1.
  apply bind_Return in E. destruct E as (os & w2 & E2 & E).
  apply bind_Return in E. destruct E as (n & w3 & E3 & E).
  apply ret_Return in E. destruct E as [<- _].
  apply Order_find_Return in E2.
  apply Order_countDocuments_Return in E3. destruct E3 as [-> _].
  rewrite E2, E1. eauto.
Qed.

(** C1. Whenever one of the paginated query functions [getAllEvents],
    [getEventsByUser], [getRelatedEventsByCategory] and [getOrdersByUser]
    returns and its limit is positive, the [totalPages] field of the
    returned object is the ceiling of the number of documents that match
    the conditions of the query, divided by the limit: the integer [t] with
    [limit * (t - 1) < count <= limit * t]. *)
Theorem totalPages_is_ceiling :
  (forall p w r w',
      getAllEvents p w = (Return r, w') ->
      0 < default_to 6 (ga_limit p) ->
      exists t, totalPages_of r = Some t /\
        is_ceiling
          (matching_events
             (getAllEvents_conditions (ga_query p)
                (resolved_category (ga_category p) (db w))) (db w))
          (default_to 6 (ga_limit p)) t) /\
  (forall p w r w',
      getEventsByUser p w = (Return r, w') ->
      0 < default_to 6 (gu_limit p) ->
      exists t, totalPages_of r = Some t /\
        is_ceiling (matching_events (cond_organizer (gu_userId p)) (db w))
                   (default_to 6 (gu_limit p)) t) /\
  (forall p w r w',
      getRelatedEventsByCategory p w = (Return r, w') ->
      0 < default_to 3 (gr_limit p) ->
      exists t, totalPages_of r = Some t /\
        is_ceiling
          (matching_events
             (cond_and (cond_category (gr_categoryId p))
                       (cond_id_ne (gr_eventId p))) (db w))
          (default_to 3 (gr_limit p)) t) /\
  (forall p w r w',
      getOrdersByUser p w = (Return r, w') ->
      0 < default_to 3 (gou_limit p) ->
      exists t, totalPages_of r = Some t /\
        is_ceiling (matching_orders (gou_userId p) (db w))
                   (default_to 3 (gou_limit p)) t).
Proof.
  repeat split; intros p w r w' E Hl.
  - apply getAllEvents_Return in E. destruct E as (data & ->).
    eexists. split; [reflexivity|]. now apply Math_ceil_is_ceiling.
  - apply getEventsByUser_Return in E. destruct E as (data & ->).
    eexists. split; [reflexivity|]. now apply Math_ceil_is_ceiling.
  - apply getRelatedEventsByCategory_Return in E. destruct E as (data & ->).
    eexists. split; [reflexivity|]. now apply Math_ceil_is_ceiling.
  - apply getOrdersByUser_Return in E. destruct E as (data & ->).
    eexists. split; [reflexivity|]. now apply Math_ceil_is_ceiling.
Qed.

End Returned.

(* ------------------------------------------------------------------------- *)
(** ** Runs in a calm world *)

Lemma calm_performed w o s d :
  calm w = true -> calm (performed w o s d) = true.
Proof.
  unfold calm, performed. simpl. destruct (faults w) as [|f fs]; simpl; auto.
  intros H. apply andb_true_iff in H. tauto.
Qed.

Lemma external_calm {A : Type} o (run : World -> JsValue + (A * Database)) w a d :
  calm w = true -> run w = inr (a, d) ->
  external o run w = (Return a, performed w o Ok d).
Proof.
  unfold external, calm. intros Hc Hr.
  destruct (faults w) as [|[x|] fs]; simpl in Hc; try discriminate;
    rewrite Hr; reflexivity.
Qed.

Lemma bind_step {A B : Type} (m : M A) (k : A -> M B) w a w1 :
  m w = (Return a, w1) -> bind m k w = k a w1.
Proof. unfold bind. intros ->. reflexivity. Qed.

Lemma connect_calm w :
  calm w = true ->
  connectToDatabase w = (Return tt, performed w OpConnect Ok (db w)).
Proof. intros Hc. apply external_calm; auto. Qed.


(* ------------------------------------------------------------------------- *)
(** ** The paginated functions return *)

Section Progress.
Context {RT : Runtime}.

Lemma events_page_calm c f s l w :
  calm w = true -> eval_cond c = Some f -> 0 <= s ->
  exists r w',
    (events <- Event_find c s l ;;
     eventsCount <- Event_countDocuments c ;;
     ret (REventsPage (JSON_roundtrip events) (Math_ceil (js_div eventsCount l)))) w
    = (Return r, w').
Proof.
  intros Hc Hf Hs. unfold Event_find, Event_countDocuments.
  erewrite bind_step.
  2:{ apply external_calm; [exact Hc|].
      unfold find_events, cursor. rewrite Hf.
      destruct (s <? 0) eqn:E; [apply Z.ltb_lt in E; lia | reflexivity]. }
  erewrite bind_step.
  2:{ apply external_calm; [apply calm_performed; exact Hc|].
      unfold lift_read, count_events. rewrite Hf. reflexivity. }
  unfold ret. eauto.
Qed.

(** In a calm world, on a page from the first on and with a limit that is
    not negative, [getEventsByUser], [getRelatedEventsByCategory] and
    [getOrdersByUser] return; so does [getAllEvents] when the search text
    and the category name compile as patterns. *)
Lemma getEventsByUser_returns p w :
  calm w = true -> 0 <= (gu_page p - 1) * default_to 6 (gu_limit p) ->
  exists r w', getEventsByUser p w = (Return r, w').
Proof.
  intros Hc Hs. unfold getEventsByUser, try_catch.
  rewrite (bind_step _ _ _ _ _ (connect_calm w Hc)).
  edestruct (events_page_calm (cond_organizer (gu_userId p))) as (r & w' & E);
    [apply calm_performed; exact Hc | reflexivity | exact Hs |].
  rewrite E. eauto.
Qed.

Lemma getRelatedEventsByCategory_returns p w :
  calm w = true ->
  0 <= (default_to 1 (gr_page p) - 1) * default_to 3 (gr_limit p) ->
  exists r w', getRelatedEventsByCategory p w = (Return r, w').
Proof.
  intros Hc Hs. unfold getRelatedEventsByCategory, try_catch.
  rewrite (bind_step _ _ _ _ _ (connect_calm w Hc)).
  edestruct (events_page_calm
               (cond_and (cond_category (gr_categoryId p))
                         (cond_id_ne (gr_eventId p)))) as (r & w' & E);
    [apply calm_performed; exact Hc | reflexivity | exact Hs |].
  rewrite E. eauto.
Qed.

Lemma getOrdersByUser_returns p w :
  calm w = true -> 0 <= (gou_page p - 1) * default_to 3 (gou_limit p) ->
  exists r w', getOrdersByUser p w = (Return r, w').
Proof.
  intros Hc Hs. unfold getOrdersByUser, try_catch.
  rewrite (bind_step _ _ _ _ _ (connect_calm w Hc)).
  unfold Order_find, Order_countDocuments.
  erewrite bind_step.
  2:{ apply external_calm; [apply calm_performed; exact Hc|].
      unfold cursor.
      destruct (_ <? 0) eqn:E; [apply Z.ltb_lt in E; lia | reflexivity]. }
  erewrite bind_step
    by (apply external_calm; [do 2 apply calm_performed; exact Hc | reflexivity]).
  unfold ret. eauto.
Qed.


End Progress.

(** C1, on the sample database: each of the four functions returns, with a
    positive limit. *)
Lemma totalPages_is_ceiling_witness :
  (exists r w',
      @getAllEvents sample_runtime sample_search sample_world = (Return r, w') /\
      exists t, totalPages_of r = Some t /\
        is_ceiling
          (@matching_events sample_runtime
             (getAllEvents_conditions (ga_query sample_search)
                (@resolved_category sample_runtime (ga_category sample_search)
                   (db sample_world))) (db sample_world))
          (default_to 6 (ga_limit sample_search)) t) /\
  (exists r w',
      @getEventsByUser sample_runtime sample_by_user sample_world = (Return r, w') /\
      exists t, totalPages_of r = Some t /\
        is_ceiling
          (@matching_events sample_runtime
             (cond_organizer (gu_userId sample_by_user)) (db sample_world))
          (default_to 6 (gu_limit sample_by_user)) t) /\
  (exists r w',
      @getRelatedEventsByCategory sample_runtime sample_related sample_world
      = (Return r, w') /\
      exists t, totalPages_of r = Some t /\
        is_ceiling
          (@matching_events sample_runtime
             (cond_and (cond_category (gr_categoryId sample_related))
                       (cond_id_ne (gr_eventId sample_related)))
             (db sample_world))
          (default_to 3 (gr_limit sample_related)) t) /\
  (exists r w',
      @getOrdersByUser sample_runtime sample_orders_of sample_world
      = (Return r, w') /\
      exists t, totalPages_of r = Some t /\
        is_ceiling (matching_orders (gou_userId sample_orders_of) (db sample_world))
                   (default_to 3 (gou_limit sample_orders_of)) t).
Proof.
  destruct (@totalPages_is_ceiling sample_runtime) as (H1 & H2 & H3 & H4).
  repeat split.
  - eexists. eexists. split; [vm_compute; reflexivity|].
    eapply H1; [vm_compute; reflexivity | simpl; lia].
  - eexists. eexists. split; [vm_compute; reflexivity|].
    eapply H2; [vm_compute; reflexivity | simpl; lia].
  - eexists. eexists. split; [vm_compute; reflexivity|].
    eapply H3; [vm_compute; reflexivity | simpl; lia].
  - eexists. eexists. split; [vm_compute; reflexivity|].
    eapply H4; [vm_compute; reflexivity | simpl; lia].
Defined.

(* ------------------------------------------------------------------------- *)
(** ** Failures are propagated *)

Lemma first_failure_app (a b : list (Op * Status)) :
  first_failure (a ++ b) =
  match first_failure a with
  | Some v => Some v
  | None => first_failure b
  end.
Proof.
  induction a as [|[o [|v]] a IH]; simpl; auto.
Qed.

Lemma new_ops_app (w w' : World) ops :
  trace w' = trace w ++ ops -> new_ops w w' = ops.
Proof.
  intros E. unfold new_ops. rewrite E, skipn_app, skipn_all, Nat.sub_diag.
  reflexivity.
Qed.

Lemma propagates_ret {A : Type} (a : A) : propagates (ret a).
Proof.
  intros w r w' E. inversion E; subst. exists [], [].
  rewrite !app_nil_r. repeat split; auto. discriminate.
Qed.

Lemma propagates_throw {A : Type} (v : JsValue) : propagates (@throw A v).
Proof.
  intros w r w' E. inversion E; subst. exists [], [].
  rewrite !app_nil_r. repeat split; auto. discriminate.
Qed.

Lemma propagates_console_write e : propagates (console_write e).
Proof.
  intros w r w' E. inversion E; subst. exists [], [e]. simpl.
  rewrite app_nil_r. repeat split; auto. discriminate.
Qed.

Lemma propagates_revalidatePath p : propagates (revalidatePath p).
Proof.
  intros w r w' E. inversion E; subst. exists [], []. simpl.
  rewrite !app_nil_r. repeat split; auto. discriminate.
Qed.

Lemma propagates_external {A : Type} o (run : World -> JsValue + (A * Database)) :
  propagates (external o run).
Proof.
  intros w r w' E. unfold external in E.
  destruct (faults w) as [|[v|] fs]; [| |];
    try destruct (run w) as [v'|[a d]]; inversion E; subst;
    eexists [_]; exists []; simpl; rewrite app_nil_r;
    repeat split; auto; intros x Hx; try discriminate; inversion Hx; auto.
Qed.

Lemma propagates_bind {A B : Type} (m : M A) (k : A -> M B) :
  propagates m -> (forall a, propagates (k a)) -> propagates (bind m k).
Proof.
  intros Hm Hk w r w' E. unfold bind in E.
  destruct (m w) as [[a|v] w1] eqn:E1.
  - destruct (Hm _ _ _ E1) as (ops1 & logs1 & T1 & C1 & F1).
    destruct (Hk a _ _ _ E) as (ops2 & logs2 & T2 & C2 & F2).
    exists (ops1 ++ ops2), (logs1 ++ logs2).
    rewrite T2, T1, C2, C1, !app_assoc. repeat split; auto.
    intros x Hx. rewrite first_failure_app in Hx.
    destruct (first_failure ops1) as [y|] eqn:Ey.
    + specialize (F1 _ eq_refl). discriminate.
    + auto.
  - inversion E; subst.
    destruct (Hm _ _ _ E1) as (ops1 & logs1 & T1 & C1 & F1).
    exists ops1, logs1. repeat split; auto.
    intros x Hx. specialize (F1 _ Hx). inversion F1. reflexivity.
Qed.

Lemma propagates_Promise_all2 {A B : Type} o1 o2
    (run1 : World -> JsValue + (A * Database))
    (run2 : World -> JsValue + (B * Database)) :
  propagates (Promise_all2 (external o1 run1) (external o2 run2)).
Proof.
  intros w r w' E. unfold Promise_all2 in E.
  destruct (external o1 run1 w) as [r1 w1] eqn:E1.
  destruct (external o2 run2 w1) as [r2 w2] eqn:E2.
  destruct (propagates_external _ _ _ _ _ E1) as (ops1 & logs1 & T1 & C1 & F1).
  destruct (propagates_external _ _ _ _ _ E2) as (ops2 & logs2 & T2 & C2 & F2).
  assert (Hr1 : forall v, r1 = Throw v -> first_failure ops1 = Some v).
  { intros v ->. unfold external in E1.
    destruct (faults w) as [|[x|] fs]; [| |];
      try destruct (run1 w) as [v'|[a d]]; inversion E1; subst;
      simpl in T1; apply app_inv_head in T1; subst; reflexivity. }
  exists (ops1 ++ ops2), (logs1 ++ logs2).
  assert (Hw : w' = w2) by (destruct r1, r2; inversion E; reflexivity).
  subst w'. rewrite T2, T1, C2, C1, !app_assoc. repeat split; auto.
  intros x Hx. rewrite first_failure_app in Hx.
  destruct r1 as [a|v1].
  - destruct (first_failure ops1) as [y|] eqn:Ey.
    + specialize (F1 _ eq_refl). discriminate.
    + specialize (F2 _ Hx). subst r2. inversion E. reflexivity.
  - rewrite (Hr1 _ eq_refl) in Hx. inversion Hx; subst.
    inversion E. reflexivity.
Qed.

Create HintDb ops.

#[local] Hint Unfold connectToDatabase User_findById User_findOne User_create
  User_findOneAndUpdate User_findByIdAndDelete Category_create Category_find
  Event_findById Event_create Event_findByIdAndUpdate Event_findByIdAndDelete
  Event_updateMany_pull_organizer Order_updateMany_unset_buyer Order_create
  getCategoryByName Event_find Event_countDocuments Order_aggregate Order_find
  Order_countDocuments throw_if new_ObjectId RegExp_i toHexString : ops.

Ltac propagate :=
  autounfold with ops;
  repeat first
    [ apply propagates_ret
    | apply propagates_throw
    | apply propagates_external
    | apply propagates_console_write
    | apply propagates_revalidatePath
    | apply propagates_Promise_all2
    | apply propagates_bind; [|intros ?]
    | match goal with
      | |- propagates (match ?x with _ => _ end) => destruct x
      end ].

Section Propagation.
Context {RT : Runtime}.

(** What the handler of every data-access function makes of a failure. *)
Lemma handled {A : Type} (m : M A) :
  propagates m ->
  forall w r w' v,
    (try m catch handleError) w = (r, w') ->
    first_failure (new_ops w w') = Some v ->
    r = Throw (new_Error (handleError_message v)) /\
    exists logs, console w' = console w ++ logs ++ [console_error v].
Proof.
  intros Hm w r w' v E Hf. unfold try_catch in E.
  destruct (m w) as [[a|x] w1] eqn:E1;
    destruct (Hm _ _ _ E1) as (ops & logs & T & C & F).
  - inversion E; subst. rewrite (new_ops_app _ _ _ T) in Hf.
    specialize (F _ Hf). discriminate.
  - unfold handleError, bind, console_write, throw in E. inversion E; subst.
    simpl in Hf. unfold new_ops in Hf. simpl in Hf.
    fold (new_ops w w1) in Hf. rewrite (new_ops_app _ _ _ T) in Hf.
    specialize (F _ Hf). inversion F; subst. split; [reflexivity|].
    exists logs. simpl. rewrite C, app_assoc. reflexivity.
Qed.

Lemma run_action_handled (a : Action) :
  exists m, run_action a = (try m catch handleError) /\ propagates m.
Proof.
  destruct a; simpl;
    (eexists; split; [reflexivity|]); propagate.
Qed.

Lemma checkoutOrder_rethrows order w r w' v :
  checkoutOrder order w = (r, w') ->
  first_failure (new_ops w w') = Some v ->
  r = Throw v /\ console w' = console w.
Proof.
  unfold checkoutOrder, try_catch, bind, redirect, throw, external, reading.
  intros E Hf.
  destruct (faults w) as [|[x|] fs]; inversion E; subst;
    unfold new_ops in Hf; simpl in Hf;
    rewrite skipn_app, skipn_all, Nat.sub_diag in Hf; simpl in Hf;
    try discriminate.
  inversion Hf; subst. auto.
Qed.

(** C2. When an operation of the store throws [v] during a data-access
    function, the function writes [v] to the console with [console.error]
    and throws a new [Error]; its message is [v] itself when [v] is a string
    and the JSON serialization of [v] otherwise.  When the payment call of
    [checkoutOrder] throws [v], [checkoutOrder] throws [v] itself and writes
    nothing to the console. *)
Theorem errors_logged_and_rethrown :
  (forall (a : Action) w r w' v,
      run_action a w = (r, w') ->
      first_failure (new_ops w w') = Some v ->
      r = Throw (new_Error (handleError_message v)) /\
      (exists logs, console w' = console w ++ logs ++ [console_error v]) /\
      (forall s, v = JString s -> r = Throw (JError "Error" s)) /\
      (forall j, (forall s, v <> JString s) -> JSON_stringify v = Some j ->
                 r = Throw (JError "Error" j))) /\
  (forall order w r w' v,
      checkoutOrder order w = (r, w') ->
      first_failure (new_ops w w') = Some v ->
      r = Throw v /\ console w' = console w).
Proof.
  split.
  - intros a w r w' v E Hf.
    destruct (run_action_handled a) as (m & Em & Hm). rewrite Em in E.
    destruct (handled m Hm _ _ _ _ E Hf) as [Hr Hc].
    repeat split; auto.
    + intros s ->. rewrite Hr. reflexivity.
    + intros j Hs Hj. rewrite Hr. unfold new_Error, handleError_message.
      destruct v; try (rewrite Hj; reflexivity).
      exfalso. eapply Hs. reflexivity.
  - apply checkoutOrder_rethrows.
Qed.

End Propagation.

(** C2, on the sample database: the category lookup of [getAllEvents] times
    out, and the payment API declines a checkout. *)
Lemma errors_logged_and_rethrown_witness :
  (exists r w',
      @run_action sample_runtime (call_getAllEvents sample_search) failing_world
      = (r, w') /\
      first_failure (new_ops failing_world w') = Some (JString "timeout") /\
      r = Throw (JError "Error" "timeout") /\
      exists logs,
        console w' = console failing_world ++ logs
                     ++ [console_error (JString "timeout")]) /\
  (exists r w',
      @checkoutOrder sample_runtime sample_checkout declined_world = (r, w') /\
      first_failure (new_ops declined_world w')
      = Some (JError "StripeCardError" "declined") /\
      r = Throw (JError "StripeCardError" "declined") /\
      console w' = console declined_world).
Proof.
  destruct (@errors_logged_and_rethrown sample_runtime) as [H1 H2].
  split.
  - pose (run := @run_action sample_runtime (call_getAllEvents sample_search)
                   failing_world).
    assert (E : run = (fst run, snd run)) by apply surjective_pairing.
    assert (Hf : first_failure (new_ops failing_world (snd run))
                 = Some (JString "timeout")) by (vm_compute; reflexivity).
    destruct (H1 _ _ _ _ _ E Hf) as (Hr & Hc & Hs & _).
    exists (fst run), (snd run).
    split; [exact E|]. split; [exact Hf|].
    split; [apply Hs; reflexivity | exact Hc].
  - pose (run := @checkoutOrder sample_runtime sample_checkout declined_world).
    assert (E : run = (fst run, snd run)) by apply surjective_pairing.
    assert (Hf : first_failure (new_ops declined_world (snd run))
                 = Some (JError "StripeCardError" "declined"))
      by (vm_compute; reflexivity).
    destruct (H2 _ _ _ _ _ E Hf) as (Hr & Hc).
    exists (fst run), (snd run).
    split; [exact E|]. split; [exact Hf|]. split; [exact Hr | exact Hc].
Defined.

(* ------------------------------------------------------------------------- *)
(** ** Running an action to any outcome *)

Lemma bind_inv {A B : Type} (m : M A) (k : A -> M B) w r w' :
  bind m k w = (r, w') ->
  (exists v, m w = (Throw v, w') /\ r = Throw v) \/
  (exists a w1, m w = (Return a, w1) /\ k a w1 = (r, w')).
Proof.
  unfold bind. destruct (m w) as [[a|v] w1]; intros E.
  - right. eauto.
  - left. inversion E; subst. eauto.
Qed.

Lemma external_reading_inv {A : Type} o (f : Database -> A) w r w' :
  external o (reading f) w = (r, w') ->
  db w' = db w /\ forall a, r = Return a -> a = f (db w).
Proof.
  unfold external, reading. intros E.
  destruct (faults w) as [|[x|] fs]; inversion E; subst; simpl;
    split; auto; intros a Ha; inversion Ha; auto.
Qed.

Lemma external_outcome {A : Type} o (run : World -> JsValue + (A * Database))
    w r w' :
  external o run w = (r, w') ->
  (exists x, r = Throw x /\ w' = performed w o (Failed x) (db w)) \/
  (exists a d, run w = inr (a, d) /\ r = Return a /\ w' = performed w o Ok d).
Proof.
  unfold external. intros E.
  destruct (faults w) as [|[x|] fs]; [| |];
    try destruct (run w) as [v|[a d]]; inversion E; subst; eauto 6.
Qed.

Lemma connect_inv w r w' :
  connectToDatabase w = (r, w') -> db w' = db w.
Proof. intros E. apply external_reading_inv in E. tauto. Qed.

Section Outcomes.
Context {RT : Runtime}.

Lemma try_handleError_inv {A : Type} (m : M A) w r w' :
  (try m catch handleError) w = (r, w') ->
  (exists a, m w = (Return a, w') /\ r = Return a) \/
  (exists v w1, m w = (Throw v, w1) /\ db w' = db w1 /\
                r = Throw (new_Error (handleError_message v))).
Proof.
  unfold try_catch. destruct (m w) as [[a|v] w1]; intros E.
  - left. inversion E; subst. eauto.
  - right. unfold handleError, bind, console_write, throw in E.
    inversion E; subst. exists v, w1. auto.
Qed.

(** A body that always throws and leaves the database alone makes an action
    that does the same. *)
Lemma throwing_body {A : Type} (m : M A) w :
  (forall r w', m w = (r, w') -> (exists v, r = Throw v) /\ db w' = db w) ->
  exists v w', (try m catch handleError) w = (Throw v, w') /\ db w' = db w.
Proof.
  intros Hm. destruct ((try m catch handleError) w) as [r w'] eqn:E.
  apply try_handleError_inv in E.
  destruct E as [(a & Em & ->) | (v & w1 & Em & Hd & ->)];
    destruct (Hm _ _ Em) as [(x & Hx) Hdb].
  - discriminate.
  - eexists. eexists. split; [reflexivity|]. congruence.
Qed.

End Outcomes.

(* ------------------------------------------------------------------------- *)
(** ** [updateEvent] is reserved to the organizer *)

Section UpdateEvent.
Context {RT : Runtime}.

Lemma updateEvent_refused p w :
  (event_to_update p w = None \/
   exists e, event_to_update p w = Some e /\ organizer e <> Some (ue_userId p)) ->
  exists v w', updateEvent p w = (Throw v, w') /\ db w' = db w.
Proof.
  intros H. unfold updateEvent. apply throwing_body. intros r w' E.
  apply bind_inv in E.
  destruct E as [(v & E1 & ->) | (u & w1 & E1 & E)];
    apply connect_inv in E1; [eauto|].
  apply bind_inv in E.
  destruct E as [(v & E2 & ->) | (a & w2 & E2 & E)];
    apply external_reading_inv in E2; destruct E2 as [Hd Ha];
    [split; [eauto|congruence]|].
  specialize (Ha _ eq_refl). rewrite E1 in Ha. fold (event_to_update p w) in Ha.
  assert (Hw : db w2 = db w) by congruence. clear E1 Hd.
  unfold bind, ret, throw_if, toHexString, throw in E.
  destruct H as [Hn | (e & He & Ho)]; rewrite Ha in *.
  - rewrite Hn in E. inversion E; subst. eauto.
  - rewrite He in E. destruct (organizer e) as [o|].
    + destruct (o =? ue_userId p)%string eqn:Ex.
      * apply String.eqb_eq in Ex. subst. contradiction.
      * simpl in E. rewrite Ex in E. simpl in E. inversion E; subst. eauto.
    + inversion E; subst. eauto.
Qed.

(** C3. When no event has the identifier [event._id], or the organizer of
    that event is not [userId], [updateEvent] throws and the database is
    left as it was; a call of [updateEvent] that changes the database is
    one whose [userId] is the organizer of the event. *)
Theorem updateEvent_only_by_organizer :
  (forall p w,
      (event_to_update p w = None \/
       exists e, event_to_update p w = Some e /\
                 organizer e <> Some (ue_userId p)) ->
      exists v w', updateEvent p w = (Throw v, w') /\ db w' = db w) /\
  (forall p w r w',
      updateEvent p w = (r, w') ->
      db w' <> db w ->
      exists e, event_to_update p w = Some e /\
                organizer e = Some (ue_userId p)).
Proof.
  split; [exact updateEvent_refused|].
  intros p w r w' E Hd.
  destruct (event_to_update p w) as [e|] eqn:He.
  - exists e. split; [reflexivity|].
    destruct (organizer e) as [o|] eqn:Eo.
    + destruct (string_dec o (ue_userId p)) as [->|Hne]; [reflexivity|].
      destruct (updateEvent_refused p w) as (v & w1 & E1 & Hd1).
      { right. exists e. split; [assumption|]. rewrite Eo. congruence. }
      rewrite E in E1. inversion E1; subst. contradiction.
    + destruct (updateEvent_refused p w) as (v & w1 & E1 & Hd1).
      { right. exists e. split; [assumption|]. rewrite Eo. discriminate. }
      rewrite E in E1. inversion E1; subst. contradiction.
  - destruct (updateEvent_refused p w) as (v & w1 & E1 & Hd1); [auto|].
    rewrite E in E1. inversion E1; subst. contradiction.
Qed.

End UpdateEvent.

(** C3, on the sample database: Bob may not edit the meetup that Alice
    organizes, and the edit by Alice changes the database. *)
Lemma updateEvent_only_by_organizer_witness :
  (exists v w',
      @updateEvent sample_runtime edit_by_bob sample_world = (Throw v, w') /\
      db w' = db sample_world) /\
  (exists e, event_to_update edit_by_alice sample_world = Some e /\
             organizer e = Some (ue_userId edit_by_alice)).
Proof.
  destruct (@updateEvent_only_by_organizer sample_runtime) as [H1 H2].
  split.
  - apply H1. right. exists meetup. split; [reflexivity|].
    simpl. discriminate.
  - pose (run := @updateEvent sample_runtime edit_by_alice sample_world).
    apply (H2 edit_by_alice sample_world (fst run) (snd run)).
    + apply surjective_pairing.
    + vm_compute. discriminate.
Defined.

(* ------------------------------------------------------------------------- *)
(** ** The aggregation pipeline of [getOrdersByEvent] *)

Lemma ref_is_true r i : ref_is r i = true <-> r = Some i.
Proof.
  unfold ref_is. destruct r as [a|].
  - rewrite String.eqb_eq. split; congruence.
  - split; discriminate.
Qed.

Lemma in_unwind {A B : Type} (l : list (A * list B)) a b :
  In (a, b) (unwind l) <-> exists bs, In (a, bs) l /\ In b bs.
Proof.
  unfold unwind. rewrite in_flat_map. split.
  - intros ([a' bs] & Hin & Hm). simpl in Hm. apply in_map_iff in Hm.
    destruct Hm as (b' & Hb & Hb'). inversion Hb; subst. eauto.
  - intros (bs & Hin & Hb). exists (a, bs). split; auto.
    simpl. apply in_map. assumption.
Qed.

Lemma pipeline_exact d event re i :
  In i (pipeline event re d) <-> order_of_event d event re i.
Proof.
  unfold pipeline, order_of_event. rewrite filter_In, in_map_iff. split.
  - intros ((((o & u) & e) & <- & Hin) & Hm).
    apply in_unwind in Hin. destruct Hin as (es & Hes & He).
    apply in_map_iff in Hes. destruct Hes as ([o' u'] & Hl & Hou).
    unfold lookup_event in Hl. inversion Hl; subst. clear Hl.
    apply in_unwind in Hou. destruct Hou as (us & Hus & Hu).
    apply in_map_iff in Hus. destruct Hus as (o' & Hl & Ho).
    unfold lookup_buyer in Hl. inversion Hl; subst. clear Hl.
    apply filter_In in He. destruct He as [He Hre].
    apply filter_In in Hu. destruct Hu as [Hu Hrb].
    simpl in Hre. apply ref_is_true in Hre. apply ref_is_true in Hrb.
    apply andb_true_iff in Hm. destruct Hm as [Hid Hname]. simpl in Hid, Hname.
    apply String.eqb_eq in Hid.
    exists o, u, e. repeat split; auto.
  - intros (o & u & e & Ho & Hu & He & Hb & Hev & Hid & Hname & ->).
    split.
    + exists ((o, u), e). split; [reflexivity|].
      apply in_unwind. exists (filter (fun e => ref_is (o_event o) (e_id e)) (events d)).
      split.
      * apply in_map_iff. exists (o, u). split; [reflexivity|].
        apply in_unwind. exists (filter (fun u => ref_is (buyer o) (u_id u)) (users d)).
        split.
        -- apply in_map_iff. exists o. auto.
        -- apply filter_In. split; auto. apply ref_is_true. assumption.
      * apply filter_In. split; auto. apply ref_is_true. assumption.
    + simpl. rewrite Hid, String.eqb_refl. simpl. assumption.
Qed.

Section OrdersByEvent.
Context {RT : Runtime}.

Lemma truthy_true s : truthy s = true <-> s <> "".
Proof.
  unfold truthy. rewrite negb_true_iff. apply String.eqb_neq.
Qed.

Lemma getOrdersByEvent_calm p w i0 re :
  calm w = true ->
  goe_eventId p <> "" ->
  ObjectId_hex (goe_eventId p) = Some i0 ->
  regex_i (goe_searchString p) = Some re ->
  exists w',
    getOrdersByEvent p w
    = (Return (ROrderItems (pipeline i0 re (db w))), w').
Proof.
  intros Hc Hid Hv Hre. apply truthy_true in Hid.
  unfold getOrdersByEvent, try_catch.
  rewrite (bind_step _ _ _ _ _ (connect_calm w Hc)).
  unfold throw_if. rewrite Hid. simpl.
  unfold bind at 1. unfold ret at 1.
  unfold new_ObjectId. rewrite Hv.
  unfold bind at 1. unfold ret at 1.
  unfold RegExp_i. rewrite Hre.
  unfold bind at 1. unfold ret at 1.
  unfold Order_aggregate.
  erewrite bind_step
    by (apply external_calm; [apply calm_performed; exact Hc | reflexivity]).
  unfold ret. simpl. eexists. reflexivity.
Qed.

Lemma getOrdersByEvent_Return p w r w' :
  getOrdersByEvent p w = (Return r, w') ->
  goe_eventId p <> "" /\
  exists i0 re,
    ObjectId_hex (goe_eventId p) = Some i0 /\
    regex_i (goe_searchString p) = Some re /\
    r = ROrderItems (pipeline i0 re (db w)).
Proof.
  unfold getOrdersByEvent. intros E.
  apply try_handleError_Return in E.
  apply bind_Return in E. destruct E as (u & w1 & E1 & E).
  apply connect_Return in E1.
  apply bind_Return in E. destruct E as (u2 & w2 & E2 & E).
  unfold throw_if in E2.
  destruct (truthy (goe_eventId p)) eqn:Ht; simpl in E2; [|discriminate].
  apply ret_Return in E2. destruct E2 as [_ <-].
  apply bind_Return in E. destruct E as (oid & w3 & E3 & E).
  unfold new_ObjectId in E3.
  destruct (ObjectId_hex (goe_eventId p)) as [i0|] eqn:Hx; [|discriminate].
  apply ret_Return in E3. destruct E3 as [<- <-].
  apply bind_Return in E. destruct E as (re & w4 & E4 & E).
  unfold RegExp_i in E4.
  destruct (regex_i (goe_searchString p)) as [m|] eqn:Hre; [|discriminate].
  apply ret_Return in E4. destruct E4 as [<- <-].
  apply bind_Return in E. destruct E as (items & w5 & E5 & E).
  apply ret_Return in E. destruct E as [<- _].
  apply external_reading_inv in E5. destruct E5 as [_ Hi].
  specialize (Hi _ eq_refl). subst items.
  split; [apply truthy_true; assumption|].
  exists i0, m. rewrite E1. auto.
Qed.

Lemma getOrdersByEvent_throws p w :
  goe_eventId p = "" \/ ObjectId_hex (goe_eventId p) = None
  \/ regex_i (goe_searchString p) = None ->
  exists v w', getOrdersByEvent p w = (Throw v, w').
Proof.
  intros H. destruct (getOrdersByEvent p w) as [[r|v] w'] eqn:E.
  - apply getOrdersByEvent_Return in E.
    destruct E as (Hn & i0 & re & Hx & Hre & _).
    destruct H as [H|[H|H]]; congruence.
  - eauto.
Qed.

Lemma getOrdersByEvent_absent p w :
  goe_eventId p = "" ->
  exists v w', getOrdersByEvent p w = (Throw v, w').
Proof.
  intros Hid. apply getOrdersByEvent_throws. left. assumption.
Qed.

(** C5, amended. When the store answers, given an [eventId] that is not
    empty and in which [new ObjectId] reads an identifier, and a search
    string that compiles, [getOrdersByEvent] returns exactly the orders
    whose event is that identifier and whose buyer has a full name
    ([firstName], a space, [lastName]) that matches the search string as a
    case-insensitive regular expression, each projected to [_id],
    [totalAmount], [createdAt], [eventTitle], [eventId] and the full name of
    the buyer; a call that returns at all was given such arguments and
    returns exactly those orders.  The function throws when [eventId] is
    absent, and also when [new ObjectId] refuses it or the search string
    does not compile. *)
Theorem getOrdersByEvent_exact :
  (forall p w i0 re,
      calm w = true ->
      goe_eventId p <> "" ->
      ObjectId_hex (goe_eventId p) = Some i0 ->
      regex_i (goe_searchString p) = Some re ->
      exists items w',
        getOrdersByEvent p w = (Return (ROrderItems items), w') /\
        forall i, In i items <-> order_of_event (db w) i0 re i) /\
  (forall p w r w',
      getOrdersByEvent p w = (Return r, w') ->
      goe_eventId p <> "" /\
      exists i0 re items,
        ObjectId_hex (goe_eventId p) = Some i0 /\
        regex_i (goe_searchString p) = Some re /\ r = ROrderItems items /\
        forall i, In i items <-> order_of_event (db w) i0 re i) /\
  (forall p w,
      goe_eventId p = "" \/ ObjectId_hex (goe_eventId p) = None
      \/ regex_i (goe_searchString p) = None ->
      exists v w', getOrdersByEvent p w = (Throw v, w')).
Proof.
  split; [|split].
  - intros p w i0 re Hc Hid Hv Hre.
    destruct (getOrdersByEvent_calm p w i0 re Hc Hid Hv Hre) as (w' & E).
    eexists. exists w'. split; [exact E|]. intros i. apply pipeline_exact.
  - intros p w r w' H. apply getOrdersByEvent_Return in H.
    destruct H as (Hn & i0 & re & Hx & Hre & ->).
    split; [assumption|]. exists i0, re. eexists.
    repeat split; auto; apply pipeline_exact.
  - apply getOrdersByEvent_throws.
Qed.

End OrdersByEvent.

(** C5, refuted as it was stated: the identifier ["meetup"] is not empty,
    yet [new ObjectId] refuses it and the function throws instead of
    returning the orders of an event. *)
Lemma getOrdersByEvent_refuses_identifier :
  goe_eventId orders_of_malformed <> "" /\
  fst (@getOrdersByEvent sample_runtime orders_of_malformed sample_world)
  = Throw (new_Error (Some "{}")) /\
  new_ops sample_world
    (snd (@getOrdersByEvent sample_runtime orders_of_malformed sample_world))
  = [(OpConnect, Ok)].
Proof.
  split; [discriminate|]. split; vm_compute; reflexivity.
Qed.

(** C5 as amended, on the sample database: the orders of the meetup bought
    by a "bob", the identifier of the meetup being written with upper-case
    letters; and a call without an event. *)
Lemma getOrdersByEvent_exact_witness :
  (exists items w',
      @getOrdersByEvent sample_runtime orders_of_meetup_upper sample_world
      = (Return (ROrderItems items), w') /\
      In {| item_id := id_order1; item_totalAmount := "10"; item_createdAt := 300;
            eventTitle := "Proof Meetup"; eventId := id_meetup;
            item_buyer := "Bob Stone" |} items) /\
  (exists v w',
      @getOrdersByEvent sample_runtime orders_of_nothing sample_world = (Throw v, w')).
Proof.
  destruct (@getOrdersByEvent_exact sample_runtime) as (H1 & _ & H3).
  split.
  - destruct (H1 orders_of_meetup_upper sample_world id_meetup
                (fun s => is_some (String.index 0 "bob" (lowercase s))))
      as (items & w' & E & Hi);
      [reflexivity | discriminate | reflexivity | reflexivity |].
    exists items, w'. split; [exact E|].
    apply Hi. exists order1, bob, meetup.
    repeat split; simpl; auto.
  - apply H3. left. reflexivity.
Defined.

(* ------------------------------------------------------------------------- *)
(** ** The category filter of [getAllEvents] *)

Lemma in_insert_desc {A : Type} (key : A -> Z) x y l :
  In y (insert_desc key x l) <-> y = x \/ In y l.
Proof.
  induction l as [|z l IH]; simpl.
  - intuition.
  - destruct (key z <=? key x); simpl; rewrite ?IH; intuition.
Qed.

Lemma in_sort_desc {A : Type} (key : A -> Z) y l :
  In y (sort_desc key l) <-> In y l.
Proof.
  induction l as [|z l IH]; simpl.
  - tauto.
  - rewrite in_insert_desc, IH. intuition.
Qed.

Lemma in_skipn {A : Type} n (l : list A) y : In y (skipn n l) -> In y l.
Proof.
  intros H. rewrite <- (firstn_skipn n l). apply in_or_app. auto.
Qed.

Lemma in_firstn {A : Type} n (l : list A) y : In y (firstn n l) -> In y l.
Proof.
  intros H. rewrite <- (firstn_skipn n l). apply in_or_app. auto.
Qed.


Section CategoryFilter.
Context {RT : Runtime}.




End CategoryFilter.



(* ------------------------------------------------------------------------- *)
(** ** The two versions of [getAllEvents] *)

(** C7, refuted: on the second page of the sample events, one per page, the
    earlier version returns the first event again. *)
Lemma getAllEvents_versions_differ :
  fst (@getAllEvents_draft sample_runtime sample_second_page sample_world)
  <> fst (@getAllEvents sample_runtime sample_second_page sample_world).
Proof. vm_compute. discriminate. Qed.

(** C7, amended. The two versions of [getAllEvents] compute the same result,
    and leave the same world, for every database state and every limit when
    the search text and the category name are empty and the page is the
    first. *)
Theorem getAllEvents_versions_agree {RT : Runtime} :
  forall p w,
    ga_query p = "" -> ga_category p = "" -> ga_page p = 1 ->
    getAllEvents_draft p w = getAllEvents p w.
Proof.
  intros [q l pg c] w Hq Hc Hp. simpl in *. subst.
  unfold getAllEvents_draft, getAllEvents. cbn [ga_query ga_limit ga_page ga_category].
  reflexivity.
Qed.

(** C7 as amended, on the first page of the sample events. *)
Lemma getAllEvents_versions_agree_witness :
  @getAllEvents_draft sample_runtime sample_first_page sample_world
  = @getAllEvents sample_runtime sample_first_page sample_world.
Proof.
  apply getAllEvents_versions_agree; reflexivity.
Defined.

(* ------------------------------------------------------------------------- *)
(** ** How many queries an invocation issues *)











Section Queries.
Context {RT : Runtime}.



End Queries.


(* ------------------------------------------------------------------------- *)
(** ** [deleteUser] *)

Section DeleteUser.
Context {RT : Runtime}.

(** The user [deleteUser] looks up. *)
Lemma deleteUser_unknown clerk w :
  find (fun u => (clerkId u =? clerk)%string) (users (db w)) = None ->
  exists v w', deleteUser clerk w = (Throw v, w') /\ db w' = db w.
Proof.
  intros Hn. unfold deleteUser. apply throwing_body. intros r w' E.
  apply bind_inv in E.
  destruct E as [(v & E1 & ->) | (u & w1 & E1 & E)];
    apply connect_inv in E1; [eauto|].
  apply bind_inv in E.
  destruct E as [(v & E2 & ->) | (a & w2 & E2 & E)];
    apply external_reading_inv in E2; destruct E2 as [Hd Ha];
    [split; [eauto|congruence]|].
  specialize (Ha _ eq_refl). rewrite E1, Hn in Ha. subst a.
  inversion E; subst. split; [eauto|congruence].
Qed.

Lemma Promise_all2_pull_rejected u w r w' :
  existsb (fun e => id_in (e_id e) (u_events u) && is_some (organizer e))
          (events (db w)) = true ->
  Promise_all2 (Event_updateMany_pull_organizer (u_events u) (u_id u))
               (Order_updateMany_unset_buyer (u_orders u)) w = (r, w') ->
  (exists v, r = Throw v) /\
  users (db w') = users (db w) /\ events (db w') = events (db w).
Proof.
  intros Hex E. unfold Promise_all2 in E.
  destruct (Event_updateMany_pull_organizer _ _ w) as [r1 w1] eqn:X1.
  destruct (Order_updateMany_unset_buyer _ w1) as [r2 w2] eqn:X2.
  apply external_outcome in X1. apply external_outcome in X2.
  destruct X1 as [(x & -> & ->) | (a & d & Hrun & _)];
    [|rewrite Hex in Hrun; discriminate].
  inversion E; subst. split; [eauto|].
  destruct X2 as [(y & _ & ->) | (b & d & Hrun & _ & ->)]; simpl; auto.
  inversion Hrun; subst. simpl. auto.
Qed.

(** The [$pull] on the single-valued [organizer] is rejected as soon as one
    of the events listed for the user has an organizer; the user is then not
    deleted. *)
Lemma deleteUser_pull_rejected clerk w u :
  find (fun u => (clerkId u =? clerk)%string) (users (db w)) = Some u ->
  existsb (fun e => id_in (e_id e) (u_events u) && is_some (organizer e))
          (events (db w)) = true ->
  exists v w', deleteUser clerk w = (Throw v, w') /\
               users (db w') = users (db w) /\ events (db w') = events (db w).
Proof.
  intros Hu Hex. unfold deleteUser.
  destruct ((try _ catch handleError) w) as [r w'] eqn:E.
  apply try_handleError_inv in E.
  assert (Hbody : forall r1 w1,
             (connectToDatabase ;;
              userToDelete <- User_findOne clerk ;;
              match userToDelete with
              | None => throw (new_Error (Some "User not found"))
              | Some u =>
                  Promise_all2
                    (Event_updateMany_pull_organizer (u_events u) (u_id u))
                    (Order_updateMany_unset_buyer (u_orders u)) ;;
                  deletedUser <- User_findByIdAndDelete (u_id u) ;;
                  revalidatePath "/" ;;
                  ret (match deletedUser with
                       | Some du => RUser (JSON_roundtrip du)
                       | None => RNull
                       end)
              end) w = (r1, w1) ->
             (exists v, r1 = Throw v) /\
             users (db w1) = users (db w) /\ events (db w1) = events (db w)).
  { intros r1 w1 B. apply bind_inv in B.
    destruct B as [(v & B1 & ->) | (x & wa & B1 & B)];
      apply connect_inv in B1; [rewrite B1; eauto|].
    apply bind_inv in B.
    destruct B as [(v & B2 & ->) | (a & wb & B2 & B)];
      apply external_reading_inv in B2; destruct B2 as [Hd Ha];
      [rewrite Hd, B1; eauto|].
    specialize (Ha _ eq_refl). rewrite B1, Hu in Ha. subst a.
    assert (Hwb : db wb = db w) by congruence. clear B1 Hd.
    apply bind_inv in B.
    destruct B as [(v & B3 & ->) | (ab & wc & B3 & B)].
    - split; [eauto|].
      apply Promise_all2_pull_rejected in B3; [|rewrite Hwb; exact Hex].
      destruct B3 as (_ & Hus & Hev). rewrite Hus, Hev, Hwb. auto.
    - apply Promise_all2_pull_rejected in B3; [|rewrite Hwb; exact Hex].
      destruct B3 as ((y & Hy) & _). discriminate. }
  destruct E as [(a & Em & ->) | (v & w1 & Em & Hd & ->)];
    destruct (Hbody _ _ Em) as ((x & Hx) & Hus & Hev).
  - discriminate.
  - eexists. eexists. split; [reflexivity|]. rewrite Hd. auto.
Qed.

(** When none of the listed events has an organizer the bulk updates are
    accepted: the orders are unlinked first, then the user is deleted. *)
Lemma deleteUser_cascade clerk w u :
  calm w = true ->
  find (fun u => (clerkId u =? clerk)%string) (users (db w)) = Some u ->
  existsb (fun e => id_in (e_id e) (u_events u) && is_some (organizer e))
          (events (db w)) = false ->
  exists w',
    deleteUser clerk w
    = (Return (match find (fun x => (u_id x =? u_id u)%string) (users (db w)) with
               | Some du => RUser du
               | None => RNull
               end), w') /\
    new_ops w w'
    = [(OpConnect, Ok); (OpQuery "User.findOne", Ok);
       (OpQuery "Event.updateMany", Ok); (OpQuery "Order.updateMany", Ok);
       (OpQuery "User.findByIdAndDelete", Ok)] /\
    db w'
    = set_users
        (set_orders (db w)
           (map (fun o => if id_in (o_id o) (u_orders u) then unset_buyer o else o)
                (orders (db w))))
        (remove_first (fun x => (u_id x =? u_id u)%string) (users (db w))).
Proof.
  intros Hc Hu Hex. unfold deleteUser, try_catch.
  rewrite (bind_step _ _ _ _ _ (connect_calm w Hc)).
  unfold User_findOne.
  erewrite bind_step
    by (apply external_calm; [apply calm_performed; exact Hc | reflexivity]).
  cbn [db performed]. rewrite Hu.
  unfold Promise_all2, Event_updateMany_pull_organizer,
    Order_updateMany_unset_buyer, User_findByIdAndDelete.
  unfold bind at 1.
  erewrite external_calm;
    [| do 2 apply calm_performed; exact Hc
     | cbn [db performed]; rewrite Hex; reflexivity ].
  erewrite external_calm;
    [| do 3 apply calm_performed; exact Hc | reflexivity ].
  erewrite bind_step
    by (apply external_calm; [do 4 apply calm_performed; exact Hc | reflexivity]).
  unfold bind, revalidatePath, ret. cbn [db performed add_revalidated].
  eexists. split; [reflexivity|]. split; [|reflexivity].
  apply new_ops_app. cbn [trace performed add_revalidated].
  rewrite <- !app_assoc. reflexivity.
Qed.

End DeleteUser.

(** C6, at the failing input: Alice organizes the meetup listed in her
    [events]; the bulk update of the events is rejected, [deleteUser]
    throws, Alice is still a user and the meetup still names her as its
    organizer, while the buyer of her order is already unset. *)
Theorem deleteUser_leaves_user_behind :
  exists w',
    @deleteUser sample_runtime "clerk_alice" sample_world
    = (Throw (JError "Error" "{}"), w') /\
    In alice (users (db w')) /\
    In meetup (events (db w')) /\
    In (unset_buyer order2) (orders (db w')) /\
    In (OpQuery "Event.updateMany",
        Failed (JError "MongoServerError" "Cannot apply $pull to a non-array value"))
       (trace w') /\
    ~ In (OpQuery "User.findByIdAndDelete", Ok) (trace w').
Proof.
  eexists. split; [vm_compute; reflexivity|]. simpl.
  repeat split; auto 10.
  intros [H|[H|[H|[H|[]]]]]; discriminate.
Qed.

(* ------------------------------------------------------------------------- *)
(** ** The order of the keys *)

Lemma key_leb_total a b : key_leb a b = false -> key_leb b a = true.
Proof.
  revert b. induction a as [|x a IH]; intros [|y b]; simpl; auto; try discriminate.
  destruct (Nat.ltb_spec (nat_of_ascii x) (nat_of_ascii y));
    destruct (Nat.eqb_spec (nat_of_ascii x) (nat_of_ascii y));
    destruct (Nat.ltb_spec (nat_of_ascii y) (nat_of_ascii x));
    destruct (Nat.eqb_spec (nat_of_ascii y) (nat_of_ascii x));
    try discriminate; try lia; auto.
Qed.

Lemma key_leb_trans a b c :
  key_leb a b = true -> key_leb b c = true -> key_leb a c = true.
Proof.
  revert b c. induction a as [|x a IH]; intros [|y b] [|z c]; simpl; auto;
    try discriminate.
  destruct (Nat.ltb_spec (nat_of_ascii x) (nat_of_ascii y));
    destruct (Nat.eqb_spec (nat_of_ascii x) (nat_of_ascii y));
    destruct (Nat.ltb_spec (nat_of_ascii y) (nat_of_ascii z));
    destruct (Nat.eqb_spec (nat_of_ascii y) (nat_of_ascii z));
    destruct (Nat.ltb_spec (nat_of_ascii x) (nat_of_ascii z));
    destruct (Nat.eqb_spec (nat_of_ascii x) (nat_of_ascii z));
    try discriminate; try lia; auto.
  apply IH.
Qed.

Lemma in_insert_key x y q : In y (insert_key x q) <-> y = x \/ In y q.
Proof.
  induction q as [|z q IH]; simpl.
  - intuition.
  - destruct (key_leb (fst x) (fst z)); simpl; rewrite ?IH; intuition.
Qed.

Lemma in_sort_keys y q : In y (sort_keys q) <-> In y q.
Proof.
  induction q as [|z q IH]; simpl.
  - tauto.
  - rewrite in_insert_key, IH. intuition.
Qed.

Lemma insert_key_sorted x q :
  sorted (keys q) -> sorted (keys (insert_key x q)).
Proof.
  unfold sorted. induction q as [|y q IH]; simpl; intros Hs.
  - repeat constructor.
  - destruct (key_leb (fst x) (fst y)) eqn:E; simpl.
    + constructor; [assumption|].
      inversion Hs; subst. constructor; [assumption|].
      eapply Forall_impl; [|eassumption].
      intros a Ha. simpl in Ha. eapply key_leb_trans; eassumption.
    + inversion Hs; subst. constructor; [auto|].
      apply Forall_forall. intros a Ha.
      apply in_map_iff in Ha. destruct Ha as (kv & <- & Hin).
      apply in_insert_key in Hin. destruct Hin as [->|Hin].
      * apply key_leb_total. assumption.
      * rewrite Forall_forall in H2. apply H2. apply in_map. assumption.
Qed.

Lemma sort_keys_sorted q : sorted (keys (sort_keys q)).
Proof.
  induction q as [|x q IH]; simpl.
  - constructor.
  - apply insert_key_sorted. assumption.
Qed.

Lemma sort_keys_id q : sorted (keys q) -> sort_keys q = q.
Proof.
  unfold sorted. induction q as [|x q IH]; simpl; intros Hs; [reflexivity|].
  inversion Hs; subst. rewrite IH by assumption.
  destruct q as [|y q]; simpl; [reflexivity|].
  inversion H2; subst. rewrite H3. reflexivity.
Qed.

Lemma insert_key_keys x q :
  Permutation.Permutation (keys (insert_key x q)) (fst x :: keys q).
Proof.
  induction q as [|y q IH]; simpl.
  - reflexivity.
  - destruct (key_leb (fst x) (fst y)); simpl.
    + reflexivity.
    + rewrite IH. apply Permutation.perm_swap.
Qed.

Lemma sort_keys_keys q : Permutation.Permutation (keys (sort_keys q)) (keys q).
Proof.
  induction q as [|x q IH]; simpl.
  - reflexivity.
  - rewrite insert_key_keys. constructor. assumption.
Qed.

Lemma sort_keys_NoDup q : NoDup (keys q) -> NoDup (keys (sort_keys q)).
Proof.
  intros H. eapply Permutation.Permutation_NoDup; [|eassumption].
  symmetry. apply sort_keys_keys.
Qed.

(* ------------------------------------------------------------------------- *)
(** ** Query objects *)

Lemma in_keys k (q : QueryObject) : In k (keys q) <-> exists v, In (k, v) q.
Proof.
  unfold keys. rewrite in_map_iff. split.
  - intros ([k' v] & <- & H). eauto.
  - intros (v & H). exists (k, v). auto.
Qed.

Lemma filter_keys_NoDup (p : string * QValue -> bool) q :
  NoDup (keys q) -> NoDup (keys (filter p q)).
Proof.
  induction q as [|x q IH]; simpl; intros H; [constructor|].
  inversion H; subst. destruct (p x); simpl; auto.
  constructor; auto. intros Hin. apply H2.
  apply in_map_iff in Hin. destruct Hin as (y & Hy & Hf).
  apply filter_In in Hf. apply in_map_iff. exists y. tauto.
Qed.

Lemma q_lookup_absent k q : ~ In k (keys q) -> q_lookup k q = None.
Proof.
  induction q as [|[k' v] q IH]; simpl; intros H; [reflexivity|].
  destruct (String.eqb_spec k' k); [subst; tauto | auto].
Qed.

Lemma q_lookup_present k q : In k (keys q) -> exists v, q_lookup k q = Some v.
Proof.
  induction q as [|[k' v] q IH]; simpl; intros H; [contradiction|].
  destruct (String.eqb_spec k' k); [eauto|].
  destruct H; [contradiction | auto].
Qed.

Lemma q_set_absent k v q : ~ In k (keys q) -> q_set k v q = q ++ [(k, v)].
Proof.
  induction q as [|[k' v'] q IH]; simpl; intros H; [reflexivity|].
  destruct (String.eqb_spec k' k); [subst; tauto|].
  rewrite IH by tauto. reflexivity.
Qed.

Lemma q_set_last k v v' q :
  ~ In k (keys q) -> q_set k v (q ++ [(k, v')]) = q ++ [(k, v)].
Proof.
  induction q as [|[k' x] q IH]; simpl; intros H.
  - rewrite String.eqb_refl. reflexivity.
  - destruct (String.eqb_spec k' k); [subst; tauto|].
    rewrite IH by tauto. reflexivity.
Qed.

Lemma q_lookup_last k v q :
  ~ In k (keys q) -> q_lookup k (q ++ [(k, v)]) = Some v.
Proof.
  induction q as [|[k' x] q IH]; simpl; intros H.
  - rewrite String.eqb_refl. reflexivity.
  - destruct (String.eqb_spec k' k); [subst; tauto | auto].
Qed.

Lemma q_set_keys k v q :
  keys (q_set k v q) = if existsb (String.eqb k) (keys q) then keys q
                       else keys q ++ [k].
Proof.
  induction q as [|[k' x] q IH]; simpl; [reflexivity|].
  rewrite (String.eqb_sym k k').
  destruct (String.eqb_spec k' k); simpl.
  - subst. reflexivity.
  - rewrite IH. destruct (existsb (String.eqb k) (keys q)); reflexivity.
Qed.

Lemma q_set_NoDup k v q : NoDup (keys q) -> NoDup (keys (q_set k v q)).
Proof.
  intros H. rewrite q_set_keys.
  destruct (existsb (String.eqb k) (keys q)) eqn:E; [assumption|].
  apply NoDup_app; [assumption | repeat constructor; simpl; tauto |].
  intros x Hx [Hk|[]]. subst x.
  assert (Ht : existsb (String.eqb k) (keys q) = true).
  { apply existsb_exists. exists k. split; [assumption | apply String.eqb_refl]. }
  congruence.
Qed.

Lemma q_set_in k v q : In (k, v) (q_set k v q).
Proof.
  induction q as [|[k' x] q IH]; simpl; [auto|].
  destruct (k' =? k)%string; simpl; auto.
Qed.

Lemma keys_unique k v v' q :
  NoDup (keys q) -> In (k, v) q -> In (k, v') q -> v = v'.
Proof.
  induction q as [|[k' x] q IH]; simpl; intros Hn H1 H2; [contradiction|].
  inversion Hn; subst.
  destruct H1 as [H1|H1], H2 as [H2|H2].
  - congruence.
  - inversion H1; subst. exfalso. apply H3. apply in_keys. eauto.
  - inversion H2; subst. exfalso. apply H3. apply in_keys. eauto.
  - auto.
Qed.

Lemma q_set_same k v q : NoDup (keys q) -> In (k, v) q -> q_set k v q = q.
Proof.
  induction q as [|[k' x] q IH]; simpl; intros Hn Hin; [contradiction|].
  inversion Hn; subst.
  destruct (String.eqb_spec k' k).
  - subst. destruct Hin as [Hin|Hin].
    + inversion Hin. reflexivity.
    + exfalso. apply H1. apply in_keys. eauto.
  - destruct Hin as [Hin|Hin]; [congruence|].
    rewrite IH by assumption. reflexivity.
Qed.

Lemma accumulate_NoDup acc param :
  NoDup (keys acc) -> NoDup (keys (accumulate acc param)).
Proof.
  intros H. unfold accumulate.
  destruct (q_lookup (fst param) acc); apply q_set_NoDup; assumption.
Qed.

Lemma fold_accumulate_NoDup params acc :
  NoDup (keys acc) -> NoDup (keys (fold_left accumulate params acc)).
Proof.
  revert acc. induction params as [|p params IH]; simpl; intros acc H; auto.
  apply IH. apply accumulate_NoDup. assumption.
Qed.

Lemma qs_parse_NoDup params : NoDup (keys (qs_parse params)).
Proof.
  unfold qs_parse. apply sort_keys_NoDup. apply fold_accumulate_NoDup.
  constructor.
Qed.

(* ------------------------------------------------------------------------- *)
(** ** Parsing what [stringify] wrote *)

Lemma emit1_array k l :
  emit1 (k, QArray l) = map (fun s => (k, Some s)) (somes l).
Proof.
  unfold emit1, somes. simpl.
  induction l as [|[s|] l IH]; simpl; [reflexivity | rewrite IH | exact IH];
    reflexivity.
Qed.

Lemma accumulate_array k l ss acc :
  ~ In k (keys acc) ->
  fold_left accumulate (map (fun s => (k, Some s)) ss) (acc ++ [(k, QArray l)])
  = acc ++ [(k, QArray (l ++ map Some ss))].
Proof.
  intros Hk. revert l. induction ss as [|s ss IH]; intros l; simpl.
  - rewrite app_nil_r. reflexivity.
  - unfold accumulate at 2. simpl.
    rewrite q_lookup_last, q_set_last by assumption. simpl.
    rewrite IH, <- app_assoc. reflexivity.
Qed.

Lemma accumulate_string k s0 ss acc :
  ~ In k (keys acc) ->
  fold_left accumulate (map (fun s => (k, Some s)) ss) (acc ++ [(k, QString s0)])
  = acc ++ [(k, match ss with
                | [] => QString s0
                | _ => QArray (Some s0 :: map Some ss)
                end)].
Proof.
  intros Hk. destruct ss as [|s ss]; simpl; [reflexivity|].
  unfold accumulate at 2. simpl.
  rewrite q_lookup_last, q_set_last by assumption. simpl.
  rewrite accumulate_array by assumption. reflexivity.
Qed.

Lemma accumulate_values k ss acc :
  ~ In k (keys acc) ->
  fold_left accumulate (map (fun s => (k, Some s)) ss) acc
  = acc ++ match pack ss with
           | Some v => [(k, v)]
           | None => []
           end.
Proof.
  intros Hk. destruct ss as [|s ss]; simpl.
  - rewrite app_nil_r. reflexivity.
  - unfold accumulate at 2. simpl.
    rewrite q_lookup_absent, q_set_absent by assumption. simpl.
    rewrite accumulate_string by assumption.
    destruct ss; reflexivity.
Qed.

Lemma accumulate_entry k v acc :
  ~ In k (keys acc) ->
  fold_left accumulate (emit1 (k, v)) acc = acc ++ reparse1 (k, v).
Proof.
  intros Hk. destruct v as [|s|l].
  - simpl. unfold accumulate. simpl.
    rewrite q_lookup_absent, q_set_absent by assumption. reflexivity.
  - simpl. unfold accumulate. simpl.
    rewrite q_lookup_absent, q_set_absent by assumption. reflexivity.
  - rewrite emit1_array, accumulate_values by assumption. reflexivity.
Qed.

Lemma reparse1_keys k kv : In k (keys (reparse1 kv)) -> k = fst kv.
Proof.
  unfold reparse1. destruct kv as [k' [|s|l]]; simpl.
  - intros [H|[]]. auto.
  - intros [H|[]]. auto.
  - destruct (pack (somes l)); simpl; [intros [H|[]]; auto | contradiction].
Qed.

Lemma reparse_keys k n : In k (keys (reparse n)) -> In k (keys n).
Proof.
  unfold reparse, keys. induction n as [|kv n IH]; simpl; [auto|].
  rewrite map_app, in_app_iff. intros [H|H].
  - left. symmetry. apply reparse1_keys. assumption.
  - right. auto.
Qed.

Lemma accumulate_entries n acc :
  NoDup (keys n) ->
  (forall k, In k (keys n) -> ~ In k (keys acc)) ->
  fold_left accumulate (emit n) acc = acc ++ reparse n.
Proof.
  revert acc. induction n as [|[k v] n IH]; simpl; intros acc Hn Hd.
  - rewrite app_nil_r. reflexivity.
  - inversion Hn; subst. unfold emit, reparse. simpl.
    rewrite fold_left_app, accumulate_entry by auto.
    fold (emit n). fold (reparse n). rewrite IH; auto.
    + rewrite app_assoc. reflexivity.
    + intros k' Hk' Hin. unfold keys in Hin. rewrite map_app, in_app_iff in Hin.
      destruct Hin as [Hin|Hin].
      * apply (Hd k'); auto.
      * apply reparse1_keys in Hin. simpl in Hin. subst. contradiction.
Qed.

Lemma reparse_sorted n : sorted (keys n) -> sorted (keys (reparse n)).
Proof.
  unfold sorted. induction n as [|kv n IH]; simpl; intros Hs; [constructor|].
  inversion Hs; subst. unfold reparse, keys. simpl. rewrite map_app.
  fold (reparse n). fold (keys (reparse n)).
  assert (Hall : Forall (fun b => key_leb (fst kv) b = true) (keys (reparse n))).
  { apply Forall_forall. intros k Hk. rewrite Forall_forall in H2.
    apply H2. apply reparse_keys. assumption. }
  unfold reparse1. destruct kv as [k [|s|l]]; simpl;
    try (constructor; auto).
  destruct (pack (somes l)); simpl; auto. constructor; auto.
Qed.

Lemma somes_map_Some ss : somes (map Some ss) = ss.
Proof.
  unfold somes. induction ss as [|s ss IH]; simpl; congruence.
Qed.

Lemma emit_reparse1 kv : emit (reparse1 kv) = emit1 kv.
Proof.
  destruct kv as [k [|s|l]]; try reflexivity.
  rewrite emit1_array. unfold reparse1. cbn [snd fst].
  destruct (somes l) as [|s [|t ss]] eqn:E; cbn [pack]; try reflexivity.
  unfold emit. cbn [flat_map].
  rewrite app_nil_r, emit1_array, somes_map_Some. reflexivity.
Qed.

Lemma emit_reparse n : emit (reparse n) = emit n.
Proof.
  induction n as [|kv n IH]; simpl; [reflexivity|].
  unfold emit, reparse in *. simpl. rewrite flat_map_app, IH.
  f_equal. apply emit_reparse1.
Qed.

Lemma filter_all {A : Type} (p : A -> bool) l :
  (forall x, In x l -> p x = true) -> filter p l = l.
Proof.
  induction l as [|x l IH]; simpl; intros H; [reflexivity|].
  rewrite (H x) by auto. rewrite IH; auto.
Qed.

Lemma norm_no_null q kv : In kv (norm q) -> negb (is_null (snd kv)) = true.
Proof.
  unfold norm. rewrite in_sort_keys, filter_In. tauto.
Qed.

Lemma reparse_no_null n :
  (forall kv, In kv n -> negb (is_null (snd kv)) = true) ->
  forall kv, In kv (reparse n) -> negb (is_null (snd kv)) = true.
Proof.
  intros Hn kv Hin. unfold reparse in Hin. apply in_flat_map in Hin.
  destruct Hin as ([k v] & Hx & Hr). specialize (Hn _ Hx).
  unfold reparse1 in Hr. destruct v as [|s|l]; simpl in *.
  - discriminate.
  - destruct Hr as [<-|[]]. reflexivity.
  - destruct (somes l) as [|s [|t ss]]; simpl in Hr; try contradiction;
      destruct Hr as [<-|[]]; reflexivity.
Qed.

Lemma norm_sorted q : sorted (keys (norm q)).
Proof. apply sort_keys_sorted. Qed.

Lemma norm_NoDup q : NoDup (keys q) -> NoDup (keys (norm q)).
Proof.
  intros H. apply sort_keys_NoDup. apply filter_keys_NoDup. assumption.
Qed.

(** Parsing the parameters [stringify] wrote for [q]. *)
Lemma parse_stringify q :
  NoDup (keys q) -> qs_parse (qs_stringify q) = reparse (norm q).
Proof.
  intros Hn. unfold qs_parse, qs_stringify. fold (norm q).
  rewrite accumulate_entries; [| apply norm_NoDup; assumption | auto].
  simpl. apply sort_keys_id. apply reparse_sorted. apply norm_sorted.
Qed.

(** Writing it again gives the same parameters. *)
Lemma stringify_reparse q : qs_stringify (reparse (norm q)) = qs_stringify q.
Proof.
  unfold qs_stringify at 1.
  rewrite filter_all
    by (intros kv Hin; eapply reparse_no_null; [|eassumption]; apply norm_no_null).
  rewrite sort_keys_id by (apply reparse_sorted; apply norm_sorted).
  apply emit_reparse.
Qed.

Lemma in_reparse_string k s n : In (k, QString s) n -> In (k, QString s) (reparse n).
Proof.
  intros H. unfold reparse. apply in_flat_map. exists (k, QString s).
  split; [assumption | simpl; auto].
Qed.

Lemma in_norm_string k s q : In (k, QString s) q -> In (k, QString s) (norm q).
Proof.
  intros H. unfold norm. apply in_sort_keys. apply filter_In. auto.
Qed.

Lemma q_lookup_in k v q : NoDup (keys q) -> In (k, v) q -> q_lookup k q = Some v.
Proof.
  intros Hn Hin. destruct (q_lookup_present k q) as (v' & Hv).
  { apply in_keys. eauto. }
  rewrite Hv. f_equal.
  assert (Hin' : In (k, v') q).
  { clear Hn Hin. induction q as [|[k' x] q IH]; simpl in *; [discriminate|].
    destruct (String.eqb_spec k' k).
    - inversion Hv; subst. auto.
    - auto. }
  eapply keys_unique; eassumption.
Qed.

(* ------------------------------------------------------------------------- *)
(** ** [formUrlQuery] and [removeKeysFromQuery] *)

Lemma q_set_stringify_again key value q :
  NoDup (keys q) ->
  In (key, to_qvalue value) q ->
  qs_stringify (q_set key (to_qvalue value) (qs_parse (qs_stringify q)))
  = qs_stringify q.
Proof.
  intros Hn Hin.
  assert (Hm : NoDup (keys (qs_parse (qs_stringify q)))) by apply qs_parse_NoDup.
  rewrite parse_stringify in * by assumption.
  destruct value as [s|]; simpl in *.
  - rewrite q_set_same; [apply stringify_reparse | assumption |].
    apply in_reparse_string, in_norm_string. assumption.
  - rewrite q_set_absent.
    + unfold qs_stringify at 1. rewrite filter_app. simpl. rewrite app_nil_r.
      apply stringify_reparse.
    + intros Hk. apply reparse_keys in Hk. apply in_keys in Hk.
      destruct Hk as (v & Hv). pose proof (norm_no_null _ _ Hv) as Hnn.
      unfold norm in Hv. rewrite in_sort_keys, filter_In in Hv.
      destruct Hv as [Hv _].
      rewrite (keys_unique _ _ _ _ Hn Hv Hin) in Hnn. discriminate.
Qed.

Lemma q_delete_keys k k' q : In k' (keys (q_delete k q)) -> In k' (keys q) /\ k' <> k.
Proof.
  unfold q_delete. intros H. apply in_keys in H. destruct H as (v & Hv).
  apply filter_In in Hv. destruct Hv as [Hv Hne]. simpl in Hne.
  apply negb_true_iff, String.eqb_neq in Hne. split; [|assumption].
  apply in_keys. eauto.
Qed.

Lemma fold_delete_keys ks k' q :
  In k' (keys (fold_left (fun q key => q_delete key q) ks q)) ->
  In k' (keys q) /\ ~ In k' ks.
Proof.
  revert q. induction ks as [|k ks IH]; simpl; intros q H; [tauto|].
  apply IH in H. destruct H as [H Hks]. apply q_delete_keys in H.
  split; [tauto|]. intros [->|Hin]; tauto.
Qed.

Lemma fold_delete_NoDup ks q :
  NoDup (keys q) -> NoDup (keys (fold_left (fun q key => q_delete key q) ks q)).
Proof.
  revert q. induction ks as [|k ks IH]; simpl; intros q H; [assumption|].
  apply IH. apply filter_keys_NoDup. assumption.
Qed.

Lemma fold_delete_absent ks q :
  (forall k, In k ks -> ~ In k (keys q)) ->
  fold_left (fun q key => q_delete key q) ks q = q.
Proof.
  induction ks as [|k ks IH]; simpl; intros H; [reflexivity|].
  assert (Hq : q_delete k q = q).
  { unfold q_delete. apply filter_all. intros [k' v] Hin. simpl.
    apply negb_true_iff, String.eqb_neq. intros ->.
    apply (H k); [auto|]. apply in_keys. eauto. }
  rewrite Hq. apply IH. auto.
Qed.

(** C4. [formUrlQuery] and [removeKeysFromQuery] are idempotent: applying
    [formUrlQuery] with the same key and value to the query of its own
    result gives the same URL, for every query, key and value (a string or
    [null]); applying [removeKeysFromQuery] with the same keys to the query
    of its own result gives the same URL, for every query and list of keys. *)
Theorem url_query_idempotent :
  (forall window_location_pathname params key value,
      formUrlQuery window_location_pathname
        (query (formUrlQuery window_location_pathname params key value))
        key value
      = formUrlQuery window_location_pathname params key value) /\
  (forall window_location_pathname params keysToRemove,
      removeKeysFromQuery window_location_pathname
        (query (removeKeysFromQuery window_location_pathname params keysToRemove))
        keysToRemove
      = removeKeysFromQuery window_location_pathname params keysToRemove).
Proof.
  split.
  - intros path params key value.
    unfold formUrlQuery, qs_stringifyUrl. simpl. f_equal.
    apply q_set_stringify_again.
    + apply q_set_NoDup, qs_parse_NoDup.
    + apply q_set_in.
  - intros path params ks.
    unfold removeKeysFromQuery, qs_stringifyUrl. simpl. f_equal.
    set (q := fold_left (fun q key => q_delete key q) ks (qs_parse params)).
    assert (Hn : NoDup (keys q)) by (apply fold_delete_NoDup, qs_parse_NoDup).
    rewrite parse_stringify by assumption.
    rewrite fold_delete_absent; [apply stringify_reparse|].
    intros k Hk Hin. apply reparse_keys in Hin.
    apply in_keys in Hin. destruct Hin as (v & Hv).
    unfold norm in Hv. rewrite in_sort_keys, filter_In in Hv.
    destruct Hv as [Hv _].
    assert (Hkq : In k (keys q)) by (apply in_keys; eauto).
    apply fold_delete_keys in Hkq. tauto.
Qed.

(** The helpers on a query with a repeated key, a bare key and a page. *)
Example formUrlQuery_example :
  formUrlQuery "/events"
    [("b", Some "2"); ("a", None); ("a", Some "1"); ("page", Some "3")]
    "page" (Some "4")
  = {| pathname := "/events";
       query := [("a", Some "1"); ("b", Some "2"); ("page", Some "4")] |}.
Proof. reflexivity. Qed.

Example removeKeysFromQuery_example :
  removeKeysFromQuery "/events"
    [("b", Some "2"); ("a", None); ("a", Some "1"); ("page", Some "3")]
    ["a"; "page"]
  = {| pathname := "/events"; query := [("b", Some "2")] |}.
Proof. reflexivity. Qed.

(* ------------------------------------------------------------------------- *)
(** ** The pagination control *)

Section PaginationFacts.
Context {RT : Runtime}.
Variable window_location_pathname : string.
Variable searchParams : list Param.

Lemma formUrlQuery_sets params key value :
  q_lookup key
    (qs_parse (query (formUrlQuery window_location_pathname params key (Some value))))
  = Some (QString value).
Proof.
  unfold formUrlQuery, qs_stringifyUrl. simpl.
  set (q := q_set key (QString value) (qs_parse params)).
  assert (Hn : NoDup (keys q)) by (apply q_set_NoDup, qs_parse_NoDup).
  apply q_lookup_in; [apply qs_parse_NoDup|].
  rewrite parse_stringify by assumption.
  apply in_reparse_string, in_norm_string. apply q_set_in.
Qed.

(** C10. In the [Pagination] component, for every [page] (a number or a
    string) and every [totalPages], the Previous button is disabled exactly
    when [Number(page) <= 1] and the Next button exactly when
    [Number(page) >= totalPages], the comparisons being those of the
    floating-point numbers; a click with button type ['next'] navigates to
    the URL whose parameter [urlParamName || 'page'] is the text of
    [Number(page) + 1], a click with any other button type to the one where
    it is the text of [Number(page) - 1], the sum and the difference being
    those of the floating-point numbers; the buttons click with ['prev']
    and ['next']. *)
Theorem Pagination_buttons :
  forall props : PaginationProps,
    let n := match page props with
             | page_number x => x
             | page_string s => Number_of_string s
             end in
    let render := Pagination window_location_pathname searchParams props in
    let click_of := onClick window_location_pathname searchParams props in
    (disabled (fst render) = true <-> PrimFloat.leb n 1%float = true) /\
    (disabled (snd render) = true <-> PrimFloat.leb (totalPages props) n = true) /\
    q_lookup (param_name props) (qs_parse (query (click_of "next")))
    = Some (QString (Number_toString (PrimFloat.add n 1%float))) /\
    (forall btnType, btnType <> "next" ->
       q_lookup (param_name props) (qs_parse (query (click_of btnType)))
       = Some (QString (Number_toString (PrimFloat.sub n 1%float)))) /\
    param_name props
    = match urlParamName props with
      | Some s => if (s =? "")%string then "page" else s
      | None => "page"
      end /\
    click (fst render) = click_of "prev" /\
    click (snd render) = click_of "next".
Proof.
  intros props n render click_of. subst n render click_of.
  split; [reflexivity|]. split; [reflexivity|].
  split; [|split; [|split; [|split; reflexivity]]].
  - unfold onClick. simpl. apply formUrlQuery_sets.
  - intros btnType Hb. unfold onClick.
    apply String.eqb_neq in Hb. rewrite Hb. apply formUrlQuery_sets.
  - unfold param_name, truthy. destruct (urlParamName props) as [s|]; auto.
    destruct (s =? "")%string; reflexivity.
Qed.

End PaginationFacts.

(** C10, on the second of five pages: both buttons are enabled, Previous
    leads to page 1 and Next to page 3. *)
Lemma Pagination_buttons_witness :
  q_lookup "page"
    (qs_parse (query (@onClick sample_runtime "/events" sample_params sample_props "prev")))
  = Some (QString "1") /\
  query (@onClick sample_runtime "/events" sample_params sample_props "next")
  = [("page", Some "3"); ("query", Some "jazz")] /\
  disabled (fst (@Pagination sample_runtime "/events" sample_params sample_props)) = false /\
  disabled (snd (@Pagination sample_runtime "/events" sample_params sample_props)) = false.
Proof.
  destruct (@Pagination_buttons sample_runtime "/events" sample_params sample_props)
    as (_ & _ & _ & Hprev & _).
  split; [|repeat split; reflexivity].
  apply (Hprev "prev"). discriminate.
Defined.

(** A page that is not an integer: from ["1.5"], Previous leads to [0.5]
    and Next to [2.5], and Previous is not disabled. *)
Example Pagination_fraction :
  let props := {| page := page_string "1.5"; totalPages := 5%float;
                  urlParamName := None |} in
  query (@onClick sample_runtime "/events" [] props "prev") = [("page", Some "0.5")] /\
  query (@onClick sample_runtime "/events" [] props "next") = [("page", Some "2.5")] /\
  disabled (fst (@Pagination sample_runtime "/events" [] props)) = false.
Proof. repeat split; vm_compute; reflexivity. Qed.

(** A page beyond the integers that the numbers tell apart: at [2^53] the
    sum [Number(page) + 1] is [2^53] again, and Next leads to the same
    page. *)
Example Pagination_large :
  let props := {| page := page_number 9007199254740992%float;
                  totalPages := 18014398509481984%float;
                  urlParamName := None |} in
  query (@onClick sample_runtime "/events" [] props "next")
  = [("page", Some "9007199254740992")] /\
  disabled (snd (@Pagination sample_runtime "/events" [] props)) = false.
Proof. repeat split; vm_compute; reflexivity. Qed.

(** A page that is not a number: both buttons are enabled. *)
Example Pagination_NaN :
  let props := {| page := page_string "first"; totalPages := 5%float;
                  urlParamName := None |} in
  disabled (fst (@Pagination sample_runtime "/events" [] props)) = false /\
  disabled (snd (@Pagination sample_runtime "/events" [] props)) = false /\
  query (@onClick sample_runtime "/events" [] props "next") = [("page", Some "NaN")].
Proof. repeat split; vm_compute; reflexivity. Qed.

(* ------------------------------------------------------------------------- *)
(** ** What the actions leave alone *)

Lemma keeps_ret {A : Type} (a : A) : keeps_db (ret a).
Proof. intros w r w' E. inversion E. reflexivity. Qed.

Lemma keeps_throw {A : Type} (v : JsValue) : keeps_db (@throw A v).
Proof. intros w r w' E. inversion E. reflexivity. Qed.

Lemma keeps_console_write e : keeps_db (console_write e).
Proof. intros w r w' E. inversion E. reflexivity. Qed.

Lemma keeps_revalidatePath p : keeps_db (revalidatePath p).
Proof. intros w r w' E. inversion E. reflexivity. Qed.

Lemma keeps_external {A : Type} o (run : World -> JsValue + (A * Database)) :
  (forall w a d, run w = inr (a, d) -> d = db w) ->
  keeps_db (external o run).
Proof.
  intros Hrun w r w' E. apply external_outcome in E.
  destruct E as [(x & _ & ->) | (a & d & Hr & _ & ->)]; simpl; auto.
  eapply Hrun. eassumption.
Qed.

Lemma keeps_bind {A B : Type} (m : M A) (k : A -> M B) :
  keeps_db m -> (forall a, keeps_db (k a)) -> keeps_db (bind m k).
Proof.
  intros Hm Hk w r w' E. apply bind_inv in E.
  destruct E as [(v & E1 & _) | (a & w1 & E1 & E2)].
  - eauto.
  - rewrite (Hk _ _ _ _ E2). eauto.
Qed.

Ltac read_only_run :=
  let H := fresh "Hrun" in
  intros ? ? ? H; unfold reading, lift_read in H;
  repeat match type of H with
         | context [match ?x with _ => _ end] => destruct x
         end;
  inversion H; reflexivity.

Ltac keep_db :=
  autounfold with ops;
  repeat first
    [ apply keeps_ret
    | apply keeps_throw
    | apply keeps_console_write
    | apply keeps_revalidatePath
    | apply keeps_external; read_only_run
    | apply keeps_bind; [|intros ?]
    | match goal with
      | |- keeps_db (match ?x with _ => _ end) => destruct x
      end ].

Lemma nothing_ret {A : Type} (a : A) : revalidates_nothing (ret a).
Proof. intros w r w' E. inversion E. reflexivity. Qed.

Lemma nothing_throw {A : Type} (v : JsValue) : revalidates_nothing (@throw A v).
Proof. intros w r w' E. inversion E. reflexivity. Qed.

Lemma nothing_console_write e : revalidates_nothing (console_write e).
Proof. intros w r w' E. inversion E. reflexivity. Qed.

Lemma nothing_external {A : Type} o (run : World -> JsValue + (A * Database)) :
  revalidates_nothing (external o run).
Proof.
  intros w r w' E. apply external_outcome in E.
  destruct E as [(x & _ & ->) | (a & d & _ & _ & ->)]; reflexivity.
Qed.

Lemma nothing_bind {A B : Type} (m : M A) (k : A -> M B) :
  revalidates_nothing m -> (forall a, revalidates_nothing (k a)) ->
  revalidates_nothing (bind m k).
Proof.
  intros Hm Hk w r w' E. apply bind_inv in E.
  destruct E as [(v & E1 & _) | (a & w1 & E1 & E2)].
  - eauto.
  - rewrite (Hk _ _ _ _ E2). eauto.
Qed.

Lemma nothing_Promise_all2 {A B : Type} o1 o2
    (run1 : World -> JsValue + (A * Database))
    (run2 : World -> JsValue + (B * Database)) :
  revalidates_nothing (Promise_all2 (external o1 run1) (external o2 run2)).
Proof.
  intros w r w' E. unfold Promise_all2 in E.
  destruct (external o1 run1 w) as [r1 w1] eqn:E1.
  destruct (external o2 run2 w1) as [r2 w2] eqn:E2.
  apply nothing_external in E1. apply nothing_external in E2.
  destruct r1, r2; inversion E; subst; congruence.
Qed.

Lemma quiet_of_nothing {A : Type} (m : M A) :
  revalidates_nothing m -> quiet_on_throw m.
Proof. intros H w v w' E. eauto. Qed.

Lemma quiet_bind {A B : Type} (m : M A) (k : A -> M B) :
  revalidates_nothing m -> (forall a, quiet_on_throw (k a)) ->
  quiet_on_throw (bind m k).
Proof.
  intros Hm Hk w v w' E. apply bind_inv in E.
  destruct E as [(x & E1 & _) | (a & w1 & E1 & E2)].
  - eauto.
  - rewrite (Hk _ _ _ _ E2). eauto.
Qed.

(** The last steps of the writing functions: once the path is revalidated
    the value is returned. *)
Lemma quiet_revalidate_ret {A : Type} p (a : A) :
  quiet_on_throw (revalidatePath p ;; ret a).
Proof. intros w v w' E. discriminate. Qed.

Lemma quiet_maybe_revalidate_ret {A : Type} (c : bool) p (a : A) :
  quiet_on_throw ((if c then revalidatePath p else ret tt) ;; ret a).
Proof. intros w v w' E. destruct c; discriminate. Qed.

Ltac no_revalidation :=
  autounfold with ops;
  repeat first
    [ apply nothing_ret
    | apply nothing_throw
    | apply nothing_console_write
    | apply nothing_external
    | apply nothing_Promise_all2
    | apply nothing_bind; [|intros ?]
    | match goal with
      | |- revalidates_nothing (match ?x with _ => _ end) => destruct x
      end ].

Ltac quiet :=
  autounfold with ops;
  repeat first
    [ apply quiet_revalidate_ret
    | apply quiet_maybe_revalidate_ret
    | apply quiet_bind; [no_revalidation|intros ?]
    | match goal with
      | |- quiet_on_throw (match ?x with _ => _ end) => destruct x
      end
    | apply quiet_of_nothing; no_revalidation ].

Section Frames.
Context {RT : Runtime}.

Lemma keeps_try {A : Type} (m : M A) :
  keeps_db m -> keeps_db (try m catch handleError).
Proof.
  intros Hm w r w' E. apply try_handleError_inv in E.
  destruct E as [(a & Em & _) | (v & w1 & Em & Hd & _)].
  - eauto.
  - rewrite Hd. eauto.
Qed.

Lemma quiet_try {A : Type} (m : M A) :
  quiet_on_throw m -> quiet_on_throw (try m catch handleError).
Proof.
  intros Hm w v w' E. unfold try_catch in E.
  destruct (m w) as [[a|x] w1] eqn:Em; [discriminate|].
  unfold handleError, bind, console_write, throw in E. inversion E; subst.
  simpl. eauto.
Qed.

(** X1. The query functions ([getUserById], [getAllCategories],
    [getEventById], both versions of [getAllEvents],
    [getRelatedEventsByCategory], [getEventsByUser], [getOrdersByEvent] and
    [getOrdersByUser]) leave the database as they found it, whether they
    return or throw. *)
Theorem queries_keep_database :
  forall (a : Action) w r w',
    reads_only a = true ->
    run_action a w = (r, w') ->
    db w' = db w.
Proof.
  intros a w r w' Ha E. revert w r w' E.
  change (keeps_db (run_action a)).
  destruct a; try discriminate; simpl; apply keeps_try; keep_db.
Qed.

(** X2. An invocation of a data-access function that throws has revalidated
    no path: [revalidatePath] is the last step before the value is
    returned. *)
Theorem no_revalidation_on_throw :
  forall (a : Action) w v w',
    run_action a w = (Throw v, w') ->
    revalidated w' = revalidated w.
Proof.
  intros a. change (quiet_on_throw (run_action a)).
  destruct a; simpl; apply quiet_try; quiet.
Qed.

End Frames.

(** X1, on a world whose store fails during the category lookup, and X2, on
    the edit Bob may not make. *)
Lemma queries_keep_database_witness :
  db (snd (@run_action sample_runtime (call_getAllEvents sample_search) failing_world))
  = db failing_world.
Proof.
  eapply (@queries_keep_database sample_runtime (call_getAllEvents sample_search));
    [reflexivity | apply surjective_pairing].
Defined.

Lemma no_revalidation_on_throw_witness :
  exists v w',
    @run_action sample_runtime (call_updateEvent edit_by_bob) sample_world
    = (Throw v, w') /\
    revalidated w' = revalidated sample_world.
Proof.
  eexists. eexists. split; [vm_compute; reflexivity|].
  eapply (@no_revalidation_on_throw sample_runtime (call_updateEvent edit_by_bob)).
  vm_compute. reflexivity.
Defined.

(* ------------------------------------------------------------------------- *)
(** ** Stepping through a calm world *)

Lemma calm_write_console w e : calm w = true -> calm (write_console w e) = true.
Proof. intros H. exact H. Qed.

Lemma calm_add_revalidated w p : calm w = true -> calm (add_revalidated w p) = true.
Proof. intros H. exact H. Qed.

Ltac calm_now :=
  first [ assumption
        | apply calm_performed; calm_now
        | apply calm_write_console; calm_now
        | apply calm_add_revalidated; calm_now ].

Ltac step_connect :=
  match goal with
  | |- context [bind connectToDatabase ?k ?w] =>
      rewrite (bind_step connectToDatabase k w _ _ (connect_calm w ltac:(calm_now)))
  end.

Ltac step_external :=
  erewrite bind_step by (apply external_calm; [calm_now | reflexivity]).

Lemma find_app_last {A : Type} (p : A -> bool) l x :
  (forall y, In y l -> p y = false) -> p x = true ->
  find p (l ++ [x]) = Some x.
Proof.
  intros Hl Hx. induction l as [|y l IH]; simpl.
  - rewrite Hx. reflexivity.
  - rewrite (Hl y) by (left; reflexivity). apply IH.
    intros z Hz. apply Hl. right. assumption.
Qed.

Lemma find_none_iff {A : Type} (p : A -> bool) l :
  find p l = None <-> forall y, In y l -> p y = false.
Proof.
  split.
  - apply find_none.
  - intros H. induction l as [|y l IH]; simpl; [reflexivity|].
    rewrite (H y) by (left; reflexivity). apply IH.
    intros z Hz. apply H. right. assumption.
Qed.

Lemma update_first_none {A : Type} (p : A -> bool) f l :
  find p l = None -> update_first p f l = l.
Proof.
  induction l as [|x l IH]; simpl; [reflexivity|].
  destruct (p x); [discriminate|]. intros H. rewrite IH by assumption.
  reflexivity.
Qed.

Lemma update_first_length {A : Type} (p : A -> bool) f l :
  List.length (update_first p f l) = List.length l.
Proof.
  induction l as [|x l IH]; simpl; [reflexivity|].
  destruct (p x); simpl; congruence.
Qed.

Lemma remove_first_none {A : Type} (p : A -> bool) l :
  find p l = None -> remove_first p l = l.
Proof.
  induction l as [|x l IH]; simpl; [reflexivity|].
  destruct (p x); [discriminate|]. intros H. rewrite IH by assumption.
  reflexivity.
Qed.

(* ------------------------------------------------------------------------- *)
(** ** The user actions *)

Section UserActions.
Context {RT : Runtime}.

(** X3. In a calm world where no user carries the identifier the driver
    generates next, [createUser] stores the new user at the end of the
    collection and returns it, and [getUserById] on the identifier of the
    returned user then returns the same user. *)
Theorem createUser_then_getUserById :
  forall user w,
    calm w = true ->
    (forall u, In u (users (db w)) -> u_id u <> created_id w) ->
    exists u w1 w2,
      createUser user w = (Return (RUser u), w1) /\
      clerkId u = cu_clerkId user /\
      users (db w1) = users (db w) ++ [u] /\
      getUserById (u_id u) w1 = (Return (RUser u), w2).
Proof.
  intros user w Hc Hfresh.
  unfold createUser, try_catch. step_connect.
  unfold User_create. step_external.
  unfold ret. cbn [db performed trace].
  rewrite length_app, Nat.add_1_r. cbn [List.length].
  fold (created_id w).
  eexists. eexists. eexists. split; [reflexivity|].
  split; [reflexivity|]. split; [reflexivity|].
  unfold getUserById, try_catch.
  step_connect. unfold User_findById. step_external.
  cbn [db performed set_users users].
  rewrite find_app_last.
  - reflexivity.
  - intros y Hy. cbn [u_id]. apply String.eqb_neq. apply Hfresh. assumption.
  - cbn [u_id]. apply String.eqb_refl.
Qed.

(** X5. [updateUser] never adds or removes a user and never touches the
    events, the categories or the orders; on a [clerkId] that no user has
    it throws and the database is left as it was. *)
Theorem updateUser_frame :
  (forall clerk user w r w',
      updateUser clerk user w = (r, w') ->
      List.length (users (db w')) = List.length (users (db w)) /\
      events (db w') = events (db w) /\
      categories (db w') = categories (db w) /\
      orders (db w') = orders (db w)) /\
  (forall clerk user w,
      find (fun u => (clerkId u =? clerk)%string) (users (db w)) = None ->
      exists v w', updateUser clerk user w = (Throw v, w') /\ db w' = db w).
Proof.
  assert (Hbody : forall clerk user w r w',
             (connectToDatabase ;;
              updatedUser <- User_findOneAndUpdate clerk user ;;
              match updatedUser with
              | None => throw (new_Error (Some "User update failed"))
              | Some u => ret (RUser (JSON_roundtrip u))
              end) w = (r, w') ->
             (db w' = db w \/
              db w' = set_users (db w)
                        (update_first (fun u => (clerkId u =? clerk)%string)
                           (apply_user_update user) (users (db w)))) /\
             (find (fun u => (clerkId u =? clerk)%string) (users (db w)) = None ->
              exists v, r = Throw v)).
  { intros clerk user w r w' E. apply bind_inv in E.
    destruct E as [(v & E1 & ->) | (u & w1 & E1 & E)];
      apply connect_inv in E1; [eauto|].
    apply bind_inv in E.
    destruct E as [(v & E2 & ->) | (a & w2 & E2 & E)];
      apply external_outcome in E2.
    - destruct E2 as [(x & _ & ->) | (a & d & _ & Hr & _)]; [|discriminate].
      simpl. eauto.
    - destruct E2 as [(x & Hr & _) | (a' & d & Hrun & Hr & ->)]; [discriminate|].
      inversion Hr; subst a'. inversion Hrun; subst. clear Hrun Hr.
      rewrite E1 in *. split.
      + right. destruct (find _ (users (db w))); inversion E; reflexivity.
      + intros Hn. rewrite Hn in E. inversion E. eauto. }
  split.
  - intros clerk user w r w' E. unfold updateUser in E.
    apply try_handleError_inv in E.
    destruct E as [(a & Em & _) | (v & w1 & Em & Hd & _)];
      apply Hbody in Em; destruct Em as [[Hk|Hk] _];
      rewrite ?Hd, Hk; simpl; rewrite ?update_first_length; auto.
  - intros clerk user w Hn. unfold updateUser. apply throwing_body.
    intros r w' E. apply Hbody in E. destruct E as [[Hk|Hk] Ht].
    + auto.
    + split; [auto|]. rewrite Hk, update_first_none by assumption.
      destruct (db w). reflexivity.
Qed.

End UserActions.

(** X3, on the sample database. *)
Lemma createUser_then_getUserById_witness :
  exists u w1 w2,
    @createUser sample_runtime sample_new_user sample_world = (Return (RUser u), w1) /\
    clerkId u = "clerk_carol" /\
    users (db w1) = [alice; bob; u] /\
    @getUserById sample_runtime (u_id u) w1 = (Return (RUser u), w2).
Proof.
  apply (@createUser_then_getUserById sample_runtime sample_new_user sample_world).
  - reflexivity.
  - intros u [<-|[<-|[]]]; vm_compute; discriminate.
Defined.

(** X5, on the sample database: renaming a user nobody is. *)
Lemma updateUser_frame_witness :
  (exists v w',
      @updateUser sample_runtime "clerk_nobody" sample_rename sample_world
      = (Throw v, w') /\ db w' = db sample_world) /\
  List.length
    (users (db (snd (@updateUser sample_runtime "clerk_bob" sample_rename sample_world))))
  = 2%nat.
Proof.
  destruct (@updateUser_frame sample_runtime) as [H1 H2].
  split.
  - apply H2. reflexivity.
  - destruct (H1 "clerk_bob" sample_rename sample_world _ _ (surjective_pairing _))
      as (Hl & _).
    exact Hl.
Defined.

(* ------------------------------------------------------------------------- *)
(** ** The errors the functions raise themselves *)

Lemma set_users_same d : set_users d (users d) = d.
Proof. destruct d. reflexivity. Qed.

Lemma set_events_same d : set_events d (events d) = d.
Proof. destruct d. reflexivity. Qed.

Section OwnErrors.
Context {RT : Runtime}.

Lemma getEventById_missing eventId w :
  calm w = true ->
  find (fun e => (e_id e =? eventId)%string) (events (db w)) = None ->
  exists w',
    getEventById eventId w = (Throw (rewrapped "Event not found"), w') /\
    db w' = db w /\
    console w' = console w ++ [console_error (new_Error (Some "Event not found"))].
Proof.
  intros Hc Hn. unfold getEventById, try_catch. step_connect.
  step_external. cbn [db performed]. rewrite Hn.
  eexists. split; [reflexivity|]. split; reflexivity.
Qed.

(** X4. In a calm world, the error a function raises itself when a document
    is missing (or the event identifier is empty, or the caller is not the
    organizer) reaches the caller as a new [Error] whose message is the JSON
    serialization of the raised error object, not its text; the raised error
    is written to the console, and the database is left as it was. *)
Theorem own_errors_are_rewrapped :
  (forall userId w,
      calm w = true ->
      find (fun u => (u_id u =? userId)%string) (users (db w)) = None ->
      exists w',
        getUserById userId w = (Throw (rewrapped "User not found"), w') /\
        db w' = db w /\
        console w' = console w ++ [console_error (new_Error (Some "User not found"))]) /\
  (forall clerk user w,
      calm w = true ->
      find (fun u => (clerkId u =? clerk)%string) (users (db w)) = None ->
      exists w',
        updateUser clerk user w = (Throw (rewrapped "User update failed"), w') /\
        db w' = db w /\
        console w' = console w ++ [console_error (new_Error (Some "User update failed"))]) /\
  (forall clerk w,
      calm w = true ->
      find (fun u => (clerkId u =? clerk)%string) (users (db w)) = None ->
      exists w',
        deleteUser clerk w = (Throw (rewrapped "User not found"), w') /\
        db w' = db w /\
        console w' = console w ++ [console_error (new_Error (Some "User not found"))]) /\
  (forall eventId w,
      calm w = true ->
      find (fun e => (e_id e =? eventId)%string) (events (db w)) = None ->
      exists w',
        getEventById eventId w = (Throw (rewrapped "Event not found"), w') /\
        db w' = db w /\
        console w' = console w ++ [console_error (new_Error (Some "Event not found"))]) /\
  (forall p w,
      calm w = true ->
      find (fun u => (u_id u =? ce_userId p)%string) (users (db w)) = None ->
      exists w',
        createEvent p w = (Throw (rewrapped "Organizer not found"), w') /\
        db w' = db w /\
        console w'
        = console w
          ++ [console_log (JObject [("category", JString (ef_categoryId (ce_event p)))]);
              console_error (new_Error (Some "Organizer not found"))]) /\
  (forall p w,
      calm w = true ->
      (event_to_update p w = None \/
       exists e o, event_to_update p w = Some e /\ organizer e = Some o /\
                   o <> ue_userId p) ->
      exists w',
        updateEvent p w
        = (Throw (rewrapped "Unauthorized or event not found"), w') /\
        db w' = db w /\
        console w'
        = console w
          ++ [console_error (new_Error (Some "Unauthorized or event not found"))]) /\
  (forall p w,
      calm w = true ->
      goe_eventId p = "" ->
      exists w',
        getOrdersByEvent p w = (Throw (rewrapped "Event ID is required"), w') /\
        db w' = db w /\
        console w' = console w ++ [console_error (new_Error (Some "Event ID is required"))]).
Proof.
  repeat split.
  - intros userId w Hc Hn. unfold getUserById, try_catch. step_connect.
    unfold User_findById. step_external. cbn [db performed]. rewrite Hn.
    eexists. split; [reflexivity|]. split; reflexivity.
  - intros clerk user w Hc Hn. unfold updateUser, try_catch. step_connect.
    unfold User_findOneAndUpdate. step_external. cbn [db performed].
    rewrite Hn, update_first_none by assumption. rewrite set_users_same.
    eexists. split; [reflexivity|]. split; reflexivity.
  - intros clerk w Hc Hn. unfold deleteUser, try_catch. step_connect.
    unfold User_findOne. step_external. cbn [db performed]. rewrite Hn.
    eexists. split; [reflexivity|]. split; reflexivity.
  - apply getEventById_missing.
  - intros p w Hc Hn. unfold createEvent, try_catch. step_connect.
    unfold bind at 1. unfold console_write at 1.
    unfold User_findById.
    step_external. cbn [db performed write_console]. rewrite Hn.
    eexists. split; [reflexivity|]. split; [reflexivity|].
    simpl. rewrite <- app_assoc. reflexivity.
  - intros p w Hc H. unfold updateEvent, try_catch. step_connect.
    unfold Event_findById. step_external. cbn [db performed].
    fold (event_to_update p w).
    destruct H as [Hn | (e & o & He & Ho & Hne)].
    + rewrite Hn. eexists. split; [reflexivity|]. split; reflexivity.
    + rewrite He. unfold bind at 2. unfold toHexString. rewrite Ho.
      unfold ret at 1. unfold bind at 1. unfold ret at 1.
      apply String.eqb_neq in Hne. rewrite Hne.
      eexists. split; [reflexivity|]. split; reflexivity.
  - intros p w Hc Hid. unfold getOrdersByEvent, try_catch. step_connect.
    rewrite Hid.
    eexists. split; [reflexivity|]. split; reflexivity.
Qed.

End OwnErrors.

(** X4, on the sample database: a user nobody is, and a search for the
    orders of no event. *)
Lemma own_errors_are_rewrapped_witness :
  (exists w',
      @getUserById sample_runtime "65a0000000000000000000ff" sample_world
      = (Throw (JError "Error" "{}"), w') /\
      console w' = [console_error (JError "Error" "User not found")]) /\
  (exists w',
      @getOrdersByEvent sample_runtime orders_of_nothing sample_world
      = (Throw (JError "Error" "{}"), w') /\
      console w' = [console_error (JError "Error" "Event ID is required")]).
Proof.
  destruct (@own_errors_are_rewrapped sample_runtime)
    as (H1 & _ & _ & _ & _ & _ & H7).
  split.
  - destruct (H1 "65a0000000000000000000ff" sample_world eq_refl eq_refl)
      as (w' & E & _ & Hc).
    exists w'. split; [exact E | exact Hc].
  - destruct (H7 orders_of_nothing sample_world eq_refl eq_refl)
      as (w' & E & _ & Hc).
    exists w'. split; [exact E | exact Hc].
Defined.

(* ------------------------------------------------------------------------- *)
(** ** Creating and deleting events *)

Lemma filter_app_last_length {A : Type} (p : A -> bool) l x :
  p x = true ->
  Z.of_nat (List.length (filter p (l ++ [x])))
  = Z.of_nat (List.length (filter p l)) + 1.
Proof.
  intros Hx. rewrite filter_app, length_app. simpl. rewrite Hx. simpl. lia.
Qed.

Lemma find_remove_first_events id l :
  NoDup (map e_id l) ->
  find (fun e => (e_id e =? id)%string)
       (remove_first (fun e => (e_id e =? id)%string) l) = None.
Proof.
  induction l as [|x l IH]; simpl; intros Hn; [reflexivity|].
  inversion Hn; subst.
  destruct (String.eqb_spec (e_id x) id) as [Heq|Hne].
  - apply find_none_iff. intros y Hy. apply String.eqb_neq. intros Hy'.
    apply H1. rewrite Heq, <- Hy'. apply in_map. assumption.
  - simpl. apply String.eqb_neq in Hne. rewrite Hne. auto.
Qed.

Lemma find_remove_first_users id l :
  NoDup (map u_id l) ->
  find (fun u => (u_id u =? id)%string)
       (remove_first (fun u => (u_id u =? id)%string) l) = None.
Proof.
  induction l as [|x l IH]; simpl; intros Hn; [reflexivity|].
  inversion Hn; subst.
  destruct (String.eqb_spec (u_id x) id) as [Heq|Hne].
  - apply find_none_iff. intros y Hy. apply String.eqb_neq. intros Hy'.
    apply H1. rewrite Heq, <- Hy'. apply in_map. assumption.
  - simpl. apply String.eqb_neq in Hne. rewrite Hne. auto.
Qed.

Section EventWrites.
Context {RT : Runtime}.

Lemma createEvent_calm p w u :
  calm w = true ->
  find (fun x => (u_id x =? ce_userId p)%string) (users (db w)) = Some u ->
  exists e w',
    createEvent p w = (Return (REvent e), w') /\
    calm w' = true /\
    organizer e = Some (ce_userId p) /\
    category e = Some (ef_categoryId (ce_event p)) /\
    db w' = set_events (db w) (events (db w) ++ [e]) /\
    revalidated w' = revalidated w ++ [ce_path p].
Proof.
  intros Hc Hu. unfold createEvent, try_catch. step_connect.
  unfold bind at 1. unfold console_write at 1.
  unfold User_findById. step_external. cbn [db performed write_console].
  rewrite Hu. unfold throw_if. cbn [is_some negb].
  unfold bind at 1. unfold ret at 1.
  unfold Event_create. step_external.
  unfold bind, revalidatePath, ret.
  cbn [db performed write_console add_revalidated revalidated].
  eexists. eexists. split; [reflexivity|]. split; [calm_now|].
  repeat split.
Qed.

(** X6. In a calm world where the organizer exists, [createEvent] appends
    one event whose organizer is [userId] and whose category is
    [event.categoryId], leaves the users as they were (the event is not
    recorded in the [events] of its organizer), revalidates the path, and
    the number of events [getEventsByUser] counts for [userId] grows by
    one. *)
Theorem createEvent_appends :
  forall p w u,
    calm w = true ->
    find (fun x => (u_id x =? ce_userId p)%string) (users (db w)) = Some u ->
    exists e w',
      createEvent p w = (Return (REvent e), w') /\
      organizer e = Some (ce_userId p) /\
      category e = Some (ef_categoryId (ce_event p)) /\
      events (db w') = events (db w) ++ [e] /\
      users (db w') = users (db w) /\
      revalidated w' = revalidated w ++ [ce_path p] /\
      matching_events (cond_organizer (ce_userId p)) (db w')
      = matching_events (cond_organizer (ce_userId p)) (db w) + 1.
Proof.
  intros p w u Hc Hu.
  destruct (createEvent_calm p w u Hc Hu) as (e & w' & E & _ & Ho & Hcat & Hd & Hr).
  exists e, w'. rewrite Hd. cbn [set_events events users].
  repeat split; auto.
  unfold matching_events. simpl.
  apply filter_app_last_length. simpl. rewrite Ho. simpl. apply String.eqb_refl.
Qed.

(** X9. [deleteUser] does not reach the events a user created: in a calm
    world with distinct user identifiers, after [createEvent] by a user
    whose [events] list is empty, [deleteUser] of that user returns and
    removes the user, while the created event is still stored with the
    deleted user as its organizer. *)
Theorem createEvent_then_deleteUser :
  forall p w u,
    calm w = true ->
    NoDup (map u_id (users (db w))) ->
    find (fun x => (u_id x =? ce_userId p)%string) (users (db w)) = Some u ->
    find (fun x => (clerkId x =? clerkId u)%string) (users (db w)) = Some u ->
    u_events u = [] ->
    exists e w1 r w2,
      createEvent p w = (Return (REvent e), w1) /\
      deleteUser (clerkId u) w1 = (Return r, w2) /\
      find (fun x => (u_id x =? u_id u)%string) (users (db w2)) = None /\
      In e (events (db w2)) /\
      organizer e = Some (u_id u).
Proof.
  intros p w u Hc Hn Hu Hclerk Hev.
  destruct (createEvent_calm p w u Hc Hu) as (e & w1 & E1 & Hc1 & Ho & _ & Hd & _).
  assert (Hid : ce_userId p = u_id u).
  { apply find_some in Hu. destruct Hu as [_ Hu].
    apply String.eqb_eq in Hu. congruence. }
  destruct (deleteUser_cascade (clerkId u) w1 u Hc1) as (w2 & E2 & _ & Hd2).
  - rewrite Hd. exact Hclerk.
  - rewrite Hev. apply not_true_is_false. intros H.
    apply existsb_exists in H. destruct H as (x & _ & H). discriminate.
  - eexists e, w1, _, w2. split; [exact E1|]. split; [exact E2|].
    rewrite Hd2, Hd. cbn [set_users set_orders set_events users events].
    split; [apply find_remove_first_users; assumption|].
    split; [apply in_or_app; right; left; reflexivity | rewrite <- Hid; exact Ho].
Qed.

Lemma deleteEvent_calm p w e :
  calm w = true ->
  find (fun x => (e_id x =? de_eventId p)%string) (events (db w)) = Some e ->
  exists w1,
    deleteEvent p w = (Return RUndefined, w1) /\
    calm w1 = true /\
    db w1 = set_events (db w)
              (remove_first (fun x => (e_id x =? de_eventId p)%string)
                 (events (db w))) /\
    revalidated w1 = revalidated w ++ [de_path p].
Proof.
  intros Hc He. unfold deleteEvent, try_catch. step_connect.
  unfold Event_findByIdAndDelete. step_external. cbn [db performed].
  rewrite He. cbn [is_some].
  unfold bind, revalidatePath, ret. cbn [db performed add_revalidated].
  eexists. split; [reflexivity|]. split; [calm_now|]. split; reflexivity.
Qed.

(** X7. In a calm world whose events have distinct identifiers,
    [deleteEvent] of a stored event returns, removes that event, keeps every
    order, and revalidates the path; [getEventById] then throws for the
    identifier.  No [userId] is asked for: unlike [updateEvent], the
    deletion is not reserved to the organizer. *)
Theorem deleteEvent_then_getEventById :
  forall p w e,
    calm w = true ->
    NoDup (map e_id (events (db w))) ->
    find (fun x => (e_id x =? de_eventId p)%string) (events (db w)) = Some e ->
    exists w1 w2,
      deleteEvent p w = (Return RUndefined, w1) /\
      events (db w1)
      = remove_first (fun x => (e_id x =? de_eventId p)%string) (events (db w)) /\
      orders (db w1) = orders (db w) /\
      revalidated w1 = revalidated w ++ [de_path p] /\
      getEventById (de_eventId p) w1
      = (Throw (rewrapped "Event not found"), w2).
Proof.
  intros p w e Hc Hn He.
  destruct (deleteEvent_calm p w e Hc He) as (w1 & E1 & Hc1 & Hd & Hr).
  destruct (getEventById_missing (de_eventId p) w1 Hc1) as (w2 & E2 & _).
  { rewrite Hd. cbn [set_events events].
    apply find_remove_first_events. assumption. }
  exists w1, w2. rewrite Hd. cbn [set_events events orders]. auto.
Qed.

(** X8. The orders of a deleted event stay in the store, but
    [getOrdersByEvent] no longer lists them: after [deleteEvent] in a calm
    world with distinct event identifiers, a search with a text in which
    [new ObjectId] reads the identifier of the deleted event (the
    identifier itself, or the same digits in another case) returns the
    empty list for every search string that compiles. *)
Theorem deleteEvent_orphans_orders :
  forall p w e x s re,
    calm w = true ->
    NoDup (map e_id (events (db w))) ->
    find (fun x => (e_id x =? de_eventId p)%string) (events (db w)) = Some e ->
    x <> "" ->
    ObjectId_hex x = Some (de_eventId p) ->
    regex_i s = Some re ->
    exists w1 w2,
      deleteEvent p w = (Return RUndefined, w1) /\
      orders (db w1) = orders (db w) /\
      getOrdersByEvent {| goe_eventId := x; goe_searchString := s |} w1
      = (Return (ROrderItems []), w2).
Proof.
  intros p w e x s re Hc Hn He Hid Hv Hre.
  destruct (deleteEvent_calm p w e Hc He) as (w1 & E1 & Hc1 & Hd & Hr).
  destruct (getOrdersByEvent_calm
              {| goe_eventId := x; goe_searchString := s |} w1
              (de_eventId p) re Hc1 Hid Hv Hre) as (w2 & E2).
  exists w1, w2. split; [exact E1|]. split; [rewrite Hd; reflexivity|].
  rewrite E2. cbn [goe_eventId].
  destruct (pipeline (de_eventId p) re (db w1)) as [|i items] eqn:Ep;
    [reflexivity|].
  exfalso.
  assert (Hi : In i (pipeline (de_eventId p) re (db w1))) by (rewrite Ep; left; reflexivity).
  apply pipeline_exact in Hi.
  destruct Hi as (o & u & ev & _ & _ & Hev & _ & _ & Hid' & _).
  rewrite Hd in Hev. cbn [set_events events] in Hev.
  pose proof (find_remove_first_events (de_eventId p) _ Hn) as Hnone.
  rewrite find_none_iff in Hnone. specialize (Hnone _ Hev).
  apply String.eqb_neq in Hnone. contradiction.
Qed.

End EventWrites.

(** X6, X7 and X8 on the sample database: Bob creates an event, and the
    meetup, for which Bob holds an order, is deleted. *)
Lemma createEvent_appends_witness :
  exists e w',
    @createEvent sample_runtime sample_new_event sample_world = (Return (REvent e), w') /\
    events (db w') = [meetup; concert; e] /\
    organizer e = Some id_bob.
Proof.
  destruct (@createEvent_appends sample_runtime sample_new_event sample_world bob
              eq_refl eq_refl) as (e & w' & E & Ho & _ & Hev & _).
  exists e, w'. split; [exact E|]. split; [exact Hev | exact Ho].
Defined.

Lemma createEvent_then_deleteUser_witness :
  exists e w1 r w2,
    @createEvent sample_runtime sample_new_event sample_world = (Return (REvent e), w1) /\
    @deleteUser sample_runtime "clerk_bob" w1 = (Return r, w2) /\
    users (db w2) = [alice] /\
    In e (events (db w2)) /\
    organizer e = Some id_bob.
Proof.
  destruct (@createEvent_then_deleteUser sample_runtime sample_new_event
              sample_world bob eq_refl) as (e & w1 & r & w2 & E1 & E2 & _ & He & Ho);
    try reflexivity.
  - simpl. repeat constructor; simpl; intuition discriminate.
  - exists e, w1, r, w2. split; [exact E1|]. split; [exact E2|].
    split; [|split; [exact He | exact Ho]].
    revert E2. clear - E1. revert E1. vm_compute.
    intros E1 E2. inversion E1; subst. inversion E2. reflexivity.
Defined.

Lemma sample_event_ids_distinct : NoDup (map e_id (events (db sample_world))).
Proof.
  simpl. repeat constructor; simpl; intuition discriminate.
Defined.

Lemma deleteEvent_then_getEventById_witness :
  exists w1 w2,
    @deleteEvent sample_runtime sample_delete_meetup sample_world
    = (Return RUndefined, w1) /\
    events (db w1) = [concert] /\
    @getEventById sample_runtime id_meetup w1 = (Throw (JError "Error" "{}"), w2).
Proof.
  destruct (@deleteEvent_then_getEventById sample_runtime sample_delete_meetup
              sample_world meetup eq_refl sample_event_ids_distinct eq_refl)
    as (w1 & w2 & E1 & Hev & _ & _ & E2).
  exists w1, w2. split; [exact E1|]. split; [exact Hev | exact E2].
Defined.

Lemma deleteEvent_orphans_orders_witness :
  exists w1 w2,
    @deleteEvent sample_runtime sample_delete_meetup sample_world
    = (Return RUndefined, w1) /\
    orders (db w1) = [order1; order2] /\
    @getOrdersByEvent sample_runtime orders_of_meetup w1
    = (Return (ROrderItems []), w2).
Proof.
  apply (@deleteEvent_orphans_orders sample_runtime sample_delete_meetup
           sample_world meetup id_meetup "bob"
           (fun s => is_some (String.index 0 "bob" (lowercase s))));
    try reflexivity.
  - exact sample_event_ids_distinct.
  - discriminate.
Defined.

(* ------------------------------------------------------------------------- *)
(** ** Pages *)

Lemma insert_desc_descending {A : Type} (key : A -> Z) x l :
  descending (map key l) -> descending (map key (insert_desc key x l)).
Proof.
  unfold descending. induction l as [|y l IH]; simpl; intros Hs.
  - repeat constructor.
  - inversion Hs; subst. destruct (key y <=? key x) eqn:E; simpl.
    + apply Z.leb_le in E. constructor; [assumption|].
      constructor; [assumption|].
      eapply Forall_impl; [|eassumption]. simpl. intros a Ha. lia.
    + apply Z.leb_gt in E. constructor; [auto|].
      apply Forall_forall. intros a Ha. apply in_map_iff in Ha.
      destruct Ha as (z & <- & Hz). apply in_insert_desc in Hz.
      destruct Hz as [->|Hz]; [lia|].
      rewrite Forall_forall in H2. apply H2. apply in_map. assumption.
Qed.

Lemma sort_desc_descending {A : Type} (key : A -> Z) l :
  descending (map key (sort_desc key l)).
Proof.
  induction l as [|x l IH]; simpl.
  - constructor.
  - apply insert_desc_descending. assumption.
Qed.

Lemma descending_skipn n l : descending l -> descending (skipn n l).
Proof.
  unfold descending. revert l. induction n as [|n IH]; intros [|x l] Hs; simpl; auto.
  inversion Hs; subst. auto.
Qed.

Lemma descending_firstn n l : descending l -> descending (firstn n l).
Proof.
  unfold descending. revert l.
  induction n as [|n IH]; intros [|x l] Hs; simpl; try constructor.
  - inversion Hs; subst. auto.
  - inversion Hs; subst. apply Forall_forall. intros a Ha.
    rewrite Forall_forall in H2. apply H2. eapply in_firstn. eassumption.
Qed.

Lemma descending_page {A : Type} (key : A -> Z) limit s (l : list A) :
  descending (map key l) ->
  descending (map key (apply_limit limit (skipn s l))).
Proof.
  intros Hs. unfold apply_limit. destruct (limit =? 0).
  - rewrite <- skipn_map. apply descending_skipn. assumption.
  - rewrite <- firstn_map, <- skipn_map.
    apply descending_firstn, descending_skipn. assumption.
Qed.

Lemma apply_limit_length {A : Type} limit (l : list A) :
  0 < limit -> Z.of_nat (List.length (apply_limit limit l)) <= limit.
Proof.
  intros Hl. unfold apply_limit.
  destruct (limit =? 0) eqn:E; [apply Z.eqb_eq in E; lia|].
  pose proof (firstn_le_length (Z.to_nat (Z.abs limit)) l). lia.
Qed.

Lemma in_apply_limit {A : Type} limit s (l : list A) y :
  In y (apply_limit limit (skipn s l)) -> In y l.
Proof.
  unfold apply_limit. destruct (limit =? 0); intros H.
  - eapply in_skipn; eassumption.
  - eapply in_skipn. eapply in_firstn. eassumption.
Qed.

Section Pages.
Context {RT : Runtime}.

(** The page an events query returns. *)
Lemma events_page_data c s l w r w' :
  (events <- Event_find c s l ;;
   eventsCount <- Event_countDocuments c ;;
   ret (REventsPage (JSON_roundtrip events) (Math_ceil (js_div eventsCount l)))) w
  = (Return r, w') ->
  exists f t,
    eval_cond c = Some f /\
    r = REventsPage
          (map (populateEvent (db w))
               (apply_limit l
                  (skipn (Z.to_nat s)
                     (sort_desc createdAt (filter f (events (db w)))))))
          t.
Proof.
  intros E.
  apply bind_Return in E. destruct E as (evs & w1 & E1 & E).
  apply bind_Return in E. destruct E as (n & w2 & E2 & E).
  apply ret_Return in E. destruct E as [<- _].
  apply external_Return in E1. destruct E1 as (d & Hr & _).
  unfold find_events, cursor in Hr.
  destruct (eval_cond c) as [f|]; [|discriminate].
  destruct (s <? 0); inversion Hr; subst.
  exists f. eexists. split; reflexivity.
Qed.

Lemma page_properties f l s d :
  let data := map (populateEvent d)
                (apply_limit l (skipn s (sort_desc createdAt (filter f (events d))))) in
  (0 < l -> Z.of_nat (List.length data) <= l) /\
  descending (map (fun pe => createdAt (pe_event pe)) data) /\
  (forall pe, In pe data -> In (pe_event pe) (events d) /\ f (pe_event pe) = true).
Proof.
  simpl. split; [|split].
  - intros Hl. rewrite length_map. apply apply_limit_length. assumption.
  - rewrite map_map. simpl. apply descending_page. apply sort_desc_descending.
  - intros pe Hin. apply in_map_iff in Hin. destruct Hin as (e & <- & He).
    simpl. apply in_apply_limit in He. apply in_sort_desc in He.
    apply filter_In in He. assumption.
Qed.

Lemma getEventsByUser_data p w r w' :
  getEventsByUser p w = (Return r, w') ->
  exists t,
    r = REventsPage
          (map (populateEvent (db w))
               (page_of (default_to 6 (gu_limit p)) (gu_page p)
                  (events_by_user (gu_userId p) (db w))))
          t.
Proof.
  unfold getEventsByUser. intros E.
  apply try_handleError_Return in E.
  apply bind_Return in E. destruct E as (u & w1 & E1 & E).
  apply connect_Return in E1.
  apply events_page_data in E. destruct E as (f & t & Hf & ->).
  inversion Hf; subst. rewrite E1. eauto.
Qed.

Lemma getRelatedEventsByCategory_data p w r w' :
  getRelatedEventsByCategory p w = (Return r, w') ->
  exists t,
    r = REventsPage
          (map (populateEvent (db w))
               (page_of (default_to 3 (gr_limit p)) (default_to 1 (gr_page p))
                  (sort_desc createdAt
                     (filter (fun e => ref_is (category e) (gr_categoryId p)
                                       && negb (e_id e =? gr_eventId p)%string)
                             (events (db w))))))
          t.
Proof.
  unfold getRelatedEventsByCategory. intros E.
  apply try_handleError_Return in E.
  apply bind_Return in E. destruct E as (u & w1 & E1 & E).
  apply connect_Return in E1.
  apply events_page_data in E. destruct E as (f & t & Hf & ->).
  inversion Hf; subst. rewrite E1. eauto.
Qed.

Lemma getAllEvents_data p w r w' :
  getAllEvents p w = (Return r, w') ->
  exists f t,
    eval_cond (getAllEvents_conditions (ga_query p)
                 (resolved_category (ga_category p) (db w))) = Some f /\
    r = REventsPage
          (map (populateEvent (db w))
               (page_of (default_to 6 (ga_limit p)) (ga_page p)
                  (sort_desc createdAt (filter f (events (db w))))))
          t.
Proof.
  unfold getAllEvents. intros E.
  apply try_handleError_Return in E.
  apply bind_Return in E. destruct E as (u & w1 & E1 & E).
  apply connect_Return in E1.
  apply bind_Return in E. destruct E as (c & w2 & E2 & E).
  apply events_page_data in E. destruct E as (f & t & Hf & ->).
  assert (Hc : c = resolved_category (ga_category p) (db w) /\ db w2 = db w).
  { unfold resolved_category. destruct (truthy (ga_category p)).
    - apply getCategoryByName_Return in E2. destruct E2 as [Hc Hd].
      rewrite E1 in Hc. rewrite Hc. split; [reflexivity | congruence].
    - apply ret_Return in E2. destruct E2 as [<- <-]. auto. }
  destruct Hc as [-> Hd]. rewrite Hd. exists f. eauto.
Qed.

Lemma getOrdersByUser_data p w r w' :
  getOrdersByUser p w = (Return r, w') ->
  exists t,
    r = ROrdersPage
          (map (populate_order (db w))
               (page_of (default_to 3 (gou_limit p)) (gou_page p)
                  (sort_desc o_createdAt
                     (filter (fun o => ref_is (buyer o) (gou_userId p))
                             (orders (db w))))))
          t.
Proof.
  unfold getOrdersByUser. intros E.
  apply try_handleError_Return in E.
  apply bind_Return in E. destruct E as (u & w1 & E1 & E).
  apply connect_Return in E1.
  apply bind_Return in E. destruct E as (os & w2 & E2 & E).
  apply bind_Return in E. destruct E as (n & w3 & E3 & E).
  apply ret_Return in E. destruct E as [<- _].
  apply external_Return in E2. destruct E2 as (d & Hr & _).
  unfold cursor in Hr. destruct (_ <? 0); inversion Hr; subst.
  rewrite E1. eauto.
Qed.

(** X10. A page returned by [getAllEvents], [getEventsByUser],
    [getRelatedEventsByCategory] or [getOrdersByUser] holds at most [limit]
    documents when the limit is positive, and lists them from the latest
    [createdAt] to the earliest. *)
Theorem pages_bounded_and_descending :
  (forall p w data t w',
      getAllEvents p w = (Return (REventsPage data t), w') ->
      (0 < default_to 6 (ga_limit p) ->
       Z.of_nat (List.length data) <= default_to 6 (ga_limit p)) /\
      descending (map (fun pe => createdAt (pe_event pe)) data)) /\
  (forall p w data t w',
      getEventsByUser p w = (Return (REventsPage data t), w') ->
      (0 < default_to 6 (gu_limit p) ->
       Z.of_nat (List.length data) <= default_to 6 (gu_limit p)) /\
      descending (map (fun pe => createdAt (pe_event pe)) data)) /\
  (forall p w data t w',
      getRelatedEventsByCategory p w = (Return (REventsPage data t), w') ->
      (0 < default_to 3 (gr_limit p) ->
       Z.of_nat (List.length data) <= default_to 3 (gr_limit p)) /\
      descending (map (fun pe => createdAt (pe_event pe)) data)) /\
  (forall p w data t w',
      getOrdersByUser p w = (Return (ROrdersPage data t), w') ->
      (0 < default_to 3 (gou_limit p) ->
       Z.of_nat (List.length data) <= default_to 3 (gou_limit p)) /\
      descending (map (fun po => o_createdAt (po_order po)) data)).
Proof.
  split; [|split; [|split]]; intros p w data t w' E.
  - apply getAllEvents_data in E. destruct E as (f & t' & _ & Hr).
    inversion Hr; subst. unfold page_of.
    destruct (page_properties f (default_to 6 (ga_limit p))
                (Z.to_nat ((ga_page p - 1) * default_to 6 (ga_limit p))) (db w))
      as (H1 & H2 & _). auto.
  - apply getEventsByUser_data in E. destruct E as (t' & Hr).
    inversion Hr; subst. unfold page_of, events_by_user.
    destruct (page_properties (fun e => ref_is (organizer e) (gu_userId p))
                (default_to 6 (gu_limit p))
                (Z.to_nat ((gu_page p - 1) * default_to 6 (gu_limit p))) (db w))
      as (H1 & H2 & _). auto.
  - apply getRelatedEventsByCategory_data in E. destruct E as (t' & Hr).
    inversion Hr; subst. unfold page_of.
    destruct (page_properties
                (fun e => ref_is (category e) (gr_categoryId p)
                          && negb (e_id e =? gr_eventId p)%string)
                (default_to 3 (gr_limit p))
                (Z.to_nat ((default_to 1 (gr_page p) - 1) * default_to 3 (gr_limit p)))
                (db w))
      as (H1 & H2 & _). auto.
  - apply getOrdersByUser_data in E. destruct E as (t' & Hr).
    inversion Hr; subst. unfold page_of. split.
    + intros Hl. rewrite length_map. apply apply_limit_length. assumption.
    + rewrite map_map. simpl. apply descending_page. apply sort_desc_descending.
Qed.

(** X11. Every event [getRelatedEventsByCategory] returns is a stored event
    of the category [categoryId] and is not the event [eventId] itself. *)
Theorem related_events_exclude_the_event :
  forall p w data t w' pe,
    getRelatedEventsByCategory p w = (Return (REventsPage data t), w') ->
    In pe data ->
    In (pe_event pe) (events (db w)) /\
    category (pe_event pe) = Some (gr_categoryId p) /\
    e_id (pe_event pe) <> gr_eventId p.
Proof.
  intros p w data t w' pe E Hin.
  apply getRelatedEventsByCategory_data in E. destruct E as (t' & Hr).
  inversion Hr; subst. unfold page_of in Hin.
  destruct (page_properties
              (fun e => ref_is (category e) (gr_categoryId p)
                        && negb (e_id e =? gr_eventId p)%string)
              (default_to 3 (gr_limit p))
              (Z.to_nat ((default_to 1 (gr_page p) - 1) * default_to 3 (gr_limit p)))
              (db w))
    as (_ & _ & H3).
  destruct (H3 pe Hin) as [He Hf]. apply andb_true_iff in Hf.
  destruct Hf as [Hc Hne]. apply ref_is_true in Hc.
  apply negb_true_iff, String.eqb_neq in Hne. auto.
Qed.

(** X12. Every event [getEventsByUser] returns is a stored event organized
    by [userId], with its organizer and category populated from the store;
    every order [getOrdersByUser] returns is a stored order bought by
    [userId]. *)
Theorem pages_belong_to_the_user :
  (forall p w data t w' pe,
      getEventsByUser p w = (Return (REventsPage data t), w') ->
      In pe data ->
      In (pe_event pe) (events (db w)) /\
      organizer (pe_event pe) = Some (gu_userId p) /\
      pe = populateEvent (db w) (pe_event pe)) /\
  (forall p w data t w' po,
      getOrdersByUser p w = (Return (ROrdersPage data t), w') ->
      In po data ->
      In (po_order po) (orders (db w)) /\
      buyer (po_order po) = Some (gou_userId p)).
Proof.
  split.
  - intros p w data t w' pe E Hin.
    apply getEventsByUser_data in E. destruct E as (t' & Hr).
    inversion Hr; subst. clear Hr.
    apply in_map_iff in Hin. destruct Hin as (e & <- & He). simpl.
    unfold page_of, events_by_user in He.
    apply in_apply_limit in He. apply in_sort_desc in He.
    apply filter_In in He. destruct He as [He Hf].
    apply ref_is_true in Hf. auto.
  - intros p w data t w' po E Hin.
    apply getOrdersByUser_data in E. destruct E as (t' & Hr).
    inversion Hr; subst. clear Hr.
    apply in_map_iff in Hin. destruct Hin as (o & <- & Ho). simpl.
    unfold page_of in Ho.
    apply in_apply_limit in Ho. apply in_sort_desc in Ho.
    apply filter_In in Ho. destruct Ho as [Ho Hf].
    apply ref_is_true in Hf. auto.
Qed.

End Pages.

(** X10, X11 and X12 on the sample database. *)
Lemma pages_bounded_and_descending_witness :
  exists w',
    @getAllEvents sample_runtime sample_first_page sample_world
    = (Return (REventsPage [populateEvent sample_db concert] 2), w') /\
    Z.of_nat (List.length [populateEvent sample_db concert]) <= 1 /\
    descending (map (fun pe => createdAt (pe_event pe)) [populateEvent sample_db concert]).
Proof.
  destruct (@pages_bounded_and_descending sample_runtime) as (H1 & _).
  pose (run := @getAllEvents sample_runtime sample_first_page sample_world).
  assert (E : run = (Return (REventsPage [populateEvent sample_db concert] 2), snd run))
    by (vm_compute; reflexivity).
  exists (snd run). split; [exact E|].
  destruct (H1 sample_first_page sample_world _ _ _ E) as [Hl Hd].
  split; [apply Hl; simpl; lia | exact Hd].
Defined.

Lemma related_events_exclude_the_event_witness :
  exists w',
    @getRelatedEventsByCategory sample_runtime sample_related sample_world
    = (Return (REventsPage [populateEvent sample_db meetup] 1), w') /\
    category meetup = Some id_tech /\
    e_id meetup <> id_concert.
Proof.
  pose (run := @getRelatedEventsByCategory sample_runtime sample_related sample_world).
  assert (E : run = (Return (REventsPage [populateEvent sample_db meetup] 1), snd run))
    by (vm_compute; reflexivity).
  exists (snd run). split; [exact E|].
  apply (@related_events_exclude_the_event sample_runtime sample_related
           sample_world _ _ _ (populateEvent sample_db meetup) E).
  left. reflexivity.
Defined.

Lemma pages_belong_to_the_user_witness :
  (exists w',
      @getEventsByUser sample_runtime sample_by_user sample_world
      = (Return (REventsPage [populateEvent sample_db meetup] 1), w') /\
      organizer meetup = Some id_alice) /\
  (exists w',
      @getOrdersByUser sample_runtime sample_orders_of sample_world
      = (Return (ROrdersPage [populate_order sample_db order1] 1), w') /\
      buyer order1 = Some id_bob).
Proof.
  destruct (@pages_belong_to_the_user sample_runtime) as [H1 H2].
  split.
  - pose (run := @getEventsByUser sample_runtime sample_by_user sample_world).
    assert (E : run = (Return (REventsPage [populateEvent sample_db meetup] 1), snd run))
      by (vm_compute; reflexivity).
    exists (snd run). split; [exact E|].
    apply (H1 sample_by_user sample_world _ _ _ (populateEvent sample_db meetup) E).
    left. reflexivity.
  - pose (run := @getOrdersByUser sample_runtime sample_orders_of sample_world).
    assert (E : run = (Return (ROrdersPage [populate_order sample_db order1] 1), snd run))
      by (vm_compute; reflexivity).
    exists (snd run). split; [exact E|].
    apply (H2 sample_orders_of sample_world _ _ _ (populate_order sample_db order1) E).
    left. reflexivity.
Defined.

(* ------------------------------------------------------------------------- *)
(** ** The pages together *)

Lemma firstn_add_skipn {A : Type} a b (l : list A) :
  firstn (a + b) l = firstn a l ++ firstn b (skipn a l).
Proof.
  revert l. induction a as [|a IH]; intros [|x l]; simpl; try reflexivity.
  - rewrite firstn_nil. reflexivity.
  - rewrite IH. reflexivity.
Qed.

Lemma chunks_concat {A : Type} n (l : list A) k :
  List.concat (map (fun i => firstn n (skipn (i * n) l)) (seq 0 k))
  = firstn (k * n) l.
Proof.
  induction k as [|k IH].
  - reflexivity.
  - rewrite seq_S, map_app, concat_app, IH. simpl.
    rewrite app_nil_r, (Nat.add_comm n (k * n)).
    symmetry. apply firstn_add_skipn.
Qed.

Lemma insert_desc_length {A : Type} (key : A -> Z) x l :
  List.length (insert_desc key x l) = S (List.length l).
Proof.
  induction l as [|y l IH]; simpl; [reflexivity|].
  destruct (key y <=? key x); simpl; congruence.
Qed.

Lemma sort_desc_length {A : Type} (key : A -> Z) l :
  List.length (sort_desc key l) = List.length l.
Proof.
  induction l as [|x l IH]; simpl; [reflexivity|].
  rewrite insert_desc_length. congruence.
Qed.

Lemma page_of_chunk {A : Type} limit i (l : list A) :
  0 < limit ->
  page_of limit (Z.of_nat (S i)) l
  = firstn (Z.to_nat limit) (skipn (i * Z.to_nat limit) l).
Proof.
  intros Hl. unfold page_of, apply_limit.
  destruct (limit =? 0) eqn:E; [apply Z.eqb_eq in E; lia|].
  rewrite Z.abs_eq by lia.
  replace (Z.to_nat ((Z.of_nat (S i) - 1) * limit)) with (i * Z.to_nat limit)%nat
    by nia.
  reflexivity.
Qed.

(** The pages 1 to [t] of a list, when [t] is the ceiling of its length
    over a positive [limit], are the list; the pages after [t] are empty. *)
Lemma pages_cover {A : Type} limit t (l : list A) :
  0 < limit ->
  is_ceiling (Z.of_nat (List.length l)) limit t ->
  List.concat (map (fun i => page_of limit (Z.of_nat i) l) (seq 1 (Z.to_nat t))) = l /\
  forall page, t < page -> page_of limit page l = [].
Proof.
  intros Hl [Hlo Hhi]. split.
  - rewrite <- seq_shift, map_map.
    rewrite (map_ext _ (fun i => firstn (Z.to_nat limit)
                                   (skipn (i * Z.to_nat limit) l)))
      by (intros i; apply page_of_chunk; assumption).
    rewrite chunks_concat. apply firstn_all2. nia.
  - intros page Hp. unfold page_of.
    rewrite skipn_all2 by nia.
    unfold apply_limit. destruct (limit =? 0); [reflexivity|].
    apply firstn_nil.
Qed.

Section PagesTogether.
Context {RT : Runtime}.

Lemma insert_desc_perm {A : Type} (key : A -> Z) x l :
  Permutation (insert_desc key x l) (x :: l).
Proof.
  induction l as [|y l IH]; simpl; [reflexivity|].
  destruct (key y <=? key x); [reflexivity|].
  rewrite IH. apply perm_swap.
Qed.

Lemma sort_desc_perm {A : Type} (key : A -> Z) l :
  Permutation (sort_desc key l) l.
Proof.
  induction l as [|x l IH]; simpl; [reflexivity|].
  rewrite insert_desc_perm. apply perm_skip. exact IH.
Qed.

Lemma key_injective {A : Type} (key : A -> Z) l x y :
  NoDup (map key l) -> In x l -> In y l -> key x = key y -> x = y.
Proof.
  induction l as [|z l IH]; simpl; intros Hn Hx Hy E; [contradiction|].
  inversion Hn as [|? ? Hz Hn']; subst.
  destruct Hx as [->|Hx], Hy as [->|Hy]; auto.
  - exfalso. apply Hz. rewrite E. apply in_map. assumption.
  - exfalso. apply Hz. rewrite <- E. apply in_map. assumption.
Qed.

(** With distinct keys there is one way to list the elements from the
    greatest key to the least. *)
Lemma descending_unique {A : Type} (key : A -> Z) l :
  forall l',
    Permutation l l' -> NoDup (map key l) ->
    descending (map key l) -> descending (map key l') -> l = l'.
Proof.
  induction l as [|x l IH]; intros l' Hp Hn Hd Hd'.
  - apply Permutation_nil in Hp. subst. reflexivity.
  - destruct l' as [|y l'];
      [apply Permutation_sym, Permutation_nil in Hp; discriminate|].
    assert (Hxy : x = y).
    { apply (key_injective key (x :: l)); auto.
      - left. reflexivity.
      - apply (Permutation_in _ (Permutation_sym Hp)). left. reflexivity.
      - simpl in Hd, Hd'. inversion Hd as [|? ? _ Hx]; subst.
        inversion Hd' as [|? ? _ Hy]; subst.
        rewrite Forall_forall in Hx, Hy.
        assert (Hyx : key y <= key x).
        { assert (Hin : In y (x :: l))
            by (apply (Permutation_in _ (Permutation_sym Hp)); left; reflexivity).
          destruct Hin as [->|Hin]; [lia|].
          apply Hx. apply in_map. assumption. }
        assert (Hxy : key x <= key y).
        { assert (Hin : In x (y :: l'))
            by (apply (Permutation_in _ Hp); left; reflexivity).
          destruct Hin as [->|Hin]; [lia|].
          apply Hy. apply in_map. assumption. }
        lia. }
    subst y. f_equal. apply IH.
    + apply Permutation_cons_inv in Hp. assumption.
    + simpl in Hn. inversion Hn. assumption.
    + simpl in Hd. inversion Hd. assumption.
    + simpl in Hd'. inversion Hd'. assumption.
Qed.

Lemma getEventsByUser_calm p w :
  calm w = true ->
  0 <= (gu_page p - 1) * default_to 6 (gu_limit p) ->
  exists w',
    getEventsByUser p w
    = (Return
         (REventsPage
            (map (populateEvent (db w))
               (page_of (default_to 6 (gu_limit p)) (gu_page p)
                  (events_by_user (gu_userId p) (db w))))
            (Math_ceil
               (js_div (matching_events (cond_organizer (gu_userId p)) (db w))
                       (default_to 6 (gu_limit p))))), w').
Proof.
  intros Hc Hs.
  destruct (getEventsByUser_returns p w Hc Hs) as (r & w' & E).
  exists w'. rewrite E. f_equal. f_equal.
  destruct (getEventsByUser_Return _ _ _ _ E) as (data & Hr).
  destruct (getEventsByUser_data _ _ _ _ E) as (t & Hr').
  rewrite Hr in Hr'. inversion Hr'; subst. reflexivity.
Qed.

(** X13. In a calm world, with a positive limit and when the events of a
    user have distinct [createdAt] values, there is one way to list these
    events from the latest to the earliest, whatever the store does with
    ties; the pages 1 to [totalPages] that [getEventsByUser] returns for the
    user, put end to end, are that list, each event on one page; a page
    after [totalPages] is empty. *)
Theorem getEventsByUser_pages_cover :
  forall userId limit w,
    calm w = true ->
    0 < limit ->
    NoDup (map createdAt
             (filter (fun e => ref_is (organizer e) userId) (events (db w)))) ->
    let all := events_by_user userId (db w) in
    let t := Math_ceil
               (js_div (matching_events (cond_organizer userId) (db w)) limit) in
    (forall l,
        Permutation l (filter (fun e => ref_is (organizer e) userId) (events (db w))) ->
        descending (map createdAt l) -> l = all) /\
    (forall page, 1 <= page ->
       exists w',
         getEventsByUser
           {| gu_userId := userId; gu_limit := Some limit; gu_page := page |} w
         = (Return (REventsPage (map (populateEvent (db w)) (page_of limit page all)) t),
            w')) /\
    List.concat (map (fun i => page_of limit (Z.of_nat i) all) (seq 1 (Z.to_nat t))) = all /\
    (forall page, t < page -> page_of limit page all = []).
Proof.
  intros userId limit w Hc Hl Hn all t. split; [|split].
  - intros l Hp Hd. subst all. unfold events_by_user.
    apply (descending_unique createdAt); auto.
    + rewrite Hp. symmetry. apply sort_desc_perm.
    + eapply Permutation_NoDup; [|exact Hn].
      apply Permutation_map. symmetry. exact Hp.
    + apply sort_desc_descending.
  - intros page Hp.
    apply (getEventsByUser_calm
             {| gu_userId := userId; gu_limit := Some limit; gu_page := page |} w Hc).
    simpl. nia.
  - apply pages_cover; [assumption|].
    subst all t. unfold events_by_user. rewrite sort_desc_length.
    apply (Math_ceil_is_ceiling
             (matching_events (cond_organizer userId) (db w)) limit Hl).
Qed.

End PagesTogether.

(** X13, on the sample database: the events of Alice, one to the page. *)
Lemma getEventsByUser_pages_cover_witness :
  (exists w',
      @getEventsByUser sample_runtime (sample_by_user_page 1) sample_world
      = (Return (REventsPage [populateEvent sample_db meetup] 1), w')) /\
  page_of 1 2 (events_by_user id_alice sample_db) = [].
Proof.
  assert (Hn : NoDup (map createdAt
                        (filter (fun e => ref_is (organizer e) id_alice)
                                (events (db sample_world))))).
  { change (NoDup [100]). constructor; [intros []|constructor]. }
  destruct (@getEventsByUser_pages_cover sample_runtime id_alice 1 sample_world
              eq_refl ltac:(lia) Hn) as (_ & H1 & _ & H3).
  split.
  - apply (H1 1). lia.
  - apply H3. vm_compute. reflexivity.
Defined.

(* ------------------------------------------------------------------------- *)
(** ** A category name that matches nothing *)

Lemma external_calm_rejected {A : Type} o (run : World -> JsValue + (A * Database)) w v :
  calm w = true -> run w = inl v ->
  external o run w = (Throw v, performed w o (Failed v) (db w)).
Proof.
  unfold external, calm. intros Hc Hr.
  destruct (faults w) as [|[x|] fs]; simpl in Hc; try discriminate;
    rewrite Hr; reflexivity.
Qed.

Section UnresolvedCategory.
Context {RT : Runtime}.

Lemma try_fst {A : Type} (m : M A) w :
  fst ((try m catch handleError) w)
  = match fst (m w) with
    | Return a => Return a
    | Throw v => Throw (new_Error (handleError_message v))
    end.
Proof.
  unfold try_catch. destruct (m w) as [[a|v] w1]; reflexivity.
Qed.

(** What the page query and the count give in a calm world depends on the
    database alone. *)
Lemma events_page_calm_outcome c s l w :
  calm w = true ->
  fst ((events <- Event_find c s l ;;
        eventsCount <- Event_countDocuments c ;;
        ret (REventsPage (JSON_roundtrip events) (Math_ceil (js_div eventsCount l)))) w)
  = match find_events c s l (db w), count_events c (db w) with
    | inl v, _ => Throw v
    | inr _, inl v => Throw v
    | inr evs, inr n =>
        Return (REventsPage (map (populateEvent (db w)) evs) (Math_ceil (js_div n l)))
    end.
Proof.
  intros Hc. unfold Event_find, Event_countDocuments.
  destruct (find_events c s l (db w)) as [v|evs] eqn:Ef.
  - unfold bind at 1. erewrite external_calm_rejected; [reflexivity | exact Hc |].
    rewrite Ef. reflexivity.
  - erewrite bind_step
      by (apply external_calm; [exact Hc | rewrite Ef; reflexivity]).
    destruct (count_events c (db w)) as [v|n] eqn:En.
    + unfold bind at 1. erewrite external_calm_rejected;
        [reflexivity | calm_now | unfold lift_read; cbn [db performed]; rewrite En; reflexivity].
    + erewrite bind_step
        by (apply external_calm;
            [calm_now | unfold lift_read; cbn [db performed]; rewrite En; reflexivity]).
      reflexivity.
Qed.

Lemma bind_ret_l {A B : Type} (a : A) (k : A -> M B) w :
  bind (ret a) k w = k a w.
Proof. reflexivity. Qed.

(** The outcome of [getAllEvents] in a calm world, without a category
    condition. *)
Lemma getAllEvents_no_category p w :
  calm w = true ->
  truthy (ga_category p) = false ->
  fst (getAllEvents p w) = unfiltered_outcome p (db w).
Proof.
  intros Hc Hcat. unfold getAllEvents. rewrite try_fst. rewrite Hcat.
  cbv iota. step_connect. rewrite bind_ret_l.
  rewrite events_page_calm_outcome by calm_now. reflexivity.
Qed.

Lemma getAllEvents_unmatched p w m :
  calm w = true ->
  truthy (ga_category p) = true ->
  regex_i (ga_category p) = Some m ->
  find (fun c => m (name c)) (categories (db w)) = None ->
  fst (getAllEvents p w) = unfiltered_outcome p (db w).
Proof.
  intros Hc Hcat Hm Hnone. unfold getAllEvents. rewrite try_fst. rewrite Hcat.
  cbv iota. step_connect. unfold getCategoryByName.
  erewrite bind_step.
  2:{ apply external_calm; [calm_now|].
      unfold lift_read, Category_findOne_regex. rewrite Hm.
      cbn [db performed]. rewrite Hnone. reflexivity. }
  rewrite events_page_calm_outcome by calm_now. reflexivity.
Qed.

(** X14. When the category name given to [getAllEvents] matches no stored
    category, no category condition is applied: in a calm world the call
    gives the same outcome as the call without a category name. *)
Theorem unmatched_category_is_ignored :
  forall p w m,
    calm w = true ->
    ga_category p <> "" ->
    regex_i (ga_category p) = Some m ->
    find (fun c => m (name c)) (categories (db w)) = None ->
    fst (getAllEvents p w) = fst (getAllEvents (without_category p) w).
Proof.
  intros p w m Hc Hcat Hm Hnone. apply truthy_true in Hcat.
  rewrite (getAllEvents_unmatched p w m Hc Hcat Hm Hnone).
  rewrite (getAllEvents_no_category (without_category p) w Hc eq_refl).
  reflexivity.
Qed.

End UnresolvedCategory.

(** X14, on the sample database: no stored category is called "sports", and
    both events are returned. *)
Lemma unmatched_category_is_ignored_witness :
  fst (@getAllEvents sample_runtime sample_in_sports sample_world)
  = fst (@getAllEvents sample_runtime (without_category sample_in_sports) sample_world) /\
  fst (@getAllEvents sample_runtime sample_in_sports sample_world)
  = Return (REventsPage [populateEvent sample_db concert; populateEvent sample_db meetup] 1).
Proof.
  split; [|vm_compute; reflexivity].
  apply (@unmatched_category_is_ignored sample_runtime sample_in_sports sample_world
           (fun s => is_some (String.index 0 "sports" (lowercase s))));
    try reflexivity.
  discriminate.
Defined.

(* ------------------------------------------------------------------------- *)
(** ** Orders, the checkout and the categories *)

Section OrdersAndCategories.
Context {RT : Runtime}.

(** X15. [checkoutOrder] never returns a value: it ends by throwing, either
    what the payment API threw or the redirect; it leaves the database, the
    console and the revalidated paths as they were.  In a calm world what it
    throws is the redirect to the address of the session, opened with the
    unit amount 0 for a free order and otherwise with the product of
    [Number(order.price)] and 100, rounded as the products of floating-point
    numbers are. *)
Theorem checkoutOrder_never_returns :
  (forall order w r w',
      checkoutOrder order w = (r, w') ->
      (exists v, r = Throw v) /\
      db w' = db w /\ console w' = console w /\ revalidated w' = revalidated w) /\
  (forall order w,
      calm w = true ->
      fst (checkoutOrder order w)
      = Throw (JError "NEXT_REDIRECT"
                 (Stripe_session_url (co_eventTitle order)
                    (if co_isFree order then 0%float
                     else PrimFloat.mul (Number_of_string (co_price order))
                                        100%float)))).
Proof.
  split.
  - intros order w r w' E. unfold checkoutOrder, try_catch in E.
    destruct (bind _ _ w) as [r1 w1] eqn:Eb.
    apply bind_inv in Eb.
    destruct Eb as [(v & E1 & ->) | (a & w2 & E1 & E2)].
    + apply external_outcome in E1.
      destruct E1 as [(x & _ & ->) | (a & d & _ & Hr & _)]; [|discriminate].
      inversion E; subst. simpl. eauto.
    + apply external_outcome in E1.
      destruct E1 as [(x & Hr & _) | (a' & d & Hrun & _ & ->)]; [discriminate|].
      unfold reading in Hrun. inversion Hrun; subst.
      unfold redirect, throw in E2. inversion E2; subst.
      inversion E; subst. simpl. eauto.
  - intros order w Hc. unfold checkoutOrder, try_catch.
    erewrite bind_step by (apply external_calm; [exact Hc | reflexivity]).
    reflexivity.
Qed.

Lemma createOrder_calm order w :
  calm w = true ->
  exists o w',
    createOrder order w = (Return (ROrder o), w') /\
    calm w' = true /\
    o_event o = Some (cr_eventId order) /\
    buyer o = Some (cr_buyerId order) /\
    totalAmount o = cr_totalAmount order /\
    o_createdAt o = cr_createdAt order /\
    db w' = set_orders (db w) (orders (db w) ++ [o]).
Proof.
  intros Hc. unfold createOrder, try_catch. step_connect.
  unfold Order_create. step_external. unfold ret. cbn [db performed].
  eexists. eexists. split; [reflexivity|]. split; [calm_now|].
  repeat split.
Qed.

(** X16. An order that [createOrder] stored is found by [getOrdersByEvent]:
    in a calm world where the event and the buyer of the order are stored,
    a search with a text in which [new ObjectId] reads the identifier of
    that event (the identifier itself, or the same digits in another case)
    and with a pattern that matches the full name of the buyer lists the
    new order, with the title of the event and the name of the buyer. *)
Theorem createOrder_then_getOrdersByEvent :
  forall order w u e x s re,
    calm w = true ->
    In u (users (db w)) -> u_id u = cr_buyerId order ->
    In e (events (db w)) -> e_id e = cr_eventId order ->
    x <> "" ->
    ObjectId_hex x = Some (cr_eventId order) ->
    regex_i s = Some re ->
    re (firstName u ++ " " ++ lastName u)%string = true ->
    exists o w1 items w2,
      createOrder order w = (Return (ROrder o), w1) /\
      getOrdersByEvent {| goe_eventId := x; goe_searchString := s |} w1
      = (Return (ROrderItems items), w2) /\
      In {| item_id := o_id o; item_totalAmount := cr_totalAmount order;
            item_createdAt := cr_createdAt order; eventTitle := title e;
            eventId := cr_eventId order;
            item_buyer := (firstName u ++ " " ++ lastName u)%string |} items.
Proof.
  intros order w u e x s re Hc Hu Huid He Heid Hid Hv Hre Hname.
  destruct (createOrder_calm order w Hc)
    as (o & w1 & E1 & Hc1 & Hoe & Hob & Hot & Hoc & Hd).
  destruct (getOrdersByEvent_calm
              {| goe_eventId := x; goe_searchString := s |} w1
              (cr_eventId order) re Hc1 Hid Hv Hre) as (w2 & E2).
  exists o, w1. eexists. exists w2. split; [exact E1|]. split; [exact E2|].
  rewrite <- Hot, <- Hoc, <- Heid.
  apply pipeline_exact. exists o, u, e. rewrite Hd.
  cbn [set_orders orders users events goe_eventId].
  split; [apply in_or_app; right; left; reflexivity|].
  split; [assumption|]. split; [assumption|].
  split; [rewrite Hob, Huid; reflexivity|].
  split; [rewrite Hoe, Heid; reflexivity|].
  split; [reflexivity|]. split; [assumption | reflexivity].
Qed.

(** X17. [createCategory] stores the category at the end of the collection
    and [getAllCategories] then returns every category, the new one last:
    in a calm world the second call returns the categories that were stored
    followed by the one the first call returned. *)
Theorem createCategory_then_getAllCategories :
  forall categoryName w,
    calm w = true ->
    exists c w1 w2,
      createCategory categoryName w = (Return (RCategory c), w1) /\
      name c = categoryName /\
      getAllCategories w1 = (Return (RCategories (categories (db w) ++ [c])), w2).
Proof.
  intros categoryName w Hc. unfold createCategory, try_catch. step_connect.
  unfold Category_create. step_external. unfold ret.
  eexists. eexists. eexists. split; [reflexivity|]. split; [reflexivity|].
  unfold getAllCategories, try_catch. step_connect.
  unfold Category_find. step_external. reflexivity.
Qed.

(** X18. [getOrdersByEvent] with an identifier that is not empty but that
    [new ObjectId] refuses, or with a search string that does not compile,
    throws before any query is issued: in a calm world the only operation
    performed is the connection. *)
Theorem getOrdersByEvent_rejects_before_querying :
  forall p w,
    calm w = true ->
    goe_eventId p <> "" ->
    (ObjectId_isValid (goe_eventId p) = false \/
     regex_i (goe_searchString p) = None) ->
    exists v w',
      getOrdersByEvent p w = (Throw v, w') /\
      new_ops w w' = [(OpConnect, Ok)] /\
      db w' = db w.
Proof.
  intros p w Hc Hid H. apply truthy_true in Hid.
  unfold getOrdersByEvent, try_catch. step_connect.
  unfold throw_if. rewrite Hid. cbn [negb]. rewrite bind_ret_l.
  unfold new_ObjectId. unfold ObjectId_isValid in H.
  destruct (ObjectId_hex (goe_eventId p)) as [i0|] eqn:Ev.
  - destruct H as [H|H]; [discriminate|].
    rewrite bind_ret_l. unfold RegExp_i. rewrite H.
    eexists. eexists. split; [reflexivity|]. split; [|reflexivity].
    apply new_ops_app. reflexivity.
  - eexists. eexists. split; [reflexivity|]. split; [|reflexivity].
    apply new_ops_app. reflexivity.
Qed.

End OrdersAndCategories.

(** X15 to X18 on the sample database. *)
Lemma checkoutOrder_never_returns_witness :
  fst (@checkoutOrder sample_runtime sample_checkout sample_world)
  = Throw (JError "NEXT_REDIRECT" "https://checkout.example/Jazz Night") /\
  db (snd (@checkoutOrder sample_runtime sample_checkout declined_world))
  = db declined_world.
Proof.
  destruct (@checkoutOrder_never_returns sample_runtime) as [H1 H2].
  split.
  - apply (H2 sample_checkout sample_world). reflexivity.
  - destruct (H1 sample_checkout declined_world _ _ (surjective_pairing _))
      as (_ & Hd & _).
    exact Hd.
Defined.

(** The price ["19.99"] gives the unit amount [1998.9999999999998]
    (written here in binary), not 1999: the product is rounded. *)
Example checkout_price_rounded :
  @checkout_price sample_runtime
    {| co_eventTitle := "Jazz Night"; co_eventId := id_concert;
       co_price := "19.99"; co_isFree := false; co_buyerId := id_alice |}
  = 0x1.f3bffffffffffp+10%float.
Proof. vm_compute. reflexivity. Qed.

Lemma createOrder_then_getOrdersByEvent_witness :
  exists o w1 items w2,
    @createOrder sample_runtime sample_new_order sample_world = (Return (ROrder o), w1) /\
    @getOrdersByEvent sample_runtime
      {| goe_eventId := "65E000000000000000000002"; goe_searchString := "stone" |} w1
    = (Return (ROrderItems items), w2) /\
    In {| item_id := o_id o; item_totalAmount := "25"; item_createdAt := 500;
          eventTitle := "Jazz Night"; eventId := id_concert;
          item_buyer := "Bob Stone" |} items.
Proof.
  apply (@createOrder_then_getOrdersByEvent sample_runtime sample_new_order
           sample_world bob concert "65E000000000000000000002" "stone"
           (fun s => is_some (String.index 0 "stone" (lowercase s))));
    try reflexivity.
  - right. left. reflexivity.
  - right. left. reflexivity.
  - discriminate.
Defined.

Lemma createCategory_then_getAllCategories_witness :
  exists c w1 w2,
    @createCategory sample_runtime "Cinema" sample_world = (Return (RCategory c), w1) /\
    name c = "Cinema" /\
    @getAllCategories sample_runtime w1 = (Return (RCategories [tech; music; c]), w2).
Proof.
  apply (@createCategory_then_getAllCategories sample_runtime "Cinema" sample_world).
  reflexivity.
Defined.

Lemma getOrdersByEvent_rejects_before_querying_witness :
  exists v w',
    @getOrdersByEvent sample_runtime
      {| goe_eventId := "meetup"; goe_searchString := "bob" |} sample_world
    = (Throw v, w') /\
    new_ops sample_world w' = [(OpConnect, Ok)] /\
    db w' = db sample_world.
Proof.
  apply (@getOrdersByEvent_rejects_before_querying sample_runtime
           {| goe_eventId := "meetup"; goe_searchString := "bob" |} sample_world).
  - reflexivity.
  - discriminate.
  - left. reflexivity.
Defined.

(* ------------------------------------------------------------------------- *)
(** ** What the URL helpers keep and what they drop *)

Lemma insert_key_head x q :
  (forall y, In y q -> key_leb (fst x) (fst y) = true) ->
  insert_key x q = x :: q.
Proof.
  destruct q as [|y q]; simpl; [reflexivity|].
  intros H. rewrite (H y) by (left; reflexivity). reflexivity.
Qed.

Lemma filter_insert_key (p : string * QValue -> bool) x q :
  sorted (keys q) ->
  filter p (insert_key x q)
  = if p x then insert_key x (filter p q) else filter p q.
Proof.
  unfold sorted. induction q as [|y q IH]; intros Hs.
  - simpl. destruct (p x); reflexivity.
  - simpl in Hs. inversion Hs; subst. specialize (IH H1).
    cbn [insert_key]. destruct (key_leb (fst x) (fst y)) eqn:E.
    + cbn [filter]. destruct (p x) eqn:Px; [|reflexivity].
      rewrite insert_key_head; [reflexivity|].
      intros z Hz. change (In z (filter p (y :: q))) in Hz.
      apply filter_In in Hz. destruct Hz as [[<-|Hz] _]; [assumption|].
      rewrite Forall_forall in H2. eapply key_leb_trans; [exact E|].
      apply H2. apply in_map. assumption.
    + cbn [filter]. rewrite IH.
      destruct (p x), (p y); cbn [insert_key]; rewrite ?E; reflexivity.
Qed.

Lemma sort_keys_filter (p : string * QValue -> bool) q :
  filter p (sort_keys q) = sort_keys (filter p q).
Proof.
  induction q as [|x q IH]; [reflexivity|].
  cbn [sort_keys fold_right]. fold (sort_keys q).
  rewrite filter_insert_key by apply sort_keys_sorted.
  rewrite IH. cbn [filter]. destruct (p x); reflexivity.
Qed.

Lemma filter_comm {A : Type} (p q : A -> bool) l :
  filter p (filter q l) = filter q (filter p l).
Proof.
  induction l as [|x l IH]; simpl; [reflexivity|].
  destruct (p x) eqn:Px, (q x) eqn:Qx; simpl; rewrite ?Px, ?Qx, IH; reflexivity.
Qed.

Lemma emit1_keys kv pr : In pr (emit1 kv) -> fst pr = fst kv.
Proof.
  destruct kv as [k [|s|l]]; unfold emit1; simpl.
  - intros [<-|[]]. reflexivity.
  - intros [<-|[]]. reflexivity.
  - intros H. apply in_flat_map in H. destruct H as ([s|] & _ & H); simpl in H.
    + destruct H as [<-|[]]. reflexivity.
    + contradiction.
Qed.

Lemma filter_none {A : Type} (p : A -> bool) l :
  (forall x, In x l -> p x = false) -> filter p l = [].
Proof.
  induction l as [|x l IH]; simpl; intros H; [reflexivity|].
  rewrite (H x) by auto. apply IH. auto.
Qed.

Lemma emit_filter (pk : string -> bool) n :
  emit (filter (fun kv => pk (fst kv)) n)
  = filter (fun pr => pk (fst pr)) (emit n).
Proof.
  induction n as [|kv n IH]; [reflexivity|].
  change (emit (kv :: n)) with (emit1 kv ++ emit n).
  rewrite filter_app. cbn [filter].
  destruct (pk (fst kv)) eqn:E.
  - change (emit (kv :: filter (fun kv0 => pk (fst kv0)) n))
      with (emit1 kv ++ emit (filter (fun kv0 => pk (fst kv0)) n)).
    rewrite IH. f_equal. symmetry. apply filter_all.
    intros pr Hpr. rewrite (emit1_keys _ _ Hpr). assumption.
  - rewrite IH. rewrite (filter_none _ (emit1 kv)); [reflexivity|].
    intros pr Hpr. rewrite (emit1_keys _ _ Hpr). assumption.
Qed.

(** Dropping keys from the object drops their parameters from the string. *)
Lemma stringify_filter (pk : string -> bool) q :
  qs_stringify (filter (fun kv => pk (fst kv)) q)
  = filter (fun pr => pk (fst pr)) (qs_stringify q).
Proof.
  unfold qs_stringify.
  rewrite filter_comm, <- sort_keys_filter. apply emit_filter.
Qed.

Lemma fold_delete_filter ks q :
  fold_left (fun q key => q_delete key q) ks q
  = filter (fun kv => negb (existsb (String.eqb (fst kv)) ks)) q.
Proof.
  revert q. induction ks as [|k ks IH]; intros q; simpl.
  - symmetry. apply filter_all. reflexivity.
  - rewrite IH. unfold q_delete.
    induction q as [|x q IHq]; simpl; [reflexivity|].
    destruct (fst x =? k)%string; simpl; rewrite IHq; reflexivity.
Qed.

Lemma q_set_filter_other k v q :
  filter (fun kv => negb (fst kv =? k)%string) (q_set k v q)
  = filter (fun kv => negb (fst kv =? k)%string) q.
Proof.
  induction q as [|[k' v'] q IH]; simpl.
  - rewrite String.eqb_refl. reflexivity.
  - destruct (k' =? k)%string eqn:E; simpl;
      rewrite ?String.eqb_refl, ?E; simpl; rewrite ?IH; reflexivity.
Qed.

Lemma q_set_filter_key k v q :
  NoDup (keys q) ->
  filter (fun kv => (fst kv =? k)%string) (q_set k v q) = [(k, v)].
Proof.
  induction q as [|[k' v'] q IH]; simpl; intros Hn.
  - rewrite String.eqb_refl. reflexivity.
  - inversion Hn; subst. destruct (String.eqb_spec k' k) as [->|Hne]; simpl.
    + rewrite String.eqb_refl. f_equal. apply filter_none.
      intros [k2 v2] Hin. simpl. apply String.eqb_neq. intros ->.
      apply H1. apply in_keys. eauto.
    + apply String.eqb_neq in Hne. rewrite Hne. auto.
Qed.

Lemma q_set_null_filter k q :
  NoDup (keys q) ->
  filter (fun kv => negb (is_null (snd kv))) (q_set k QNull q)
  = filter (fun kv => negb (is_null (snd kv))) (q_delete k q).
Proof.
  unfold q_delete. induction q as [|[k' v'] q IH]; simpl; intros Hn.
  - reflexivity.
  - inversion Hn; subst. destruct (String.eqb_spec k' k) as [->|Hne]; simpl.
    + f_equal. symmetry. apply filter_all.
      intros [k2 v2] Hin. simpl. apply negb_true_iff, String.eqb_neq. intros ->.
      apply H1. apply in_keys. eauto.
    + rewrite IH by assumption. reflexivity.
Qed.

(** X19. [removeKeysFromQuery] drops exactly the parameters of the listed
    keys: its query is the rewritten current query without the parameters
    whose key is in [keysToRemove], the others in their order, under the
    same pathname. *)
Theorem removeKeysFromQuery_exact :
  forall window_location_pathname params keysToRemove,
    pathname (removeKeysFromQuery window_location_pathname params keysToRemove)
    = window_location_pathname /\
    query (removeKeysFromQuery window_location_pathname params keysToRemove)
    = filter (fun pr => negb (existsb (String.eqb (fst pr)) keysToRemove))
             (rewritten params).
Proof.
  intros path params ks. split; [reflexivity|].
  unfold removeKeysFromQuery, qs_stringifyUrl, rewritten. simpl.
  rewrite fold_delete_filter.
  apply (stringify_filter (fun k => negb (existsb (String.eqb k) ks))).
Qed.

(** X20. [formUrlQuery] touches the parameters of [key] only: the
    parameters of the other keys are those of the rewritten current query,
    and the parameters of [key] are the single [key=value], or none when the
    value is [null]. *)
Theorem formUrlQuery_exact :
  forall window_location_pathname params key value,
    filter (fun pr => negb (fst pr =? key)%string)
           (query (formUrlQuery window_location_pathname params key value))
    = filter (fun pr => negb (fst pr =? key)%string) (rewritten params) /\
    filter (fun pr => (fst pr =? key)%string)
           (query (formUrlQuery window_location_pathname params key value))
    = match value with
      | Some v => [(key, Some v)]
      | None => []
      end.
Proof.
  intros path params key value.
  unfold formUrlQuery, qs_stringifyUrl, rewritten. simpl. split.
  - rewrite <- !(stringify_filter (fun k => negb (k =? key)%string)).
    rewrite q_set_filter_other. reflexivity.
  - rewrite <- (stringify_filter (fun k => (k =? key)%string)).
    rewrite q_set_filter_key by apply qs_parse_NoDup.
    destruct value; reflexivity.
Qed.

(** X21. Setting a key to [null] with [formUrlQuery] is removing it with
    [removeKeysFromQuery]. *)
Theorem formUrlQuery_null_removes :
  forall window_location_pathname params key,
    formUrlQuery window_location_pathname params key None
    = removeKeysFromQuery window_location_pathname params [key].
Proof.
  intros path params key.
  unfold formUrlQuery, removeKeysFromQuery, qs_stringifyUrl. simpl. f_equal.
  unfold qs_stringify. rewrite q_set_null_filter by apply qs_parse_NoDup.
  reflexivity.
Qed.

(* ------------------------------------------------------------------------- *)
(** ** The written query is in order, and a later value replaces an earlier *)

Lemma key_leb_refl a : key_leb a a = true.
Proof.
  induction a as [|x a IH]; simpl; [reflexivity|].
  rewrite Nat.ltb_irrefl, Nat.eqb_refl. assumption.
Qed.

Lemma key_leb_antisym a b :
  key_leb a b = true -> key_leb b a = true -> a = b.
Proof.
  revert b. induction a as [|x a IH]; intros [|y b]; simpl; auto; try discriminate.
  destruct (Nat.ltb_spec (nat_of_ascii x) (nat_of_ascii y));
    destruct (Nat.eqb_spec (nat_of_ascii x) (nat_of_ascii y));
    destruct (Nat.ltb_spec (nat_of_ascii y) (nat_of_ascii x));
    destruct (Nat.eqb_spec (nat_of_ascii y) (nat_of_ascii x));
    try discriminate; try lia.
  intros H1 H2. f_equal; [|auto].
  rewrite <- (ascii_nat_embedding x), <- (ascii_nat_embedding y). congruence.
Qed.

Lemma emit_sorted n : sorted (keys n) -> sorted (map fst (emit n)).
Proof.
  unfold sorted. induction n as [|kv n IH]; simpl; intros Hs; [constructor|].
  inversion Hs; subst. specialize (IH H1).
  change (emit (kv :: n)) with (emit1 kv ++ emit n). rewrite map_app.
  assert (Hk : forall pr, In pr (emit1 kv) -> fst pr = fst kv)
    by (intros pr; apply emit1_keys).
  assert (Hrest : Forall (fun b => key_leb (fst kv) b = true) (map fst (emit n))).
  { apply Forall_forall. intros b Hb. apply in_map_iff in Hb.
    destruct Hb as (pr & <- & Hpr). unfold emit in Hpr.
    apply in_flat_map in Hpr. destruct Hpr as (kv' & Hkv' & Hpr).
    rewrite (emit1_keys _ _ Hpr). rewrite Forall_forall in H2.
    apply H2. apply in_map. assumption. }
  induction (emit1 kv) as [|pr l IHl]; simpl; [assumption|].
  constructor.
  - apply IHl. intros pr' Hpr'. apply Hk. right. assumption.
  - apply Forall_app. split.
    + apply Forall_forall. intros b Hb. apply in_map_iff in Hb.
      destruct Hb as (pr' & <- & Hpr').
      rewrite (Hk pr) by (left; reflexivity).
      rewrite (Hk pr') by (right; assumption). apply key_leb_refl.
    + rewrite (Hk pr) by (left; reflexivity). assumption.
Qed.

Lemma stringify_sorted q : sorted (map fst (qs_stringify q)).
Proof.
  unfold qs_stringify. apply emit_sorted. apply sort_keys_sorted.
Qed.

Lemma stringify_has_values q : forallb has_value (qs_stringify q) = true.
Proof.
  unfold qs_stringify. apply forallb_forall. intros pr Hpr.
  unfold emit in Hpr. apply in_flat_map in Hpr.
  destruct Hpr as ([k v] & Hkv & Hpr).
  rewrite in_sort_keys, filter_In in Hkv. destruct Hkv as [_ Hnn].
  unfold emit1 in Hpr. destruct v as [|s|l]; simpl in *.
  - discriminate.
  - destruct Hpr as [<-|[]]. reflexivity.
  - apply in_flat_map in Hpr. destruct Hpr as ([s|] & _ & Hpr); simpl in Hpr.
    + destruct Hpr as [<-|[]]. reflexivity.
    + contradiction.
Qed.

(** A list of parameters in the order of its keys is the parameters below a
    key, those of the key, and those above it. *)
Lemma sorted_split k (l : list Param) :
  sorted (map fst l) ->
  l = filter (fun pr => key_leb (fst pr) k)
        (filter (fun pr => negb (fst pr =? k)%string) l)
      ++ filter (fun pr => (fst pr =? k)%string) l
      ++ filter (fun pr => negb (key_leb (fst pr) k))
           (filter (fun pr => negb (fst pr =? k)%string) l).
Proof.
  unfold sorted. induction l as [|a l IH]; simpl; intros Hs; [reflexivity|].
  inversion Hs; subst. specialize (IH H1). rewrite Forall_forall in H2.
  assert (Hge : forall z, In z l -> key_leb (fst a) (fst z) = true).
  { intros z Hz. apply H2. apply in_map. assumption. }
  destruct (String.eqb_spec (fst a) k) as [Ha|Ha]; simpl.
  - rewrite (filter_none (fun pr => key_leb (fst pr) k)) in *.
    + simpl in *. f_equal. assumption.
    + intros z Hz. apply filter_In in Hz. destruct Hz as [Hz Hne].
      apply negb_true_iff, String.eqb_neq in Hne.
      apply not_true_is_false. intros Hle. apply Hne.
      apply key_leb_antisym; [assumption|]. rewrite <- Ha. auto.
    + intros z Hz. apply filter_In in Hz. destruct Hz as [Hz Hne].
      apply negb_true_iff, String.eqb_neq in Hne.
      apply not_true_is_false. intros Hle. apply Hne.
      apply key_leb_antisym; [assumption|]. rewrite <- Ha. auto.
  - destruct (key_leb (fst a) k) eqn:Hle; simpl.
    + f_equal. assumption.
    + assert (Hall : forall z, In z l ->
                 key_leb (fst z) k = false /\ (fst z =? k)%string = false).
      { intros z Hz. split.
        - apply not_true_is_false. intros Hzk.
          rewrite (key_leb_trans _ _ _ (Hge z Hz) Hzk) in Hle. discriminate.
        - apply String.eqb_neq. intros Hzk.
          rewrite <- Hzk, (Hge z Hz) in Hle. discriminate. }
      rewrite (filter_all (fun pr => negb (fst pr =? k)%string) l)
        by (intros z Hz; destruct (Hall z Hz) as [_ ->]; reflexivity).
      rewrite (filter_none (fun pr => key_leb (fst pr) k) l)
        by (intros z Hz; destruct (Hall z Hz) as [-> _]; reflexivity).
      rewrite (filter_none (fun pr => (fst pr =? k)%string) l)
        by (intros z Hz; destruct (Hall z Hz) as [_ ->]; reflexivity).
      rewrite (filter_all (fun pr => negb (key_leb (fst pr) k)) l)
        by (intros z Hz; destruct (Hall z Hz) as [-> _]; reflexivity).
      reflexivity.
Qed.

Lemma sorted_determined k (l1 l2 : list Param) :
  sorted (map fst l1) -> sorted (map fst l2) ->
  filter (fun pr => negb (fst pr =? k)%string) l1
  = filter (fun pr => negb (fst pr =? k)%string) l2 ->
  filter (fun pr => (fst pr =? k)%string) l1
  = filter (fun pr => (fst pr =? k)%string) l2 ->
  l1 = l2.
Proof.
  intros H1 H2 Hne Heq.
  rewrite (sorted_split k l1 H1), (sorted_split k l2 H2), Hne, Heq.
  reflexivity.
Qed.

Lemma reparse_filter (pk : string -> bool) n :
  filter (fun kv => pk (fst kv)) (reparse n)
  = reparse (filter (fun kv => pk (fst kv)) n).
Proof.
  induction n as [|kv n IH]; [reflexivity|].
  change (reparse (kv :: n)) with (reparse1 kv ++ reparse n).
  rewrite filter_app, IH. cbn [filter].
  destruct (pk (fst kv)) eqn:E.
  - change (reparse (kv :: filter (fun kv0 => pk (fst kv0)) n))
      with (reparse1 kv ++ reparse (filter (fun kv0 => pk (fst kv0)) n)).
    f_equal. apply filter_all. intros x Hx.
    rewrite (reparse1_keys (fst x) kv); [assumption|].
    apply in_map. assumption.
  - rewrite filter_none; [reflexivity|]. intros x Hx.
    rewrite (reparse1_keys (fst x) kv); [assumption|].
    apply in_map. assumption.
Qed.

Lemma norm_filter (pk : string -> bool) q :
  filter (fun kv => pk (fst kv)) (norm q)
  = norm (filter (fun kv => pk (fst kv)) q).
Proof.
  unfold norm. rewrite sort_keys_filter, filter_comm. reflexivity.
Qed.

Lemma q_set_q_set k a b q : q_set k b (q_set k a q) = q_set k b q.
Proof.
  induction q as [|[k' v'] q IH]; simpl.
  - rewrite String.eqb_refl. reflexivity.
  - destruct (k' =? k)%string eqn:E; simpl.
    + rewrite String.eqb_refl. reflexivity.
    + rewrite E, IH. reflexivity.
Qed.

(** Setting a key in what was written and read back, or in the object
    itself, writes the same. *)
Lemma stringify_set_reparsed k v q :
  NoDup (keys q) ->
  qs_stringify (q_set k v (qs_parse (qs_stringify q)))
  = qs_stringify (q_set k v q).
Proof.
  intros Hn.
  assert (Hm : NoDup (keys (qs_parse (qs_stringify q)))) by apply qs_parse_NoDup.
  apply (sorted_determined k); try apply stringify_sorted.
  - rewrite <- !(stringify_filter (fun x => negb (x =? k)%string)).
    rewrite !q_set_filter_other, parse_stringify by assumption.
    rewrite (reparse_filter (fun x => negb (x =? k)%string)).
    rewrite (norm_filter (fun x => negb (x =? k)%string)).
    apply stringify_reparse.
  - rewrite <- !(stringify_filter (fun x => (x =? k)%string)).
    rewrite !q_set_filter_key by assumption. reflexivity.
Qed.

Lemma formUrlQuery_overwrite path params key v1 v2 :
  formUrlQuery path (query (formUrlQuery path params key v1)) key v2
  = formUrlQuery path params key v2.
Proof.
  unfold formUrlQuery, qs_stringifyUrl. simpl. f_equal.
  rewrite stringify_set_reparsed by (apply q_set_NoDup, qs_parse_NoDup).
  rewrite q_set_q_set. reflexivity.
Qed.

(** X22. The last value wins: applying [formUrlQuery] for a key to the
    query of a result of [formUrlQuery] for the same key gives the URL that
    the second call alone gives on the original query. *)
Theorem formUrlQuery_last_value_wins :
  forall window_location_pathname params key value1 value2,
    formUrlQuery window_location_pathname
      (query (formUrlQuery window_location_pathname params key value1))
      key value2
    = formUrlQuery window_location_pathname params key value2.
Proof.
  intros. apply formUrlQuery_overwrite.
Qed.

(** X23. The query that [formUrlQuery] or [removeKeysFromQuery] writes has
    no bare key (every parameter carries a value) and lists its parameters
    in the order of their keys. *)
Theorem written_query_is_canonical :
  forall window_location_pathname params key value keysToRemove,
    (forallb has_value
       (query (formUrlQuery window_location_pathname params key value)) = true /\
     sorted (map fst (query (formUrlQuery window_location_pathname params key value)))) /\
    (forallb has_value
       (query (removeKeysFromQuery window_location_pathname params keysToRemove))
     = true /\
     sorted (map fst
               (query (removeKeysFromQuery window_location_pathname params
                         keysToRemove)))).
Proof.
  intros. unfold formUrlQuery, removeKeysFromQuery, qs_stringifyUrl. simpl.
  repeat split; first [apply stringify_has_values | apply stringify_sorted].
Qed.

Section PaginationRoundTrip.
Context {RT : Runtime}.
Variable window_location_pathname : string.
Variable searchParams : list Param.

(** X24. Next and then Previous lead back, where the numbers are exact: let
    [n] be [Number(page)], with [(n + 1) - 1 = n] in the arithmetic of the
    floating-point numbers, as for every integer page below [2^53].  Then a
    click on Next, followed by a click on Previous on the page that the new
    URL shows (page [n + 1], with the query of that URL), navigates to the
    URL that sets the page parameter to the text of [n] in the original
    query. *)
Theorem next_then_previous :
  forall (props props' : PaginationProps),
    let n := Number_ (page props) in
    Number_ (page props') = PrimFloat.add n 1%float ->
    PrimFloat.sub (PrimFloat.add n 1%float) 1%float = n ->
    urlParamName props' = urlParamName props ->
    onClick window_location_pathname
      (query (onClick window_location_pathname searchParams props "next"))
      props' "prev"
    = formUrlQuery window_location_pathname searchParams (param_name props)
        (Some (Number_toString n)).
Proof.
  intros props props' n Hpage Hexact Hname. subst n. unfold onClick.
  replace (param_name props') with (param_name props)
    by (unfold param_name; rewrite Hname; reflexivity).
  change ("prev" =? "next")%string with false.
  change ("next" =? "next")%string with true.
  cbv iota. rewrite Hpage. unfold js_add, js_sub. rewrite Hexact.
  apply formUrlQuery_overwrite.
Qed.

End PaginationRoundTrip.

(** X24, on the second of five pages. *)
Lemma next_then_previous_witness :
  @onClick sample_runtime "/events"
    (query (@onClick sample_runtime "/events" sample_params sample_props "next"))
    {| page := page_string "3"; totalPages := 5%float; urlParamName := None |} "prev"
  = {| pathname := "/events";
       query := [("page", Some "2"); ("query", Some "jazz")] |}.
Proof.
  rewrite (@next_then_previous sample_runtime "/events" sample_params sample_props
             {| page := page_string "3"; totalPages := 5%float;
                urlParamName := None |});
    reflexivity.
Defined.

(** Where the numbers are not exact the clicks do not lead back: from
    [2^53], Next shows [2^53] again, and Previous then leads to
    [2^53 - 1]. *)
Example next_then_previous_large :
  let props := {| page := page_string "9007199254740992";
                  totalPages := 18014398509481984%float;
                  urlParamName := None |} in
  query (@onClick sample_runtime "/events" [] props "next")
  = [("page", Some "9007199254740992")] /\
  query (@onClick sample_runtime "/events"
           (query (@onClick sample_runtime "/events" [] props "next"))
           props "prev")
  = [("page", Some "9007199254740991")].
Proof. split; vm_compute; reflexivity. Qed.

(* ------------------------------------------------------------------------- *)
(** ** More on [deleteUser], [createEvent] and [updateEvent] *)

Lemma update_first_other {A : Type} (p : A -> bool) f l x :
  In x l -> p x = false -> In x (update_first p f l).
Proof.
  induction l as [|y l IH]; simpl; intros Hin Hp; [contradiction|].
  destruct (p y) eqn:Py.
  - destruct Hin as [->|Hin]; [congruence | right; assumption].
  - destruct Hin as [->|Hin]; [left; reflexivity | right; auto].
Qed.

Lemma find_update_first {A : Type} (p : A -> bool) f l x :
  find p l = Some x -> p (f x) = true ->
  find p (update_first p f l) = Some (f x).
Proof.
  induction l as [|y l IH]; simpl; intros Hf Hp; [discriminate|].
  destruct (p y) eqn:Py.
  - inversion Hf; subst. simpl. rewrite Hp. reflexivity.
  - simpl. rewrite Py. auto.
Qed.

Section MoreWrites.
Context {RT : Runtime}.

(** X25. [deleteUser] on a [clerkId] that no user has throws, whatever the
    store does, and leaves the database as it was.  In a calm world, for a
    user none of whose listed events has an organizer, it unsets the buyer
    of the listed orders, then deletes the user, in five operations: the
    connection, the lookup, the two bulk updates and the deletion. *)
Theorem deleteUser_unlinks_then_deletes :
  (forall clerk w,
      find (fun u => (clerkId u =? clerk)%string) (users (db w)) = None ->
      exists v w', deleteUser clerk w = (Throw v, w') /\ db w' = db w) /\
  (forall clerk w u,
      calm w = true ->
      find (fun u => (clerkId u =? clerk)%string) (users (db w)) = Some u ->
      existsb (fun e => id_in (e_id e) (u_events u) && is_some (organizer e))
              (events (db w)) = false ->
      exists r w',
        deleteUser clerk w = (Return r, w') /\
        new_ops w w'
        = [(OpConnect, Ok); (OpQuery "User.findOne", Ok);
           (OpQuery "Event.updateMany", Ok); (OpQuery "Order.updateMany", Ok);
           (OpQuery "User.findByIdAndDelete", Ok)] /\
        users (db w')
        = remove_first (fun x => (u_id x =? u_id u)%string) (users (db w)) /\
        orders (db w')
        = map (fun o => if id_in (o_id o) (u_orders u) then unset_buyer o else o)
              (orders (db w)) /\
        events (db w') = events (db w)).
Proof.
  split.
  - apply deleteUser_unknown.
  - intros clerk w u Hc Hu Hex.
    destruct (deleteUser_cascade clerk w u Hc Hu Hex) as (w' & E & Hops & Hd).
    eexists. exists w'. split; [exact E|]. split; [exact Hops|].
    rewrite Hd. repeat split.
Qed.

(** X26. As soon as one of the events listed for a user has an organizer,
    the bulk update of the events is rejected and [deleteUser] throws,
    whatever else the store does: the user is not deleted and no event is
    changed. *)
Theorem deleteUser_rejected_keeps_user :
  forall clerk w u,
    find (fun u => (clerkId u =? clerk)%string) (users (db w)) = Some u ->
    existsb (fun e => id_in (e_id e) (u_events u) && is_some (organizer e))
            (events (db w)) = true ->
    exists v w',
      deleteUser clerk w = (Throw v, w') /\
      users (db w') = users (db w) /\ events (db w') = events (db w).
Proof.
  apply deleteUser_pull_rejected.
Qed.

(** X27. An event that [createEvent] stored is found by [getEventById]: in
    a calm world where the organizer exists and no event carries the
    identifier the driver generates, the second call returns the created
    event with its organizer populated from the store. *)
Theorem createEvent_then_getEventById :
  forall p w u,
    calm w = true ->
    find (fun x => (u_id x =? ce_userId p)%string) (users (db w)) = Some u ->
    (forall x, In x (events (db w)) -> e_id x <> created_event_id w) ->
    exists e w1 pe w2,
      createEvent p w = (Return (REvent e), w1) /\
      getEventById (e_id e) w1 = (Return (RPopulatedEvent pe), w2) /\
      pe_event pe = e /\
      pe_organizer pe = Some (user_ref u).
Proof.
  intros p w u Hc Hu Hfresh.
  unfold createEvent, try_catch. step_connect.
  unfold bind at 1. unfold console_write at 1.
  unfold User_findById. step_external. cbn [db performed write_console].
  rewrite Hu. unfold throw_if. cbn [is_some negb].
  unfold bind at 1. unfold ret at 1.
  unfold Event_create. step_external.
  unfold bind at 1. unfold revalidatePath at 1. unfold ret at 1.
  cbn [db performed write_console add_revalidated trace].
  rewrite !length_app, !Nat.add_1_r. cbn [List.length].
  fold (created_event_id w).
  eexists. eexists. eexists. eexists. split; [reflexivity|].
  unfold getEventById, try_catch. step_connect. step_external.
  cbn [db performed write_console add_revalidated set_events events e_id].
  rewrite find_app_last.
  - cbn [option_map]. split; [reflexivity|]. split; [reflexivity|].
    unfold JSON_roundtrip.
    cbn [populateEvent pe_organizer organizer populate_user set_events users].
    rewrite Hu. reflexivity.
  - intros y Hy. apply String.eqb_neq. apply Hfresh. assumption.
  - cbn [e_id]. apply String.eqb_refl.
Qed.

(** X28. The organizer may edit: in a calm world, [updateEvent] by the
    organizer of a stored event returns the edited event, which carries the
    title, the price, the free flag, the dates and the category of the
    request and keeps the identifier, the organizer and the creation time
    of the stored event; the lookup of the identifier in the store now
    finds the edited event; the number of events and every event with
    another identifier are kept, and the path is revalidated. *)
Theorem updateEvent_by_organizer :
  forall p w e,
    calm w = true ->
    event_to_update p w = Some e ->
    organizer e = Some (ue_userId p) ->
    exists e' w',
      updateEvent p w = (Return (REvent e'), w') /\
      (title e' = ef_title (ue_event p) /\
       price e' = ef_price (ue_event p) /\
       isFree e' = ef_isFree (ue_event p) /\
       startDateTime e' = ef_startDateTime (ue_event p) /\
       endDateTime e' = ef_endDateTime (ue_event p) /\
       category e' = Some (ef_categoryId (ue_event p))) /\
      createdAt e' = createdAt e /\
      find (fun x => (e_id x =? ef_id (ue_event p))%string) (events (db w'))
      = Some e' /\
      e_id e' = e_id e /\
      organizer e' = organizer e /\
      List.length (events (db w')) = List.length (events (db w)) /\
      (forall x, In x (events (db w)) -> e_id x <> ef_id (ue_event p) ->
                 In x (events (db w'))) /\
      users (db w') = users (db w) /\
      revalidated w' = revalidated w ++ [ue_path p].
Proof.
  intros p w e Hc He Ho. unfold updateEvent, try_catch. step_connect.
  unfold Event_findById. step_external. cbn [db performed].
  fold (event_to_update p w). rewrite He.
  unfold bind at 2. unfold toHexString. rewrite Ho.
  unfold ret at 1. unfold bind at 1. unfold ret at 1.
  rewrite String.eqb_refl. cbn [negb throw_if].
  rewrite bind_ret_l.
  unfold Event_findByIdAndUpdate. step_external. cbn [db performed].
  fold (event_to_update p w). rewrite He. cbn [option_map].
  unfold bind, revalidatePath, ret.
  cbn [db performed add_revalidated set_events events users revalidated].
  eexists. eexists. split; [reflexivity|].
  split; [repeat split|]. split; [reflexivity|].
  split.
  { unfold JSON_roundtrip. apply find_update_first; [exact He|].
    cbn [apply_event_update e_id]. unfold event_to_update in He.
    apply find_some in He. tauto. }
  split; [reflexivity|]. split; [exact Ho|].
  split; [apply update_first_length|].
  split; [|split; reflexivity].
  intros x Hx Hne. apply update_first_other; [assumption|].
  apply String.eqb_neq. assumption.
Qed.

End MoreWrites.

(** X25 to X28 on the sample database. *)
Lemma deleteUser_unlinks_then_deletes_witness :
  (exists v w',
      @deleteUser sample_runtime "clerk_nobody" sample_world = (Throw v, w') /\
      db w' = db sample_world) /\
  (exists r w',
      @deleteUser sample_runtime "clerk_bob" sample_world = (Return r, w') /\
      users (db w') = [alice]).
Proof.
  destruct (@deleteUser_unlinks_then_deletes sample_runtime) as [H1 H2].
  split.
  - apply H1. reflexivity.
  - destruct (H2 "clerk_bob" sample_world bob eq_refl eq_refl eq_refl)
      as (r & w' & E & _ & Hu & _).
    exists r, w'. split; [exact E | exact Hu].
Defined.

Lemma deleteUser_rejected_keeps_user_witness :
  exists v w',
    @deleteUser sample_runtime "clerk_alice" sample_world = (Throw v, w') /\
    users (db w') = [alice; bob] /\ events (db w') = [meetup; concert].
Proof.
  apply (@deleteUser_rejected_keeps_user sample_runtime "clerk_alice"
           sample_world alice); reflexivity.
Defined.

Lemma createEvent_then_getEventById_witness :
  exists e w1 pe w2,
    @createEvent sample_runtime sample_new_event sample_world = (Return (REvent e), w1) /\
    @getEventById sample_runtime (e_id e) w1 = (Return (RPopulatedEvent pe), w2) /\
    pe_event pe = e /\
    pe_organizer pe = Some (user_ref bob).
Proof.
  apply (@createEvent_then_getEventById sample_runtime sample_new_event
           sample_world bob); try reflexivity.
  intros x [<-|[<-|[]]]; vm_compute; discriminate.
Defined.

Lemma updateEvent_by_organizer_witness :
  exists e' w',
    @updateEvent sample_runtime edit_by_alice sample_world = (Return (REvent e'), w') /\
    title e' = "Proof Meetup, second edition" /\
    e_id e' = id_meetup /\
    In concert (events (db w')).
Proof.
  destruct (@updateEvent_by_organizer sample_runtime edit_by_alice sample_world
              meetup eq_refl eq_refl eq_refl)
    as (e' & w' & E & (Ht & _) & _ & _ & Hid & _ & _ & Hother & _).
  exists e', w'. split; [exact E|]. split; [exact Ht|]. split; [exact Hid|].
  apply Hother; [right; left; reflexivity | vm_compute; discriminate].
Defined.

(* ------------------------------------------------------------------------- *)
(** ** What the data-access functions return *)

Section Results.
Context {RT : Runtime}.
















End Results.

